(** * Warehouse Robot Picker: the path-finding engine

    A shallow embedding of the search engine of [Project.py] (class
    [WarehouseRobotPicker]): the grid with its neighbour query, the Manhattan
    heuristic, the path reconstruction and the five search loops
    ([run_astar], [run_bfs], [run_dfs], [run_ucs], [run_dls]) together with
    the entry point [find_path].

    Conventions of the embedding.
    - Python integers are [Z]; a coordinate [(row, col)] is a pair of [Z].
    - [set] objects keyed by coordinates are [gset (Z * Z)], [dict] objects
      are [gmap (Z * Z) _].
    - A [while] loop is iterated by [while_loop], which takes the number of
      iterations it may perform; [None] stands for "still running when the
      budget was used up".  Statements about what a run returns are stated
      with [returns], i.e. for every large enough budget.
    - [found_path = self.reconstruct_path(came_from, current)] followed by
      [break] is performed by the [run_...] function once its loop has
      returned [Reached]; the loop of [reconstruct_path] draws on the same
      budget.
    - The statistics counters are [nat]; each state also carries the trace
      of its frontier operations, which the program does not keep.
    - Timing, drawing, message boxes and the animation callbacks are left
      out; [frontier_cells] (written by the loops, read only by the
      renderer) and the copy of the closed set that A* keeps in
      [visited_cells] are left out as well. *)

From Stdlib Require Import ZArith Lia.
From stdpp Require Import gmap list sorting.

Local Open Scope Z_scope.

(** ** Grid model *)

Inductive CellType :=
  | EMPTY | OBSTACLE | START | GOAL | PATH | VISITED | ROBOT | FRONTIER | CURRENT.

#[global] Instance CellType_eq_dec : EqDecision CellType.
Proof. solve_decision. Defined.

Inductive Algorithm := ASTAR | BFS | DFS | UCS | DLS.

Abbreviation pos := (Z * Z)%type.

(** The part of the object state the engine reads: [self.rows],
    [self.cols] and the matrix [self.grid] (a list of rows). *)
Record Warehouse := MkWarehouse {
  rows : Z;
  cols : Z;
  grid : list (list CellType)
}.

(** The matrix has exactly [rows] rows of [cols] cells.  [__init__],
    [reset_grid] and [load_layout] all build it that way. *)
Definition wf_grid (w : Warehouse) : Prop :=
  Z.of_nat (length (grid w)) = rows w ∧
  Forall (λ r, Z.of_nat (length r) = cols w) (grid w).

#[global] Instance wf_grid_dec w : Decision (wf_grid w).
Proof. unfold wf_grid. apply _. Defined.

(** [self.grid[r][c]] for [0 <= r] and [0 <= c].  The engine only indexes
    after testing [0 <= r < rows] and [0 <= c < cols], so on a well-formed
    grid the default is never returned. *)
Definition cell (w : Warehouse) (r c : Z) : CellType :=
  default EMPTY (grid w !! Z.to_nat r ≫= λ line, line !! Z.to_nat c).

Definition in_bounds (w : Warehouse) (p : pos) : bool :=
  (0 <=? p.1) && (p.1 <? rows w) && (0 <=? p.2) && (p.2 <? cols w).

Definition is_obstacle (w : Warehouse) (p : pos) : bool :=
  bool_decide (cell w p.1 p.2 = OBSTACLE).

(** Four directions: up, right, down, left. *)
Definition directions : list (Z * Z) := [(-1, 0); (0, 1); (1, 0); (0, -1)].

Definition get_neighbors (w : Warehouse) (p : pos) : list pos :=
  let '(row, col) := p in
  fold_left
    (λ neighbors d,
       let '(dr, dc) := d in
       let new_row := row + dr in
       let new_col := col + dc in
       if (0 <=? new_row) && (new_row <? rows w) &&
          (0 <=? new_col) && (new_col <? cols w) &&
          negb (bool_decide (cell w new_row new_col = OBSTACLE))
       then neighbors ++ [(new_row, new_col)]
       else neighbors)
    directions [].

(** Manhattan distance. *)
Definition heuristic (pos1 pos2 : pos) : Z :=
  Z.abs (pos1.1 - pos2.1) + Z.abs (pos1.2 - pos2.2).

(** ** Loops with an iteration budget *)

Fixpoint while_loop {S R : Type} (step : S → S + R) (fuel : nat) (st : S)
  : option R :=
  match fuel with
  | O => None
  | Datatypes.S fuel' =>
      match step st with
      | inr r => Some r
      | inl st' => while_loop step fuel' st'
      end
  end.

(** [returns f r]: with every large enough budget the computation [f]
    finishes with [r]. *)
Definition returns {R : Type} (f : nat → option R) (r : R) : Prop :=
  ∃ N : nat, ∀ fuel : nat, (N ≤ fuel)%nat → f fuel = Some r.

(** ** Path reconstruction *)

(** [while current in came_from: current = came_from[current];
    path.append(current)], then [path.reverse()]. *)
Fixpoint reconstruct_loop (fuel : nat) (came_from : gmap pos pos)
    (current : pos) (path : list pos) : option (list pos) :=
  match came_from !! current with
  | None => Some (rev path)
  | Some prev =>
      match fuel with
      | O => None
      | Datatypes.S fuel' => reconstruct_loop fuel' came_from prev (path ++ [prev])
      end
  end.

Definition reconstruct_path (fuel : nat) (came_from : gmap pos pos)
    (current : pos) : option (list pos) :=
  reconstruct_loop fuel came_from current [current].

(** ** What a run leaves behind *)

(** Frontier events, in the order the loop performs them: [Push p] is an
    insertion of [p] into the frontier (queue, stack or heap), [Pop p] a
    removal that is accepted, [Skip p] a removal discarded because [p] was
    already visited.  The trace is not program state; it records the
    operations so that they can be counted. *)
Inductive event := Push (p : pos) | Pop (p : pos) | Skip (p : pos).

#[global] Instance event_eq_dec : EqDecision event.
Proof. solve_decision. Defined.


Definition pushes (tr : list event) : list pos :=
  omap (λ e, match e with Push p => Some p | _ => None end) tr.
Definition pops (tr : list event) : list pos :=
  omap (λ e, match e with Pop p => Some p | _ => None end) tr.

(** How the [while] loop was left: by [break] at the goal, or because the
    frontier became empty. *)
Inductive loop_exit (S : Type) :=
  | Reached (st : S) (current : pos)
  | Exhausted (st : S).
Arguments Reached {S} st current.
Arguments Exhausted {S} st.

Inductive outcome :=
  | PathFound (found_path : list pos)
  | NoPathFound
  | NoPathWithinLimit.

Record run_result := MkResult {
  result : outcome;
  nodes_visited : nat;
  nodes_explored : nat;
  trace : list event
}.

(** ** Breadth-first search *)

Record bfs_state := MkBfs {
  bfs_queue : list pos;
  bfs_visited : gset pos;
  bfs_came_from : gmap pos pos;
  bfs_nodes_visited : nat;
  bfs_nodes_explored : nat;
  bfs_trace : list event
}.

Definition bfs_init (start : pos) : bfs_state :=
  MkBfs [start] {[start]} ∅ 0 1 [Push start].

(** Body of [for neighbor in self.get_neighbors(current)]. *)
Definition bfs_neighbor (current : pos) (st : bfs_state) (neighbor : pos)
  : bfs_state :=
  if decide (neighbor ∈ bfs_visited st) then st
  else MkBfs (bfs_queue st ++ [neighbor])
             ({[neighbor]} ∪ bfs_visited st)
             (<[neighbor := current]> (bfs_came_from st))
             (bfs_nodes_visited st)
             (S (bfs_nodes_explored st))
             (bfs_trace st ++ [Push neighbor]).

(** Body of [while queue]. *)
Definition bfs_step (w : Warehouse) (goal : pos) (st : bfs_state)
  : bfs_state + loop_exit bfs_state :=
  match bfs_queue st with
  | [] => inr (Exhausted st)
  | current :: queue =>
      let st1 := MkBfs queue (bfs_visited st) (bfs_came_from st)
                       (S (bfs_nodes_visited st)) (bfs_nodes_explored st)
                       (bfs_trace st ++ [Pop current]) in
      if decide (current = goal) then inr (Reached st1 current)
      else inl (fold_left (bfs_neighbor current) (get_neighbors w current) st1)
  end.

Definition run_bfs (w : Warehouse) (start goal : pos) (fuel : nat)
  : option run_result :=
  match while_loop (bfs_step w goal) fuel (bfs_init start) with
  | None => None
  | Some (Reached st current) =>
      path ← reconstruct_path fuel (bfs_came_from st) current;
      Some (MkResult (PathFound path) (bfs_nodes_visited st)
                     (bfs_nodes_explored st) (bfs_trace st))
  | Some (Exhausted st) =>
      Some (MkResult NoPathFound (bfs_nodes_visited st)
                     (bfs_nodes_explored st) (bfs_trace st))
  end.

(** ** Depth-first search *)

(** The Python list used as a stack is kept with its top (the end of the
    Python list) at the head. *)
Record dfs_state := MkDfs {
  dfs_stack : list pos;
  dfs_visited : gset pos;
  dfs_came_from : gmap pos pos;
  dfs_nodes_visited : nat;
  dfs_nodes_explored : nat;
  dfs_trace : list event
}.

Definition dfs_init (start : pos) : dfs_state :=
  MkDfs [start] ∅ ∅ 0 1 [Push start].

(** Body of [for neighbor in reversed(neighbors)]. *)
Definition dfs_neighbor (current : pos) (st : dfs_state) (neighbor : pos)
  : dfs_state :=
  if decide (neighbor ∈ dfs_visited st) then st
  else MkDfs (neighbor :: dfs_stack st)
             (dfs_visited st)
             (<[neighbor := current]> (dfs_came_from st))
             (dfs_nodes_visited st)
             (S (dfs_nodes_explored st))
             (dfs_trace st ++ [Push neighbor]).

Definition dfs_step (w : Warehouse) (goal : pos) (st : dfs_state)
  : dfs_state + loop_exit dfs_state :=
  match dfs_stack st with
  | [] => inr (Exhausted st)
  | current :: stack =>
      if decide (current ∈ dfs_visited st) then
        inl (MkDfs stack (dfs_visited st) (dfs_came_from st)
                   (dfs_nodes_visited st) (dfs_nodes_explored st)
                   (dfs_trace st ++ [Skip current]))
      else
        let st1 := MkDfs stack ({[current]} ∪ dfs_visited st) (dfs_came_from st)
                         (S (dfs_nodes_visited st)) (dfs_nodes_explored st)
                         (dfs_trace st ++ [Pop current]) in
        if decide (current = goal) then inr (Reached st1 current)
        else inl (fold_left (dfs_neighbor current)
                            (rev (get_neighbors w current)) st1)
  end.

Definition run_dfs (w : Warehouse) (start goal : pos) (fuel : nat)
  : option run_result :=
  match while_loop (dfs_step w goal) fuel (dfs_init start) with
  | None => None
  | Some (Reached st current) =>
      path ← reconstruct_path fuel (dfs_came_from st) current;
      Some (MkResult (PathFound path) (dfs_nodes_visited st)
                     (dfs_nodes_explored st) (dfs_trace st))
  | Some (Exhausted st) =>
      Some (MkResult NoPathFound (dfs_nodes_visited st)
                     (dfs_nodes_explored st) (dfs_trace st))
  end.

(** ** Depth-limited search *)

Record dls_state := MkDls {
  dls_stack : list (pos * Z);
  dls_visited : gset pos;
  dls_came_from : gmap pos pos;
  dls_nodes_visited : nat;
  dls_nodes_explored : nat;
  dls_trace : list event
}.

Definition dls_init (start : pos) : dls_state :=
  MkDls [(start, 0)] ∅ ∅ 0 1 [Push start].

Definition dls_neighbor (current : pos) (depth : Z) (st : dls_state)
    (neighbor : pos) : dls_state :=
  if decide (neighbor ∈ dls_visited st) then st
  else MkDls ((neighbor, depth + 1) :: dls_stack st)
             (dls_visited st)
             (<[neighbor := current]> (dls_came_from st))
             (dls_nodes_visited st)
             (S (dls_nodes_explored st))
             (dls_trace st ++ [Push neighbor]).

Definition dls_step (w : Warehouse) (goal : pos) (depth_limit : Z)
    (st : dls_state) : dls_state + loop_exit dls_state :=
  match dls_stack st with
  | [] => inr (Exhausted st)
  | (current, depth) :: stack =>
      if decide (current ∈ dls_visited st) then
        inl (MkDls stack (dls_visited st) (dls_came_from st)
                   (dls_nodes_visited st) (dls_nodes_explored st)
                   (dls_trace st ++ [Skip current]))
      else
        let st1 := MkDls stack ({[current]} ∪ dls_visited st) (dls_came_from st)
                         (S (dls_nodes_visited st)) (dls_nodes_explored st)
                         (dls_trace st ++ [Pop current]) in
        if decide (current = goal) then inr (Reached st1 current)
        else if decide (depth_limit ≤ depth) then inl st1
        else inl (fold_left (dls_neighbor current depth)
                            (rev (get_neighbors w current)) st1)
  end.

Definition run_dls (w : Warehouse) (start goal : pos) (depth_limit : Z)
    (fuel : nat) : option run_result :=
  match while_loop (dls_step w goal depth_limit) fuel (dls_init start) with
  | None => None
  | Some (Reached st current) =>
      path ← reconstruct_path fuel (dls_came_from st) current;
      Some (MkResult (PathFound path) (dls_nodes_visited st)
                     (dls_nodes_explored st) (dls_trace st))
  | Some (Exhausted st) =>
      Some (MkResult NoPathWithinLimit (dls_nodes_visited st)
                     (dls_nodes_explored st) (dls_trace st))
  end.

(** ** The priority queue

    [heapq] keeps tuples [(priority, (row, col))] and [heappop] returns the
    smallest one in Python's tuple order.  Two tuples that compare equal are
    the same value, so what is popped depends only on the multiset of
    entries; the heap is kept as that multiset (a list), [heappush] adds an
    entry and [heappop] removes the smallest. *)

Abbreviation entry := (Z * pos)%type.

(** Python's [a < b] on tuples [(priority, (row, col))]. *)
Definition entry_lt (a b : entry) : bool :=
  (a.1 <? b.1) ||
  ((a.1 =? b.1) &&
   ((a.2.1 <? b.2.1) || ((a.2.1 =? b.2.1) && (a.2.2 <? b.2.2)))).

Definition heappush (heap : list entry) (e : entry) : list entry := heap ++ [e].

Fixpoint heap_min (m : entry) (heap : list entry) : entry :=
  match heap with
  | [] => m
  | e :: heap' => heap_min (if entry_lt e m then e else m) heap'
  end.

Fixpoint remove_first (m : entry) (heap : list entry) : list entry :=
  match heap with
  | [] => []
  | e :: heap' => if decide (e = m) then heap' else e :: remove_first m heap'
  end.

Definition heappop (heap : list entry) : option (entry * list entry) :=
  match heap with
  | [] => None
  | e :: heap' => let m := heap_min e heap' in Some (m, remove_first m heap)
  end.

(** [neighbor not in g_score or tentative_g_score < g_score[neighbor]]. *)
Definition improves (g_score : gmap pos Z) (neighbor : pos)
    (tentative_g_score : Z) : bool :=
  match g_score !! neighbor with
  | None => true
  | Some old => bool_decide (tentative_g_score < old)
  end.

(** ** Uniform-cost search *)

Record ucs_state := MkUcs {
  ucs_open_set : list entry;
  ucs_visited_cells : gset pos;
  ucs_came_from : gmap pos pos;
  ucs_g_score : gmap pos Z;
  ucs_nodes_visited : nat;
  ucs_nodes_explored : nat;
  ucs_trace : list event
}.

Definition ucs_init (start : pos) : ucs_state :=
  MkUcs [(0, start)] ∅ ∅ {[start := 0]} 0 1 [Push start].

(** [g_score[current]] is read with a default; [ucs_pop_opt] below shows
    that the cell popped and accepted always has an entry, so no [KeyError]
    is possible. *)
Definition ucs_neighbor (current : pos) (st : ucs_state) (neighbor : pos)
  : ucs_state :=
  if decide (neighbor ∈ ucs_visited_cells st) then st
  else
    let tentative_g_score := default 0 (ucs_g_score st !! current) + 1 in
    if improves (ucs_g_score st) neighbor tentative_g_score
    then MkUcs (heappush (ucs_open_set st) (tentative_g_score, neighbor))
               (ucs_visited_cells st)
               (<[neighbor := current]> (ucs_came_from st))
               (<[neighbor := tentative_g_score]> (ucs_g_score st))
               (ucs_nodes_visited st)
               (S (ucs_nodes_explored st))
               (ucs_trace st ++ [Push neighbor])
    else st.

Definition ucs_step (w : Warehouse) (goal : pos) (st : ucs_state)
  : ucs_state + loop_exit ucs_state :=
  match heappop (ucs_open_set st) with
  | None => inr (Exhausted st)
  | Some ((current_cost, current), open_set) =>
      if decide (current ∈ ucs_visited_cells st) then
        inl (MkUcs open_set (ucs_visited_cells st) (ucs_came_from st)
                   (ucs_g_score st) (ucs_nodes_visited st)
                   (ucs_nodes_explored st) (ucs_trace st ++ [Skip current]))
      else
        let st1 := MkUcs open_set ({[current]} ∪ ucs_visited_cells st)
                         (ucs_came_from st) (ucs_g_score st)
                         (S (ucs_nodes_visited st)) (ucs_nodes_explored st)
                         (ucs_trace st ++ [Pop current]) in
        if decide (current = goal) then inr (Reached st1 current)
        else inl (fold_left (ucs_neighbor current) (get_neighbors w current) st1)
  end.

Definition run_ucs (w : Warehouse) (start goal : pos) (fuel : nat)
  : option run_result :=
  match while_loop (ucs_step w goal) fuel (ucs_init start) with
  | None => None
  | Some (Reached st current) =>
      path ← reconstruct_path fuel (ucs_came_from st) current;
      Some (MkResult (PathFound path) (ucs_nodes_visited st)
                     (ucs_nodes_explored st) (ucs_trace st))
  | Some (Exhausted st) =>
      Some (MkResult NoPathFound (ucs_nodes_visited st)
                     (ucs_nodes_explored st) (ucs_trace st))
  end.

(** ** A* *)

Record astar_state := MkAstar {
  astar_open_set : list entry;
  astar_closed_set : gset pos;
  astar_came_from : gmap pos pos;
  astar_g_score : gmap pos Z;
  astar_f_score : gmap pos Z;
  astar_nodes_visited : nat;
  astar_nodes_explored : nat;
  astar_trace : list event
}.

Definition astar_init (start goal : pos) : astar_state :=
  MkAstar [(0, start)] ∅ ∅ {[start := 0]} {[start := heuristic start goal]}
          0 0 [Push start].

(** Body of [for neighbor in self.get_neighbors(current)].  The test
    [neighbor not in [item[1] for item in open_set]] decides whether the
    coordinate is pushed.  [g_score[current]] is read with a default;
    [astar_pop_inv] below shows that the popped cell always has an entry,
    so no [KeyError] is possible. *)
Definition astar_neighbor (goal current : pos) (st : astar_state)
    (neighbor : pos) : astar_state :=
  if decide (neighbor ∈ astar_closed_set st) then st
  else
    let tentative_g_score := default 0 (astar_g_score st !! current) + 1 in
    if improves (astar_g_score st) neighbor tentative_g_score
    then
      let came_from := <[neighbor := current]> (astar_came_from st) in
      let g_score := <[neighbor := tentative_g_score]> (astar_g_score st) in
      let f := tentative_g_score + heuristic neighbor goal in
      let f_score := <[neighbor := f]> (astar_f_score st) in
      if decide (neighbor ∈ (astar_open_set st).*2) then
        MkAstar (astar_open_set st) (astar_closed_set st) came_from g_score
                f_score (astar_nodes_visited st) (astar_nodes_explored st)
                (astar_trace st)
      else
        MkAstar (heappush (astar_open_set st) (f, neighbor))
                (astar_closed_set st) came_from g_score f_score
                (astar_nodes_visited st) (S (astar_nodes_explored st))
                (astar_trace st ++ [Push neighbor])
    else st.

Definition astar_step (w : Warehouse) (goal : pos) (st : astar_state)
  : astar_state + loop_exit astar_state :=
  match heappop (astar_open_set st) with
  | None => inr (Exhausted st)
  | Some ((_, current), open_set) =>
      if decide (current = goal) then
        inr (Reached (MkAstar open_set (astar_closed_set st) (astar_came_from st)
                              (astar_g_score st) (astar_f_score st)
                              (astar_nodes_visited st) (astar_nodes_explored st)
                              (astar_trace st ++ [Pop current]))
                     current)
      else
        let st1 := MkAstar open_set ({[current]} ∪ astar_closed_set st)
                           (astar_came_from st) (astar_g_score st)
                           (astar_f_score st)
                           (S (astar_nodes_visited st))
                           (astar_nodes_explored st)
                           (astar_trace st ++ [Pop current]) in
        inl (fold_left (astar_neighbor goal current) (get_neighbors w current) st1)
  end.

Definition run_astar (w : Warehouse) (start goal : pos) (fuel : nat)
  : option run_result :=
  match while_loop (astar_step w goal) fuel (astar_init start goal) with
  | None => None
  | Some (Reached st current) =>
      path ← reconstruct_path fuel (astar_came_from st) current;
      Some (MkResult (PathFound path) (astar_nodes_visited st)
                     (astar_nodes_explored st) (astar_trace st))
  | Some (Exhausted st) =>
      Some (MkResult NoPathFound (astar_nodes_visited st)
                     (astar_nodes_explored st) (astar_trace st))
  end.

(** ** The entry point [find_path] *)

(** The fields of the object that [find_path] and [clear_path] read or
    write, rendering state apart. *)
Record Picker := MkPicker {
  warehouse : Warehouse;
  start_pos : option pos;
  goal_pos : option pos;
  is_running : bool;
  algorithm_var : Algorithm;
  depth_limit_var : Z;
  stats_algorithm : option Algorithm
}.

(** Python list indexing: [-len <= i < 0] counts from the end, anything
    outside [-len <= i < len] raises [IndexError] ([None]). *)
Definition py_index (len : nat) (i : Z) : option nat :=
  if decide (0 ≤ i < Z.of_nat len) then Some (Z.to_nat i)
  else if decide (- Z.of_nat len ≤ i < 0) then Some (Z.to_nat (Z.of_nat len + i))
  else None.

(** [self.grid[p[0]][p[1]] = v]. *)
Definition grid_set (g : list (list CellType)) (p : pos) (v : CellType)
  : option (list (list CellType)) :=
  i ← py_index (length g) p.1;
  line ← g !! i;
  j ← py_index (length line) p.2;
  Some (<[i := <[j := v]> line]> g).

Definition is_overlay (c : CellType) : bool :=
  match c with PATH | VISITED | FRONTIER | CURRENT => true | _ => false end.

(** The two nested loops of [clear_path] over a well-formed grid: every
    [PATH], [VISITED], [FRONTIER] or [CURRENT] cell becomes [EMPTY]. *)
Definition clear_overlays (g : list (list CellType)) : list (list CellType) :=
  (λ line : list CellType,
     (λ c : CellType, if is_overlay c then EMPTY else c) <$> line) <$> g.

(** [if p: self.grid[p[0]][p[1]] = v]. *)
Definition grid_restore (g : list (list CellType)) (p : option pos)
    (v : CellType) : option (list (list CellType)) :=
  match p with
  | Some q => grid_set g q v
  | None => Some g
  end.

(** [clear_path]: the overlays are cleared, then [START] and [GOAL] are
    written back at [start_pos] and [goal_pos].  [None] stands for the
    [IndexError] of a position outside the matrix. *)
Definition clear_path (app : Picker) : option Picker :=
  g1 ← grid_restore (clear_overlays (grid (warehouse app))) (start_pos app) START;
  g2 ← grid_restore g1 (goal_pos app) GOAL;
  Some (MkPicker (MkWarehouse (rows (warehouse app)) (cols (warehouse app)) g2)
                 (start_pos app) (goal_pos app) (is_running app)
                 (algorithm_var app) (depth_limit_var app) (stats_algorithm app)).

(** What a call of [find_path] does: it shows the "Missing Positions"
    warning and returns; or returns at once because a run is in progress; or
    is left by the [IndexError] of [clear_path]; or sets [is_running], records
    the algorithm and schedules the run ([root.after(100, self.run_...)]),
    leaving the object in the given state.  The first two leave the object as
    it was. *)
Inductive find_path_outcome :=
  | MissingPositions
  | AlreadyRunning
  | IndexError
  | Scheduled (a : Algorithm) (app : Picker).

Definition find_path (app : Picker) : find_path_outcome :=
  match start_pos app, goal_pos app with
  | Some _, Some _ =>
      if is_running app then AlreadyRunning
      else match clear_path app with
           | None => IndexError
           | Some app' =>
               Scheduled (algorithm_var app)
                 (MkPicker (warehouse app') (start_pos app') (goal_pos app') true
                           (algorithm_var app') (depth_limit_var app')
                           (Some (algorithm_var app)))
           end
  | _, _ => MissingPositions
  end.

(** The scheduled callback. *)
Definition run_scheduled (a : Algorithm) (app : Picker) (fuel : nat)
  : option run_result :=
  match start_pos app, goal_pos app with
  | Some start, Some goal =>
      match a with
      | ASTAR => run_astar (warehouse app) start goal fuel
      | BFS => run_bfs (warehouse app) start goal fuel
      | DFS => run_dfs (warehouse app) start goal fuel
      | UCS => run_ucs (warehouse app) start goal fuel
      | DLS => run_dls (warehouse app) start goal (depth_limit_var app) fuel
      end
  | _, _ => None
  end.

(** A position that is missing, outside the grid, or on an obstacle. *)
Definition invalid_position (w : Warehouse) (p : option pos) : Prop :=
  match p with
  | None => True
  | Some q => in_bounds w q = false ∨ is_obstacle w q = true
  end.

(** ** Paths on the grid *)

(** Two cells are 4-adjacent when they differ by one step up, right, down
    or left. *)
Definition adjacent4 (a b : pos) : Prop :=
  Z.abs (a.1 - b.1) + Z.abs (a.2 - b.2) = 1.

(** A cell that can be walked on: inside the grid and not an obstacle. *)
Definition free_cell (w : Warehouse) (p : pos) : Prop :=
  in_bounds w p = true ∧ is_obstacle w p = false.

Fixpoint chained (R : pos → pos → Prop) (l : list pos) : Prop :=
  match l with
  | a :: (b :: _) as l' => R a b ∧ chained R l'
  | _ => True
  end.

(** [grid_path w start goal p]: [p] is a sequence of free, pairwise
    4-adjacent cells that begins at [start] and ends at [goal]. *)
Definition grid_path (w : Warehouse) (start goal : pos) (p : list pos) : Prop :=
  head p = Some start ∧ last p = Some goal ∧
  Forall (free_cell w) p ∧ chained adjacent4 p.

(** [reach w start k v]: [v] is reached from [start] by [k] moves, each to
    a cell listed by [get_neighbors]. *)
Inductive reach (w : Warehouse) (start : pos) : nat → pos → Prop :=
  | reach_here : reach w start 0 start
  | reach_move k u v :
      reach w start k u → v ∈ get_neighbors w u → reach w start (S k) v.

(** The predecessor chain of [v] in [came_from], listed from its root to
    [v]: what [reconstruct_path] returns when its loop ends. *)
Inductive chain (came_from : gmap pos pos) : pos → list pos → Prop :=
  | chain_root v : came_from !! v = None → chain came_from v [v]
  | chain_link v u p :
      came_from !! v = Some u → chain came_from u p →
      chain came_from v (p ++ [v]).

(** * Properties *)

(** ** Loops *)

Lemma while_loop_mono {S R : Type} (step : S → S + R) fuel fuel' st r :
  while_loop step fuel st = Some r → (fuel ≤ fuel')%nat →
  while_loop step fuel' st = Some r.
Proof.
  revert fuel' st. induction fuel as [|fuel IH]; intros fuel' st H Hle; [done|].
  destruct fuel' as [|fuel']; [lia|]. simpl in *.
  destruct (step st); [|done]. apply IH; [done|lia].
Qed.

(** Total correctness of a loop from an invariant and a variant. *)
Lemma while_loop_total {S R : Type} (step : S → S + R)
    (Inv : S → Prop) (μ : S → nat) (Post : R → Prop) :
  (∀ st st', Inv st → step st = inl st' → Inv st' ∧ (μ st' < μ st)%nat) →
  (∀ st r, Inv st → step st = inr r → Post r) →
  ∀ st, Inv st →
    ∃ r, Post r ∧ ∀ fuel, (μ st < fuel)%nat → while_loop step fuel st = Some r.
Proof.
  intros Hstep Hexit st. remember (μ st) as n eqn:Hn.
  revert st Hn. induction (lt_wf n) as [n _ IH]. intros st -> Hinv.
  destruct (step st) as [st'|r] eqn:Hst.
  - destruct (Hstep _ _ Hinv Hst) as [Hinv' Hlt].
    destruct (IH _ Hlt st' eq_refl Hinv') as (r & Hr & Hrun).
    exists r. split; [done|]. intros [|fuel] Hf; [lia|].
    simpl. rewrite Hst. apply Hrun. lia.
  - exists r. split; [by eapply Hexit|].
    intros [|fuel] Hf; [lia|]. simpl. by rewrite Hst.
Qed.

(** An invariant of the loop body holds after a [for] loop over a list. *)
Lemma fold_left_inv {A B : Type} (f : A → B → A) (P : list B → A → Prop) l a :
  P [] a →
  (∀ pre x a', P pre a' → x ∈ l → P (pre ++ [x]) (f a' x)) →
  P l (fold_left f l a).
Proof.
  intros H0 Hstep.
  assert (∀ pre suf a', P pre a' → (∀ x, x ∈ suf → x ∈ l) →
            P (pre ++ suf) (fold_left f suf a')) as Hgen.
  { intros pre suf. revert pre. induction suf as [|x suf IH]; intros pre a' Hp Hin.
    - by rewrite app_nil_r.
    - simpl. replace (pre ++ x :: suf) with ((pre ++ [x]) ++ suf)
        by (by rewrite <- app_assoc).
      apply IH; [apply Hstep; [done|apply Hin; left]|].
      intros y Hy. apply Hin. by right. }
  apply (Hgen [] l a H0). done.
Qed.

(** ** Path reconstruction *)

Lemma reconstruct_loop_chain came_from v p :
  chain came_from v p →
  ∃ l, p = l ++ [v] ∧
    ∀ fuel acc, (length l ≤ fuel)%nat →
      reconstruct_loop fuel came_from v acc = Some (l ++ rev acc).
Proof.
  induction 1 as [v Hv|v u p Hv Hc (l & -> & IH)].
  - exists []. split; [done|]. intros [|fuel] acc _; simpl; by rewrite Hv.
  - exists (l ++ [u]). split; [done|]. intros fuel acc Hf.
    rewrite length_app in Hf. simpl in Hf.
    destruct fuel as [|fuel]; [lia|]. simpl. rewrite Hv.
    rewrite IH by lia. by rewrite rev_app_distr, <- app_assoc.
Qed.

Lemma reconstruct_path_chain came_from v p :
  chain came_from v p →
  ∀ fuel, (length p ≤ fuel)%nat → reconstruct_path fuel came_from v = Some p.
Proof.
  intros Hc fuel Hf. destruct (reconstruct_loop_chain _ _ _ Hc) as (l & -> & H).
  unfold reconstruct_path. rewrite length_app in Hf. by rewrite H by lia.
Qed.

Lemma chain_last came_from v p : chain came_from v p → last p = Some v.
Proof. destruct 1; [done|]. by rewrite last_snoc. Qed.

(** ** The neighbour query *)

Definition passable (w : Warehouse) (q : pos) : bool :=
  in_bounds w q && negb (is_obstacle w q).

Definition around (p : pos) : list pos :=
  [(p.1 - 1, p.2); (p.1, p.2 + 1); (p.1 + 1, p.2); (p.1, p.2 - 1)].

Lemma get_neighbors_filter w p :
  get_neighbors w p = filter (λ q, passable w q = true) (around p).
Proof.
  destruct p as [row col]. unfold get_neighbors, around, directions, passable,
    in_bounds, is_obstacle. simpl.
  replace (row + -1) with (row - 1) by lia. replace (col + -1) with (col - 1) by lia.
  replace (row + 0) with row by lia. replace (col + 0) with col by lia.
  rewrite !filter_cons, filter_nil. cbn [fst snd].
  repeat match goal with
         | |- context [decide (?b = true)] =>
             tryif is_var b then fail else (let x := fresh "b" in generalize b; intros x)
         end.
  destruct b, b0, b1, b2; reflexivity.
Qed.

Lemma elem_of_around p q : q ∈ around p ↔ adjacent4 p q.
Proof.
  destruct p as [r c], q as [r' c']. unfold around, adjacent4. simpl.
  rewrite !elem_of_cons, elem_of_nil. split.
  - intros [H|[H|[H|[H|[]]]]]; injection H as -> ->; lia.
  - intros H.
    assert ((r' = r - 1 ∧ c' = c) ∨ (r' = r ∧ c' = c + 1) ∨
            (r' = r + 1 ∧ c' = c) ∨ (r' = r ∧ c' = c - 1)) as Hc by lia.
    destruct Hc as [[-> ->]|[[-> ->]|[[-> ->]|[-> ->]]]]; auto.
Qed.

Lemma elem_of_get_neighbors w p q :
  q ∈ get_neighbors w p ↔ free_cell w q ∧ adjacent4 p q.
Proof.
  rewrite get_neighbors_filter, list_elem_of_filter, elem_of_around.
  unfold passable, free_cell. rewrite andb_true_iff, negb_true_iff. tauto.
Qed.

Lemma get_neighbors_length w p : (length (get_neighbors w p) ≤ 4)%nat.
Proof.
  rewrite get_neighbors_filter.
  etrans; [apply length_filter|]. done.
Qed.

Lemma get_neighbors_in_bounds w p q :
  q ∈ get_neighbors w p → in_bounds w q = true.
Proof. rewrite elem_of_get_neighbors. by intros [[? ?] ?]. Qed.

(** All cells of the grid, as a finite set. *)
Definition all_cells (w : Warehouse) : gset pos :=
  list_to_set (cprod (seqZ 0 (rows w)) (seqZ 0 (cols w))).

Lemma elem_of_all_cells w p : p ∈ all_cells w ↔ in_bounds w p = true.
Proof.
  unfold all_cells, in_bounds. rewrite elem_of_list_to_set, list_elem_of_cprod,
    !elem_of_seqZ, !andb_true_iff. lia.
Qed.

(** ** Paths and moves *)

(** A move changes the Manhattan distance to any cell by at most one. *)
Lemma reach_heuristic w start k v :
  reach w start k v → heuristic start v ≤ Z.of_nat k.
Proof.
  induction 1 as [|k u v _ IH Hv].
  - unfold heuristic. lia.
  - apply elem_of_get_neighbors in Hv as [_ Hv].
    unfold heuristic, adjacent4 in *. lia.
Qed.

Lemma chained_app_inv R l x y :
  chained R (l ++ [x; y]) → chained R (l ++ [x]) ∧ R x y.
Proof.
  induction l as [|a [|b l] IH]; simpl in *; tauto.
Qed.

Lemma grid_path_reach w start goal p :
  grid_path w start goal p → reach w start (length p - 1) goal.
Proof.
  intros (Hh & Hl & Hf & Hc). revert goal Hh Hl Hf Hc.
  induction p as [|x p IH] using rev_ind; intros goal Hh Hl Hf Hc; [done|].
  rewrite last_snoc in Hl. injection Hl as ->.
  rewrite length_app. simpl. replace (length p + 1 - 1)%nat with (length p) by lia.
  destruct p as [|y p _] using rev_ind.
  - simpl in Hh. injection Hh as ->. constructor.
  - rewrite <- app_assoc in Hc. simpl in Hc.
    apply chained_app_inv in Hc as [Hc Hxy].
    apply Forall_app in Hf as [Hf Hx].
    rewrite length_app. simpl.
    replace (length p + 1)%nat with (S (length (p ++ [y]) - 1))
      by (rewrite length_app; simpl; lia).
    apply reach_move with y.
    + apply IH; [|by rewrite last_snoc|done|done].
      destruct p; simpl in *; done.
    + apply elem_of_get_neighbors. split; [by inv Hx|done].
Qed.

Definition moves (w : Warehouse) (p : list pos) : Prop :=
  chained (λ a b, b ∈ get_neighbors w a) p.

Lemma chained_snoc R p u v :
  chained R p → last p = Some u → R u v → chained R (p ++ [v]).
Proof.
  induction p as [|a [|b p] IH]; simpl; intros Hc Hl Hr; [done| |].
  - injection Hl as ->. done.
  - destruct Hc as [? Hc]. split; [done|]. by apply IH.
Qed.

Lemma moves_grid_path w start goal p :
  moves w p → head p = Some start → last p = Some goal → free_cell w start →
  grid_path w start goal p.
Proof.
  intros Hm Hh Hl Hs. repeat split; try done.
  - destruct p as [|a p]; [done|]. injection Hh as ->.
    clear Hl. revert start Hs Hm. induction p as [|b p IH]; intros a Ha Hm.
    { by constructor. }
    destruct Hm as [Hb Hm]. constructor; [done|].
    apply IH; [|done]. by apply elem_of_get_neighbors in Hb as [? _].
  - clear Hh Hl. induction p as [|a [|b p] IH]; simpl in *; try done.
    destruct Hm as [Hb Hm]. split; [|by apply IH].
    by apply elem_of_get_neighbors in Hb as [_ ?].
Qed.

(** ** Writing predecessors in bulk *)

Definition set_parents (current : pos) (new : list pos) (came_from : gmap pos pos)
  : gmap pos pos :=
  fold_left (λ m n, <[n := current]> m) new came_from.

Lemma lookup_set_parents current new came_from x :
  set_parents current new came_from !! x =
    if decide (x ∈ new) then Some current else came_from !! x.
Proof.
  unfold set_parents. revert came_from.
  induction new as [|n new IH]; intros came_from; cbn [fold_left].
  - case_decide; [set_solver|done].
  - rewrite IH. repeat case_decide; try done; try set_solver.
    + destruct (decide (x = n)) as [->|Hne]; [|set_solver].
      by rewrite lookup_insert_eq.
    + rewrite lookup_insert_ne; [done|set_solver].
Qed.

(** ** Breadth-first search: the inner loop in closed form *)

(** The neighbours that one expansion enqueues: those not yet visited,
    each once. *)
Fixpoint fresh (visited : gset pos) (ns : list pos) : list pos :=
  match ns with
  | [] => []
  | n :: ns' =>
      if decide (n ∈ visited) then fresh visited ns'
      else n :: fresh ({[n]} ∪ visited) ns'
  end.

Lemma elem_of_fresh visited ns x :
  x ∈ fresh visited ns ↔ x ∈ ns ∧ x ∉ visited.
Proof.
  revert visited. induction ns as [|n ns IH]; intros visited; simpl.
  - set_solver.
  - case_decide; [rewrite IH; set_solver|].
    rewrite elem_of_cons, IH. destruct (decide (x = n)); set_solver.
Qed.

Lemma NoDup_fresh visited ns : NoDup (fresh visited ns).
Proof.
  revert visited. induction ns as [|n ns IH]; intros visited; simpl.
  - constructor.
  - case_decide; [done|]. constructor; [|done].
    rewrite elem_of_fresh. set_solver.
Qed.

Lemma bfs_fold current ns st :
  fold_left (bfs_neighbor current) ns st =
    let new := fresh (bfs_visited st) ns in
    MkBfs (bfs_queue st ++ new)
          (list_to_set new ∪ bfs_visited st)
          (set_parents current new (bfs_came_from st))
          (bfs_nodes_visited st)
          (length new + bfs_nodes_explored st)
          (bfs_trace st ++ (Push <$> new)).
Proof.
  revert st. induction ns as [|n ns IH]; intros [q V cf nv ne tr]; simpl.
  - rewrite !app_nil_r. f_equal. set_solver.
  - rewrite IH. unfold bfs_neighbor. simpl. case_decide; simpl; [done|].
    rewrite <- !app_assoc. simpl. f_equal; [set_solver|lia].
Qed.

Lemma pushes_app tr1 tr2 : pushes (tr1 ++ tr2) = pushes tr1 ++ pushes tr2.
Proof. apply omap_app. Qed.
Lemma pops_app tr1 tr2 : pops (tr1 ++ tr2) = pops tr1 ++ pops tr2.
Proof. apply omap_app. Qed.
Lemma pushes_Push l : pushes (Push <$> l) = l.
Proof. induction l; simpl; [done|]. unfold pushes in *. simpl. by f_equal. Qed.
Lemma pops_Push l : pops (Push <$> l) = [].
Proof. induction l; simpl; done. Qed.

(** ** Counting unvisited cells *)

Lemma size_diff_list (U V : gset pos) (new : list pos) :
  NoDup new → (∀ x, x ∈ new → x ∈ U ∧ x ∉ V) →
  (size (U ∖ (list_to_set new ∪ V)) + length new = size (U ∖ V))%nat.
Proof.
  intros Hnd Hnew. rewrite <- (size_list_to_set (C := gset pos) new) by done.
  rewrite <- size_union.
  - f_equal. apply set_eq. intros x.
    destruct (decide (x ∈ new)) as [Hx|Hx]; [|set_solver].
    destruct (Hnew x Hx). set_solver.
  - set_solver.
Qed.

Lemma size_diff_add (U V : gset pos) (x : pos) :
  x ∈ U → x ∉ V → (S (size (U ∖ ({[x]} ∪ V))) = size (U ∖ V))%nat.
Proof.
  intros HU HV. pose proof (size_diff_list U V [x]) as H. simpl in H.
  rewrite <- H; [|apply NoDup_singleton|set_solver].
  replace ({[x]} ∪ ∅ ∪ V) with ({[x]} ∪ V) by set_solver. lia.
Qed.

Lemma StronglySorted_weaken (R R' : relation pos) (l : list pos) :
  (∀ x y, x ∈ l → y ∈ l → R x y → R' x y) →
  StronglySorted R l → StronglySorted R' l.
Proof.
  intros HR Hs. induction Hs as [|a l Hs IH Hall]; constructor.
  - apply IH. intros x y Hx Hy. apply HR; set_solver.
  - rewrite Forall_forall in *. intros x Hx. apply HR; [set_solver..|by apply Hall].
Qed.

Lemma StronglySorted_const (f : pos → nat) (c : nat) (l : list pos) :
  (∀ x, x ∈ l → f x = c) → StronglySorted (λ a b, (f a ≤ f b)%nat) l.
Proof.
  induction l as [|a l IH]; intros Hf; constructor.
  - apply IH. intros x Hx. apply Hf. set_solver.
  - apply Forall_forall. intros x Hx. rewrite !Hf by set_solver. done.
Qed.

(** ** Breadth-first search: invariant *)

Section bfs.
Context (w : Warehouse) (start goal : pos).

(** [lvl] is the number of moves on the predecessor chain of a visited
    cell; it exists only in the proof. *)
Record bfs_inv (lvl : pos → nat) (st : bfs_state) : Prop := {
  bi_start : start ∈ bfs_visited st ∧ bfs_came_from st !! start = None ∧
             lvl start = 0%nat;
  bi_queue : ∀ x, x ∈ bfs_queue st → x ∈ bfs_visited st;
  bi_parent : ∀ v, v ∈ bfs_visited st → v ≠ start →
    ∃ u, bfs_came_from st !! v = Some u ∧ u ∈ bfs_visited st ∧
         v ∈ get_neighbors w u ∧ lvl v = S (lvl u);
  bi_closed : ∀ u, u ∈ bfs_visited st → u ∉ bfs_queue st →
    u ≠ goal ∧
    ∀ v, v ∈ get_neighbors w u → v ∈ bfs_visited st ∧ (lvl v ≤ S (lvl u))%nat;
  bi_sorted : StronglySorted (λ a b, (lvl a ≤ lvl b)%nat) (bfs_queue st);
  bi_bound : ∀ h v, head (bfs_queue st) = Some h → v ∈ bfs_visited st →
    (lvl v ≤ S (lvl h))%nat;
  bi_pushes : NoDup (pushes (bfs_trace st)) ∧
              ∀ x, x ∈ pushes (bfs_trace st) ↔ x ∈ bfs_visited st;
  bi_univ : bfs_visited st ⊆ {[start]} ∪ all_cells w;
  bi_counts : bfs_nodes_visited st = length (pops (bfs_trace st)) ∧
              bfs_nodes_explored st = length (pushes (bfs_trace st))
}.

Definition bfs_measure (st : bfs_state) : nat :=
  (size (({[start]} ∪ all_cells w) ∖ bfs_visited st) + length (bfs_queue st))%nat.

Lemma bfs_inv_init : bfs_inv (λ _, 0%nat) (bfs_init start).
Proof.
  split; simpl; try set_solver.
  - repeat constructor.
  - split; [|set_solver]. apply NoDup_singleton.
Qed.

Lemma bfs_chain lvl st :
  bfs_inv lvl st → ∀ n v, v ∈ bfs_visited st → lvl v = n →
  ∃ p, chain (bfs_came_from st) v p ∧ head p = Some start ∧ moves w p ∧
       length p = S n.
Proof.
  intros Hinv. induction n as [|n IH]; intros v Hv Hl.
  - destruct (decide (v = start)) as [->|Hne].
    + exists [start]. split; [|done]. apply chain_root. apply Hinv.
    + destruct (bi_parent _ _ Hinv v Hv Hne) as (u & _ & _ & _ & ?). lia.
  - destruct (decide (v = start)) as [->|Hne].
    { destruct (bi_start _ _ Hinv) as (_ & _ & ?). lia. }
    destruct (bi_parent _ _ Hinv v Hv Hne) as (u & Hcf & Hu & Hnb & Hlu).
    destruct (IH u Hu) as (p & Hc & Hh & Hm & Hlen); [lia|].
    exists (p ++ [v]). repeat split.
    + by apply chain_link with u.
    + destruct p; simpl in *; [lia|done].
    + apply chained_snoc with u; [done| |done]. by eapply chain_last.
    + rewrite length_app. simpl. lia.
Qed.

(** Whatever is reached in [k] moves is visited at level [k] at most, or
    the head of the queue is at level [k] at most. *)
Lemma bfs_lower lvl st h :
  bfs_inv lvl st → head (bfs_queue st) = Some h →
  ∀ k v, reach w start k v →
    (v ∈ bfs_visited st ∧ (lvl v ≤ k)%nat) ∨ (lvl h ≤ k)%nat.
Proof.
  intros Hinv Hh. induction 1 as [|k u v _ IH Hv].
  - left. destruct (bi_start _ _ Hinv) as (? & _ & ->). done.
  - destruct IH as [[Hu Hl]|Hl]; [|right; lia].
    destruct (decide (u ∈ bfs_queue st)) as [Hq|Hq].
    + right. pose proof (bi_sorted _ _ Hinv) as Hs.
      destruct (bfs_queue st) as [|h' q]; [done|]. injection Hh as ->.
      apply elem_of_cons in Hq as [->|Hq]; [lia|].
      apply StronglySorted_cons in Hs as [Hall _].
      rewrite Forall_forall in Hall. specialize (Hall _ Hq). simpl in Hall. lia.
    + left. destruct (bi_closed _ _ Hinv u Hu Hq) as [_ Hc].
      destruct (Hc v Hv). split; [done|lia].
Qed.

Lemma bfs_closed_all lvl st :
  bfs_inv lvl st → bfs_queue st = [] →
  ∀ k v, reach w start k v → v ∈ bfs_visited st.
Proof.
  intros Hinv Hq. induction 1 as [|k u v _ IH Hv].
  - apply Hinv.
  - destruct (bi_closed _ _ Hinv u IH) as [_ Hc]; [rewrite Hq; set_solver|].
    by apply Hc.
Qed.

(** What holds when the loop is left. *)
Definition bfs_post (r : loop_exit bfs_state) : Prop :=
  match r with
  | Reached st current =>
      current = goal ∧
      ∃ p, chain (bfs_came_from st) goal p ∧ head p = Some start ∧
           moves w p ∧ ∀ k, reach w start k goal → (length p ≤ S k)%nat
  | Exhausted st => ∀ k, ¬ reach w start k goal
  end ∧
  let st := match r with Reached st _ | Exhausted st => st end in
  NoDup (pushes (bfs_trace st)) ∧
  bfs_nodes_visited st = length (pops (bfs_trace st)) ∧
  bfs_nodes_explored st = length (pushes (bfs_trace st)).

Lemma bfs_step_exit lvl st r :
  bfs_inv lvl st → bfs_step w goal st = inr r → bfs_post r.
Proof.
  intros Hinv. unfold bfs_step.
  destruct (bfs_queue st) as [|h q] eqn:Hq.
  - intros [= <-]. split; simpl.
    + intros k Hk. pose proof (bfs_closed_all _ _ Hinv Hq _ _ Hk) as Hg.
      destruct (bi_closed _ _ Hinv goal Hg); [rewrite Hq; set_solver|done].
    + destruct (bi_pushes _ _ Hinv), (bi_counts _ _ Hinv). done.
  - case_decide as Hg; [|done]. intros [= <-]. subst h. split; simpl.
    + split; [done|].
      assert (goal ∈ bfs_visited st) as Hv
        by (apply (bi_queue _ _ Hinv); rewrite Hq; set_solver).
      destruct (bfs_chain _ _ Hinv _ goal Hv eq_refl) as (p & Hc & Hh & Hm & Hl).
      exists p. repeat split; try done. intros k Hk.
      destruct (bfs_lower lvl st goal Hinv) with (k := k) (v := goal)
        as [[_ ?]|?]; [by rewrite Hq|done|lia|lia].
    + destruct (bi_pushes _ _ Hinv) as [Hnd _], (bi_counts _ _ Hinv) as [-> ->].
      rewrite pushes_app, pops_app, !length_app. simpl.
      rewrite app_nil_r. split; [done|]. split; lia.
Qed.
Lemma bfs_step_inv lvl st st' :
  bfs_inv lvl st → bfs_step w goal st = inl st' →
  (∃ lvl', bfs_inv lvl' st') ∧ (bfs_measure st' < bfs_measure st)%nat.
Proof.
  intros Hinv. unfold bfs_step.
  destruct st as [queue V cf nv ne tr]. simpl.
  destruct queue as [|h q] eqn:Hq; [done|].
  case_decide as Hg; [done|]. intros [= <-]. rewrite bfs_fold. simpl.
  set (new := fresh V (get_neighbors w h)).
  assert (∀ x, x ∈ new ↔ x ∈ get_neighbors w h ∧ x ∉ V) as Hnew
    by (intros x; apply elem_of_fresh).
  destruct Hinv as [(Hs & Hcs & Hls) Hqu Hpar Hcl Hso Hbo [Hnd Hpu] Hun [Hnv Hne]].
  simpl in *.
  assert (h ∈ V) as HhV by (apply Hqu; set_solver).
  apply StronglySorted_cons in Hso as [Hall Hso]. rewrite Forall_forall in Hall.
  set (lvl' := λ x, if decide (x ∈ new) then S (lvl h) else lvl x).
  assert (∀ x, x ∈ V → lvl' x = lvl x) as Hold.
  { intros x Hx. unfold lvl'. case_decide as Hin; [|done].
    apply Hnew in Hin. tauto. }
  assert (∀ x, x ∈ new → lvl' x = S (lvl h)) as Hfresh.
  { intros x Hx. unfold lvl'. by rewrite decide_True. }
  pose proof (NoDup_fresh V (get_neighbors w h)) as Hndnew. fold new in Hndnew.
  split.
  - exists lvl'. split; simpl.
    + split; [set_solver|]. split; [|by rewrite Hold].
      rewrite lookup_set_parents. case_decide as Hin; [|done].
      apply Hnew in Hin. tauto.
    + intros x. rewrite elem_of_app. set_solver.
    + intros v Hv Hne'. destruct (decide (v ∈ new)) as [Hin|Hin].
      * exists h. rewrite lookup_set_parents, decide_True by done.
        rewrite (Hfresh v Hin), (Hold h HhV).
        apply Hnew in Hin. set_solver.
      * assert (v ∈ V) as HvV by set_solver.
        destruct (Hpar v HvV Hne') as (u & Hcu & Hu & Hnb & Hl).
        exists u. rewrite lookup_set_parents, decide_False by done.
        rewrite (Hold v HvV), (Hold u Hu). set_solver.
    + intros u Hu Hnq. rewrite elem_of_app in Hnq.
      assert (u ∈ V) as HuV by set_solver.
      destruct (decide (u = h)) as [->|Hne'].
      * split; [done|]. intros v Hv.
        destruct (decide (v ∈ V)) as [HvV|HvV].
        -- split; [set_solver|]. rewrite (Hold v HvV), (Hold h HhV).
           by apply (Hbo h).
        -- assert (v ∈ new) as Hin by (apply Hnew; done).
           split; [set_solver|]. rewrite (Hfresh v Hin), (Hold h HhV). lia.
      * destruct (Hcl u HuV) as [? Hc]; [set_solver|]. split; [done|].
        intros v Hv. destruct (Hc v Hv) as [HvV Hl].
        split; [set_solver|]. by rewrite (Hold v HvV), (Hold u HuV).
    + apply StronglySorted_app_2.
      * intros x1 x2 H1 H2. rewrite (Hfresh x2 H2), (Hold x1) by set_solver.
        apply (Hbo h); [done|set_solver].
      * eapply StronglySorted_weaken; [|done].
        intros x y Hx Hy Hxy. simpl in Hxy. rewrite !Hold by set_solver. done.
      * by apply StronglySorted_const with (S (lvl h)).
    + intros h' v Hh' Hv.
      assert (lvl h ≤ lvl' h')%nat as Hle.
      { destruct q as [|a q']; simpl in Hh'.
        - assert (h' ∈ new) as Hin by (destruct new; simpl in *; set_solver).
          rewrite (Hfresh _ Hin). lia.
        - injection Hh' as ->. rewrite Hold by set_solver.
          apply Hall. set_solver. }
      destruct (decide (v ∈ new)) as [Hin|Hin].
      * rewrite (Hfresh v Hin). lia.
      * assert (v ∈ V) as HvV by set_solver. rewrite (Hold v HvV).
        specialize (Hbo h v eq_refl HvV). lia.
    + rewrite !pushes_app, pushes_Push. simpl. rewrite app_nil_r. split.
      * apply NoDup_app. split; [done|]. split; [|done].
        intros x Hx Hin. apply Hpu in Hx. apply Hnew in Hin. tauto.
      * intros x. rewrite elem_of_app, Hpu. set_solver.
    + intros x Hx. apply elem_of_union in Hx as [Hx|Hx]; [|by apply Hun].
      apply elem_of_list_to_set, Hnew in Hx as [Hx _].
      apply elem_of_union_r, elem_of_all_cells.
      by eapply get_neighbors_in_bounds.
    + rewrite !pushes_app, !pops_app, pushes_Push, pops_Push, !length_app.
      simpl. rewrite Hnv, Hne. lia.
  - unfold bfs_measure. simpl. rewrite length_app.
    pose proof (size_diff_list ({[start]} ∪ all_cells w) V new Hndnew) as Hsz.
    rewrite <- Hsz; [lia|].
    intros x Hx. apply Hnew in Hx as [Hx ?]. split; [|done].
    apply elem_of_union_r, elem_of_all_cells.
    by eapply get_neighbors_in_bounds.
Qed.

(** The loop ends, and [bfs_post] holds of the way it is left. *)
Lemma bfs_loop_total :
  ∃ r, bfs_post r ∧
    ∀ fuel, (bfs_measure (bfs_init start) < fuel)%nat →
      while_loop (bfs_step w goal) fuel (bfs_init start) = Some r.
Proof.
  apply (while_loop_total (bfs_step w goal) (λ st, ∃ lvl, bfs_inv lvl st)
           bfs_measure bfs_post).
  - intros st st' [lvl Hinv] Hst. by eapply bfs_step_inv.
  - intros st r [lvl Hinv] Hst. by eapply bfs_step_exit.
  - eexists. apply bfs_inv_init.
Qed.
End bfs.

(** What a finished run says about the grid.  [shortest] tells whether the
    path found is required to be a shortest one. *)
Definition result_ok (w : Warehouse) (start goal : pos) (shortest : bool)
    (r : run_result) : Prop :=
  nodes_visited r = length (pops (trace r)) ∧
  nodes_explored r = length (pushes (trace r)) ∧
  match result r with
  | PathFound p =>
      head p = Some start ∧ last p = Some goal ∧ moves w p ∧
      (shortest = true → ∀ k, reach w start k goal → (length p ≤ S k)%nat)
  | NoPathFound => ∀ k, ¬ reach w start k goal
  | NoPathWithinLimit => False
  end.

Lemma run_bfs_spec w start goal :
  ∃ r, returns (run_bfs w start goal) r ∧ result_ok w start goal true r ∧
       NoDup (pushes (trace r)).
Proof.
  destruct (bfs_loop_total w start goal) as (r & [Hr (Hnd & Hnv & Hne)] & Hrun).
  destruct r as [st current|st]; simpl in *.
  - destruct Hr as (-> & p & Hc & Hh & Hm & Hmin).
    exists (MkResult (PathFound p) (bfs_nodes_visited st) (bfs_nodes_explored st)
                     (bfs_trace st)).
    split; [|split; [|done]].
    + exists (S (bfs_measure w start (bfs_init start)) + length p)%nat.
      intros fuel Hf. unfold run_bfs. rewrite Hrun by lia.
      by rewrite (reconstruct_path_chain _ _ _ Hc) by lia.
    + repeat split; simpl; try done. by eapply chain_last.
  - exists (MkResult NoPathFound (bfs_nodes_visited st) (bfs_nodes_explored st)
                     (bfs_trace st)).
    split; [|split; [|done]].
    + exists (S (bfs_measure w start (bfs_init start))).
      intros fuel Hf. unfold run_bfs. by rewrite Hrun by lia.
    + repeat split; simpl; done.
Qed.

Lemma grid_path_start_free w start goal p :
  grid_path w start goal p → free_cell w start.
Proof.
  intros (Hh & _ & Hf & _). destruct p as [|a p]; [done|].
  injection Hh as ->. by inv Hf.
Qed.

Lemma grid_path_length w start goal p :
  grid_path w start goal p → (0 < length p)%nat.
Proof. intros (Hh & _). destruct p; simpl in *; [done|lia]. Qed.

(** C1. On a well-formed grid, if some path of free, 4-adjacent cells leads
    from [start] to [goal], then [run_bfs] finds a path, the path it
    reconstructs is such a path and no such path has fewer cells, and no
    coordinate is put on the queue twice. *)
Theorem run_bfs_shortest w start goal :
  wf_grid w →
  (∃ p, grid_path w start goal p) →
  ∃ r path,
    returns (run_bfs w start goal) r ∧
    result r = PathFound path ∧
    grid_path w start goal path ∧
    (∀ p', grid_path w start goal p' → (length path ≤ length p')%nat) ∧
    NoDup (pushes (trace r)).
Proof.
  intros _ [p0 Hp0].
  destruct (run_bfs_spec w start goal) as (r & Hret & (_ & _ & Hres) & Hnd).
  pose proof (grid_path_reach _ _ _ _ Hp0) as Hreach.
  destruct (result r) as [path| |] eqn:Hr.
  - destruct Hres as (Hh & Hl & Hm & Hmin). exists r, path.
    split; [done|]. split; [done|]. split; [|split; [|done]].
    + apply moves_grid_path; try done. by eapply grid_path_start_free.
    + intros p' Hp'. pose proof (grid_path_length _ _ _ _ Hp').
      specialize (Hmin eq_refl _ (grid_path_reach _ _ _ _ Hp')). lia.
  - by destruct (Hres _ Hreach).
  - done.
Qed.

(** ** Depth-first and depth-limited search: shared invariant *)

Lemma elem_of_rev {A : Type} (x : A) (l : list A) : x ∈ rev l ↔ x ∈ l.
Proof. rewrite !list_elem_of_In. symmetry. apply in_rev. Qed.

Lemma dfs_fold current ns st :
  fold_left (dfs_neighbor current) ns st =
    let new := filter (λ n, n ∉ dfs_visited st) ns in
    MkDfs (rev new ++ dfs_stack st)
          (dfs_visited st)
          (set_parents current new (dfs_came_from st))
          (dfs_nodes_visited st)
          (length new + dfs_nodes_explored st)
          (dfs_trace st ++ (Push <$> new)).
Proof.
  revert st. induction ns as [|n ns IH]; intros [q V cf nv ne tr]; simpl.
  - by rewrite app_nil_r.
  - rewrite IH. unfold dfs_neighbor. simpl. rewrite filter_cons.
    case_decide; simpl; [by rewrite decide_False by tauto|].
    rewrite decide_True by done. simpl.
    rewrite <- !app_assoc. simpl. f_equal. lia.
Qed.

Lemma dls_fold current depth ns st :
  fold_left (dls_neighbor current depth) ns st =
    let new := filter (λ n, n ∉ dls_visited st) ns in
    MkDls (rev ((λ n, (n, depth + 1)) <$> new) ++ dls_stack st)
          (dls_visited st)
          (set_parents current new (dls_came_from st))
          (dls_nodes_visited st)
          (length new + dls_nodes_explored st)
          (dls_trace st ++ (Push <$> new)).
Proof.
  revert st. induction ns as [|n ns IH]; intros [q V cf nv ne tr]; simpl.
  - by rewrite app_nil_r.
  - rewrite IH. unfold dls_neighbor. simpl. rewrite filter_cons.
    case_decide; simpl; [by rewrite decide_False by tauto|].
    rewrite decide_True by done. simpl.
    rewrite <- !app_assoc. simpl. f_equal. lia.
Qed.

(** A depth-limited state without the depth counters. *)
Definition dls_erase (st : dls_state) : dfs_state :=
  MkDfs (dls_stack st).*1 (dls_visited st) (dls_came_from st)
        (dls_nodes_visited st) (dls_nodes_explored st) (dls_trace st).

Section dfs.
Context (w : Warehouse) (start goal : pos).

(** [rank] is the position of a visited cell in the order of visits; it
    exists only in the proof. *)
Record dfs_inv (rank : pos → nat) (st : dfs_state) : Prop := {
  di_start : dfs_came_from st !! start = None ∧
             (start ∈ dfs_visited st ∨ dfs_stack st = [start]);
  di_edge : ∀ v u, dfs_came_from st !! v = Some u →
    u ∈ dfs_visited st ∧ v ∈ get_neighbors w u ∧
    (v ∈ dfs_visited st → (rank u < rank v)%nat);
  di_rank : ∀ u, u ∈ dfs_visited st → (rank u < size (dfs_visited st))%nat;
  di_stack : ∀ x, x ∈ dfs_stack st →
    x = start ∨ is_Some (dfs_came_from st !! x);
  di_visited : ∀ v, v ∈ dfs_visited st →
    (v = start ∨ is_Some (dfs_came_from st !! v)) ∧ v ≠ goal;
  di_univ : dfs_visited st ⊆ {[start]} ∪ all_cells w ∧
            ∀ x, x ∈ dfs_stack st → x ∈ {[start]} ∪ all_cells w;
  di_counts : dfs_nodes_visited st = length (pops (dfs_trace st)) ∧
              dfs_nodes_explored st = length (pushes (dfs_trace st))
}.

(** Every neighbour of a visited cell is visited or waits on the stack
    (depth-first search only). *)
Definition dfs_closed (st : dfs_state) : Prop :=
  ∀ u v, u ∈ dfs_visited st → v ∈ get_neighbors w u →
    v ∈ dfs_visited st ∨ v ∈ dfs_stack st.

Definition dfs_measure (st : dfs_state) : nat :=
  (5 * size (({[start]} ∪ all_cells w) ∖ dfs_visited st) +
   length (dfs_stack st))%nat.

Lemma dfs_inv_init : dfs_inv (λ _, 0%nat) (dfs_init start).
Proof. split; simpl; set_solver. Qed.

Lemma dfs_inv_skip rank x stack V cf nv ne tr :
  dfs_inv rank (MkDfs (x :: stack) V cf nv ne tr) → x ∈ V →
  dfs_inv rank (MkDfs stack V cf nv ne (tr ++ [Skip x])).
Proof.
  intros [(Hcs & Hs) Hed Hrk Hst Hvi [HuV Hus] [Hnv Hne]] Hx. simpl in *.
  split; simpl; try done.
  - split; [done|]. destruct Hs as [?|[= -> ->]]; by left.
  - intros y Hy. apply Hst. set_solver.
  - split; [done|]. intros y Hy. apply Hus. set_solver.
  - rewrite pops_app, pushes_app, !length_app. simpl. lia.
Qed.

Lemma dfs_inv_accept rank x stack V cf nv ne tr new :
  dfs_inv rank (MkDfs (x :: stack) V cf nv ne tr) → x ∉ V → x ≠ goal →
  (∀ n, n ∈ new → n ∈ get_neighbors w x ∧ n ∉ ({[x]} ∪ V : gset pos)) →
  ∃ rank',
    dfs_inv rank' (MkDfs (rev new ++ stack) ({[x]} ∪ V)
                         (set_parents x new cf) (S nv) (length new + ne)
                         ((tr ++ [Pop x]) ++ (Push <$> new))).
Proof.
  intros [(Hcs & Hs) Hed Hrk Hst Hvi [HuV Hus] [Hnv Hne]] Hx Hg Hnew.
  simpl in *.
  assert (start ∈ ({[x]} ∪ V : gset pos)) as HsV.
  { destruct Hs as [?|[= -> ->]]; set_solver. }
  exists (λ y, if decide (y = x) then size V else rank y).
  split; simpl.
  - split; [|by left]. rewrite lookup_set_parents.
    case_decide as Hin; [|done]. apply Hnew in Hin. tauto.
  - intros v u. rewrite lookup_set_parents. case_decide as Hin.
    + intros [= <-]. apply Hnew in Hin as [? ?]. split; [set_solver|].
      split; [done|]. tauto.
    + intros Hcf. destruct (Hed v u Hcf) as (Hu & Hnb & Hr).
      split; [set_solver|]. split; [done|]. intros Hv.
      rewrite (decide_False (P := u = x)) by (intros ->; done).
      case_decide as Hvx; [by apply Hrk|]. apply Hr. set_solver.
  - intros u Hu. rewrite size_union by set_solver. rewrite size_singleton.
    case_decide; [lia|]. assert (u ∈ V) as HuV' by set_solver.
    specialize (Hrk u HuV'). lia.
  - intros y Hy. rewrite lookup_set_parents. case_decide; [by right|].
    apply Hst. rewrite elem_of_app, elem_of_rev in Hy. set_solver.
  - intros v Hv. rewrite lookup_set_parents.
    destruct (decide (v = x)) as [->|Hvx].
    + split; [|done]. case_decide; [by right|]. apply Hst. set_solver.
    + assert (v ∈ V) as HvV by set_solver. destruct (Hvi v HvV).
      split; [|done]. case_decide; [by right|done].
  - split.
    + assert (x ∈ {[start]} ∪ all_cells w) by (apply Hus; set_solver).
      set_solver.
    + intros y Hy. rewrite elem_of_app, elem_of_rev in Hy.
      destruct Hy as [Hy|Hy]; [|apply Hus; set_solver].
      apply Hnew in Hy as [Hy _].
      apply elem_of_union_r, elem_of_all_cells.
      by eapply get_neighbors_in_bounds.
  - rewrite !pops_app, !pushes_app, pushes_Push, pops_Push, !length_app.
    simpl. lia.
Qed.

Lemma dfs_chain_visited rank st :
  dfs_inv rank st → ∀ n v, v ∈ dfs_visited st → (rank v < n)%nat →
  ∃ p, chain (dfs_came_from st) v p ∧ head p = Some start ∧ moves w p.
Proof.
  intros Hinv. induction n as [|n IH]; intros v Hv Hr; [lia|].
  destruct (dfs_came_from st !! v) as [u|] eqn:Hcf.
  - destruct (di_edge _ _ Hinv v u Hcf) as (Hu & Hnb & Hlt).
    destruct (IH u Hu) as (p & Hc & Hh & Hm); [specialize (Hlt Hv); lia|].
    exists (p ++ [v]). split; [by apply chain_link with u|]. split.
    + destruct p; [by inv Hc|done].
    + apply chained_snoc with u; [done|by eapply chain_last|done].
  - destruct (di_visited _ _ Hinv v Hv) as [[->|[? ?]] _]; [|congruence].
    exists [start]. split; [by apply chain_root|done].
Qed.

(** The cell on top of the stack has a predecessor chain back to the
    start. *)
Lemma dfs_chain_top rank st x :
  dfs_inv rank st → x ∈ dfs_stack st →
  ∃ p, chain (dfs_came_from st) x p ∧ head p = Some start ∧ moves w p.
Proof.
  intros Hinv Hx. destruct (dfs_came_from st !! x) as [u|] eqn:Hcf.
  - destruct (di_edge _ _ Hinv x u Hcf) as (Hu & Hnb & _).
    destruct (dfs_chain_visited _ _ Hinv (S (rank u)) u Hu)
      as (p & Hc & Hh & Hm); [lia|].
    exists (p ++ [x]). split; [by apply chain_link with u|]. split.
    + destruct p; [by inv Hc|done].
    + apply chained_snoc with u; [done|by eapply chain_last|done].
  - destruct (di_stack _ _ Hinv x Hx) as [->|[? ?]]; [|congruence].
    exists [start]. split; [by apply chain_root|done].
Qed.
End dfs.

Lemma fmap_rev {A B : Type} (f : A → B) (l : list A) : f <$> rev l = rev (f <$> l).
Proof.
  induction l as [|a l IH]; [done|]. simpl. rewrite fmap_app. by f_equal.
Qed.

Lemma fst_tag_fmap {A B : Type} (b : B) (l : list A) : ((λ a, (a, b)) <$> l).*1 = l.
Proof. induction l as [|a l IH]; [done|]. csimpl. by f_equal. Qed.

(** How a stack-based loop was left. *)
Definition stack_exit_ok (w : Warehouse) (start goal : pos) (complete : bool)
    (r : loop_exit dfs_state) : Prop :=
  match r with
  | Reached st current =>
      current = goal ∧
      ∃ p, chain (dfs_came_from st) goal p ∧ head p = Some start ∧ moves w p
  | Exhausted st => complete = true → ∀ k, ¬ reach w start k goal
  end ∧
  let st := match r with Reached st _ | Exhausted st => st end in
  dfs_nodes_visited st = length (pops (dfs_trace st)) ∧
  dfs_nodes_explored st = length (pushes (dfs_trace st)).

Definition erase_exit (r : loop_exit dls_state) : loop_exit dfs_state :=
  match r with
  | Reached st current => Reached (dls_erase st) current
  | Exhausted st => Exhausted (dls_erase st)
  end.

Section dfs_loop.
Context (w : Warehouse) (start goal : pos).

Definition dfs_full (st : dfs_state) : Prop :=
  (∃ rank, dfs_inv w start goal rank st) ∧ dfs_closed w st.

Lemma dfs_measure_accept x stack V cf nv ne tr cf' nv' ne' tr' new :
  x ∈ {[start]} ∪ all_cells w → x ∉ V → (length new ≤ 4)%nat →
  (dfs_measure w start (MkDfs (rev new ++ stack) ({[x]} ∪ V) cf' nv' ne' tr') <
   dfs_measure w start (MkDfs (x :: stack) V cf nv ne tr))%nat.
Proof.
  intros HxU Hx Hlen. unfold dfs_measure. simpl.
  rewrite <- (size_diff_add _ V x HxU Hx), length_app, length_rev. lia.
Qed.

Lemma dfs_step_inv st st' :
  dfs_full st → dfs_step w goal st = inl st' →
  dfs_full st' ∧ (dfs_measure w start st' < dfs_measure w start st)%nat.
Proof.
  intros [[rank Hinv] Hcl]. unfold dfs_step.
  destruct st as [stack V cf nv ne tr]. simpl.
  destruct stack as [|x stack]; [done|].
  case_decide as Hx.
  - intros [= <-]. split; [split|].
    + exists rank. by apply dfs_inv_skip.
    + intros u v Hu Hv. destruct (Hcl u v Hu Hv) as [?|Hin]; simpl in *; [by left|].
      apply elem_of_cons in Hin as [->|?]; [by left|by right].
    + unfold dfs_measure. simpl. lia.
  - case_decide as Hg; [done|]. intros [= <-]. rewrite dfs_fold. simpl.
    set (new := filter (λ n, n ∉ ({[x]} ∪ V : gset pos)) (rev (get_neighbors w x))).
    assert (∀ n, n ∈ new ↔ n ∈ get_neighbors w x ∧ n ∉ ({[x]} ∪ V : gset pos)) as Hnew.
    { intros n. unfold new. rewrite list_elem_of_filter, elem_of_rev. tauto. }
    split; [split|].
    + apply (dfs_inv_accept w start goal rank); try done.
      intros n Hn. by apply Hnew.
    + intros u v Hu Hv. simpl in *.
      destruct (decide (v ∈ ({[x]} ∪ V : gset pos))) as [?|Hnv]; [by left|].
      right. rewrite elem_of_app, elem_of_rev.
      apply elem_of_union in Hu as [Hu|Hu].
      * apply elem_of_singleton in Hu as ->. left. by apply Hnew.
      * destruct (Hcl u v Hu Hv) as [?|Hin]; simpl in *; set_solver.
    + apply dfs_measure_accept; [|done|].
      * apply (di_univ _ _ _ _ _ Hinv). simpl. set_solver.
      * unfold new. etrans; [apply length_filter|].
        rewrite length_rev. apply get_neighbors_length.
Qed.

Lemma dfs_step_exit st r :
  dfs_full st → dfs_step w goal st = inr r → stack_exit_ok w start goal true r.
Proof.
  intros [[rank Hinv] Hcl]. unfold dfs_step.
  destruct (dfs_stack st) as [|x stack] eqn:Hst.
  - intros [= <-]. split; [|apply Hinv]. intros _ k Hk.
    assert (∀ k v, reach w start k v → v ∈ dfs_visited st) as Hall.
    { clear k Hk. induction 1 as [|k u v _ IH Hv].
      - destruct (di_start _ _ _ _ _ Hinv) as [_ [?|?]]; [done|congruence].
      - destruct (Hcl u v IH Hv) as [?|Hin]; [done|].
        rewrite Hst in Hin. set_solver. }
    by destruct (di_visited _ _ _ _ _ Hinv goal (Hall _ _ Hk)).
  - case_decide as Hx; [done|]. case_decide as Hg; [|done].
    intros [= <-]. subst x. split; simpl.
    + split; [done|]. apply (dfs_chain_top w start goal rank st); [done|].
      rewrite Hst. set_solver.
    + destruct (di_counts _ _ _ _ _ Hinv) as [-> ->].
      rewrite pops_app, pushes_app, !length_app. simpl. lia.
Qed.

Lemma dfs_loop_total :
  ∃ r, stack_exit_ok w start goal true r ∧
    ∀ fuel, (dfs_measure w start (dfs_init start) < fuel)%nat →
      while_loop (dfs_step w goal) fuel (dfs_init start) = Some r.
Proof.
  apply (while_loop_total (dfs_step w goal) dfs_full (dfs_measure w start)).
  - apply dfs_step_inv.
  - apply dfs_step_exit.
  - split; [eexists; apply dfs_inv_init|]. intros u v Hu. simpl in Hu. set_solver.
Qed.

(** Depth-limited search keeps the same invariant once the depth
    counters are forgotten. *)
Lemma dls_step_inv depth_limit st st' :
  (∃ rank, dfs_inv w start goal rank (dls_erase st)) →
  dls_step w goal depth_limit st = inl st' →
  (∃ rank, dfs_inv w start goal rank (dls_erase st')) ∧
  (dfs_measure w start (dls_erase st') < dfs_measure w start (dls_erase st))%nat.
Proof.
  intros [rank Hinv]. unfold dls_step.
  destruct st as [stack V cf nv ne tr]. unfold dls_erase in *. simpl in *.
  destruct stack as [|[x depth] stack]; [done|]. csimpl in *.
  case_decide as Hx.
  - intros [= <-]. simpl. split.
    + exists rank. by apply dfs_inv_skip.
    + unfold dfs_measure. simpl. lia.
  - case_decide as Hg; [done|].
    assert (x ∈ {[start]} ∪ all_cells w) as HxU
      by (apply (di_univ _ _ _ _ _ Hinv); simpl; set_solver).
    case_decide as Hd.
    + intros [= <-]. simpl. split.
      * destruct (dfs_inv_accept w start goal rank x _ V cf nv ne tr [] Hinv Hx Hg)
          as [rank' H']; [set_solver|].
        exists rank'. simpl in H'. by rewrite app_nil_r in H'.
      * apply (dfs_measure_accept x _ V cf nv ne tr _ _ _ _ []); simpl; [done..|lia].
    + intros [= <-]. rewrite dls_fold. simpl.
      rewrite fmap_app, fmap_rev, fst_tag_fmap.
      set (new := filter (λ n, n ∉ ({[x]} ∪ V : gset pos)) (rev (get_neighbors w x))).
      split.
      * apply (dfs_inv_accept w start goal rank); try done.
        intros n Hn. unfold new in Hn.
        rewrite list_elem_of_filter, elem_of_rev in Hn. tauto.
      * apply dfs_measure_accept; [done..|].
        unfold new. etrans; [apply length_filter|].
        rewrite length_rev. apply get_neighbors_length.
Qed.

Lemma dls_step_exit depth_limit st r :
  (∃ rank, dfs_inv w start goal rank (dls_erase st)) →
  dls_step w goal depth_limit st = inr r →
  stack_exit_ok w start goal false (erase_exit r).
Proof.
  intros [rank Hinv]. unfold dls_step.
  destruct st as [stack V cf nv ne tr]. unfold dls_erase in *. simpl in *.
  destruct stack as [|[x depth] stack].
  - intros [= <-]. split; [done|apply Hinv].
  - case_decide as Hx; [done|]. case_decide as Hg; [|by case_decide].
    intros [= <-]. subst x. split; simpl.
    + split; [done|].
      apply (dfs_chain_top w start goal rank _ goal Hinv). simpl. set_solver.
    + destruct (di_counts _ _ _ _ _ Hinv) as [Hv He]. simpl in *. rewrite Hv, He.
      rewrite pops_app, pushes_app, !length_app. simpl. lia.
Qed.

Lemma dls_loop_total depth_limit :
  ∃ r, stack_exit_ok w start goal false (erase_exit r) ∧
    ∀ fuel, (dfs_measure w start (dfs_init start) < fuel)%nat →
      while_loop (dls_step w goal depth_limit) fuel (dls_init start) = Some r.
Proof.
  change (dfs_init start) with (dls_erase (dls_init start)).
  apply (while_loop_total (dls_step w goal depth_limit)
           (λ st, ∃ rank, dfs_inv w start goal rank (dls_erase st))
           (λ st, dfs_measure w start (dls_erase st))
           (λ r, stack_exit_ok w start goal false (erase_exit r))).
  - apply dls_step_inv.
  - apply dls_step_exit.
  - eexists. apply dfs_inv_init.
Qed.
End dfs_loop.

Definition stack_result_ok (w : Warehouse) (start goal : pos) (r : run_result)
  : Prop :=
  nodes_visited r = length (pops (trace r)) ∧
  nodes_explored r = length (pushes (trace r)) ∧
  match result r with
  | PathFound p => head p = Some start ∧ last p = Some goal ∧ moves w p
  | NoPathFound => False
  | NoPathWithinLimit => True
  end.

Lemma run_dfs_spec w start goal :
  ∃ r, returns (run_dfs w start goal) r ∧ result_ok w start goal false r.
Proof.
  destruct (dfs_loop_total w start goal) as (r & [Hr (Hnv & Hne)] & Hrun).
  destruct r as [st current|st]; simpl in *.
  - destruct Hr as (-> & p & Hc & Hh & Hm).
    exists (MkResult (PathFound p) (dfs_nodes_visited st) (dfs_nodes_explored st)
                     (dfs_trace st)).
    split.
    + exists (S (dfs_measure w start (dfs_init start)) + length p)%nat.
      intros fuel Hf. unfold run_dfs. rewrite Hrun by lia.
      by rewrite (reconstruct_path_chain _ _ _ Hc) by lia.
    + repeat split; simpl; try done. by eapply chain_last.
  - exists (MkResult NoPathFound (dfs_nodes_visited st) (dfs_nodes_explored st)
                     (dfs_trace st)).
    split.
    + exists (S (dfs_measure w start (dfs_init start))).
      intros fuel Hf. unfold run_dfs. by rewrite Hrun by lia.
    + repeat split; simpl; try done. by apply Hr.
Qed.

Lemma run_dls_spec w start goal depth_limit :
  ∃ r, returns (run_dls w start goal depth_limit) r ∧
       stack_result_ok w start goal r.
Proof.
  destruct (dls_loop_total w start goal depth_limit)
    as (r & [Hr (Hnv & Hne)] & Hrun).
  destruct r as [st current|st]; simpl in *.
  - destruct Hr as (-> & p & Hc & Hh & Hm).
    exists (MkResult (PathFound p) (dls_nodes_visited st) (dls_nodes_explored st)
                     (dls_trace st)).
    split.
    + exists (S (dfs_measure w start (dfs_init start)) + length p)%nat.
      intros fuel Hf. unfold run_dls. rewrite Hrun by lia.
      by rewrite (reconstruct_path_chain _ _ _ Hc) by lia.
    + repeat split; simpl; try done. by eapply chain_last.
  - exists (MkResult NoPathWithinLimit (dls_nodes_visited st)
                     (dls_nodes_explored st) (dls_trace st)).
    split.
    + exists (S (dfs_measure w start (dfs_init start))).
      intros fuel Hf. unfold run_dls. by rewrite Hrun by lia.
    + repeat split; simpl; done.
Qed.

Lemma moves_reach w start goal p :
  moves w p → head p = Some start → last p = Some goal →
  reach w start (length p - 1) goal.
Proof.
  revert goal. induction p as [|x p IH] using rev_ind; intros goal Hm Hh Hl; [done|].
  rewrite last_snoc in Hl. injection Hl as ->.
  rewrite length_app. simpl. replace (length p + 1 - 1)%nat with (length p) by lia.
  destruct p as [|y p _] using rev_ind.
  - simpl in Hh. injection Hh as ->. constructor.
  - unfold moves in Hm. rewrite <- app_assoc in Hm. simpl in Hm.
    apply chained_app_inv in Hm as [Hm Hxy].
    rewrite length_app. simpl.
    replace (length p + 1)%nat with (S (length (p ++ [y]) - 1))
      by (rewrite length_app; simpl; lia).
    apply reach_move with y; [|done].
    apply IH; [done| |by rewrite last_snoc]. destruct p; simpl in *; done.
Qed.

(** C8. On a well-formed grid with a path from [start] to [goal], both
    [run_bfs] and [run_dfs] find a path, and the breadth-first path has at
    most as many cells as the depth-first path. *)
Theorem run_bfs_le_run_dfs w start goal :
  wf_grid w →
  (∃ p, grid_path w start goal p) →
  ∃ rb rd pb pd,
    returns (run_bfs w start goal) rb ∧ result rb = PathFound pb ∧
    returns (run_dfs w start goal) rd ∧ result rd = PathFound pd ∧
    (length pb ≤ length pd)%nat.
Proof.
  intros _ [p0 Hp0]. pose proof (grid_path_reach _ _ _ _ Hp0) as Hreach.
  destruct (run_bfs_spec w start goal) as (rb & Hrb & (_ & _ & Hb) & _).
  destruct (run_dfs_spec w start goal) as (rd & Hrd & (_ & _ & Hd)).
  destruct (result rb) as [pb| |] eqn:Hresb; [|by destruct (Hb _ Hreach)|done].
  destruct (result rd) as [pd| |] eqn:Hresd; [|by destruct (Hd _ Hreach)|done].
  exists rb, rd, pb, pd. repeat split; try done.
  destruct Hb as (_ & _ & _ & Hmin), Hd as (Hh & Hl & Hm & _).
  specialize (Hmin eq_refl _ (moves_reach _ _ _ _ Hm Hh Hl)).
  destruct pd; simpl in *; [done|lia].
Qed.

(** ** The priority queue *)

Lemma entry_lt_spec (a b : entry) :
  entry_lt a b = true ↔
    a.1 < b.1 ∨ (a.1 = b.1 ∧ (a.2.1 < b.2.1 ∨ (a.2.1 = b.2.1 ∧ a.2.2 < b.2.2))).
Proof.
  unfold entry_lt.
  rewrite !orb_true_iff, !andb_true_iff, !orb_true_iff, !andb_true_iff,
    !Z.ltb_lt, !Z.eqb_eq. tauto.
Qed.

(** [a <= b] in tuple order, i.e. not [b < a]. *)
Definition entry_le (a b : entry) : Prop := entry_lt b a = false.

Lemma entry_le_spec (a b : entry) :
  entry_le a b ↔
    a.1 < b.1 ∨ (a.1 = b.1 ∧ (a.2.1 < b.2.1 ∨ (a.2.1 = b.2.1 ∧ a.2.2 ≤ b.2.2))).
Proof.
  unfold entry_le. rewrite <- not_true_iff_false, entry_lt_spec. lia.
Qed.

Lemma entry_le_refl a : entry_le a a.
Proof. apply entry_le_spec. lia. Qed.

Lemma entry_le_trans a b c : entry_le a b → entry_le b c → entry_le a c.
Proof. rewrite !entry_le_spec. lia. Qed.

Lemma entry_le_priority a b : entry_le a b → a.1 ≤ b.1.
Proof. rewrite entry_le_spec. lia. Qed.

Lemma heap_min_spec m heap :
  heap_min m heap ∈ m :: heap ∧
  ∀ e, e ∈ m :: heap → entry_le (heap_min m heap) e.
Proof.
  revert m. induction heap as [|x heap IH]; intros m; simpl.
  - split; [set_solver|]. intros e He.
    apply list_elem_of_singleton in He as ->. apply entry_le_refl.
  - destruct (IH (if entry_lt x m then x else m)) as [Hin Hle].
    split; [destruct (entry_lt x m); set_solver|].
    intros e He.
    assert (entry_le (heap_min (if entry_lt x m then x else m) heap)
                     (if entry_lt x m then x else m)) as H0
      by (apply Hle; set_solver).
    destruct (entry_lt x m) eqn:Hxm.
    + apply elem_of_cons in He as [->|He].
      * eapply entry_le_trans; [done|].
        apply entry_le_spec. apply entry_lt_spec in Hxm. lia.
      * apply Hle. set_solver.
    + apply elem_of_cons in He as [->|He]; [done|].
      apply elem_of_cons in He as [->|He]; [|apply Hle; set_solver].
      eapply entry_le_trans; [done|]. done.
Qed.

Lemma elem_of_remove_first m heap e :
  e ∈ remove_first m heap → e ∈ heap.
Proof.
  induction heap as [|x heap IH]; simpl; [done|].
  case_decide; set_solver.
Qed.

Lemma remove_first_keeps m heap e :
  e ∈ heap → e ≠ m → e ∈ remove_first m heap.
Proof.
  induction heap as [|x heap IH]; simpl; [done|].
  case_decide; set_solver.
Qed.

Lemma remove_first_length m heap :
  m ∈ heap → S (length (remove_first m heap)) = length heap.
Proof.
  induction heap as [|x heap IH]; simpl; [set_solver|].
  case_decide; [done|]. intros Hin. simpl. rewrite IH; [done|set_solver].
Qed.

Lemma remove_first_NoDup m heap :
  NoDup heap.*2 → m ∈ heap →
  NoDup (remove_first m heap).*2 ∧ m.2 ∉ (remove_first m heap).*2.
Proof.
  induction heap as [|x heap IH]; csimpl; [set_solver|].
  intros Hnd Hin. apply NoDup_cons in Hnd as [Hx Hnd].
  case_decide as Hxm.
  - subst x. done.
  - apply elem_of_cons in Hin as [->|Hin]; [done|].
    destruct (IH Hnd Hin) as [Hnd' Hm]. csimpl. split.
    + apply NoDup_cons. split; [|done]. intros Hx'. apply Hx.
      apply list_elem_of_fmap in Hx' as (e & -> & He).
      apply list_elem_of_fmap. exists e. split; [done|].
      by eapply elem_of_remove_first.
    + apply not_elem_of_cons. split; [|done]. intros Heq. apply Hx.
      rewrite <- Heq. apply list_elem_of_fmap. by exists m.
Qed.

Lemma heappop_Some heap m heap' :
  heappop heap = Some (m, heap') →
  m ∈ heap ∧ (∀ e, e ∈ heap → entry_le m e) ∧ heap' = remove_first m heap.
Proof.
  destruct heap as [|x heap]; [done|]. unfold heappop.
  intros [= <- <-]. destruct (heap_min_spec x heap) as [? ?]. done.
Qed.

Lemma heappop_None heap : heappop heap = None → heap = [].
Proof. by destruct heap. Qed.

(** ** Uniform-cost search: invariant *)

Section ucs.
Context (w : Warehouse) (start goal : pos).

(** [pend u v] marks the neighbours [v] of the cell [u] under expansion
    that the inner loop has not handled yet. *)
Record ucs_inv (pend : pos → pos → Prop) (st : ucs_state) : Prop := {
  ui_start : ucs_g_score st !! start = Some 0 ∧
             ucs_came_from st !! start = None;
  ui_nonneg : ∀ v gv, ucs_g_score st !! v = Some gv → 0 ≤ gv;
  ui_opt : ∀ v, v ∈ ucs_visited_cells st →
    v ≠ goal ∧
    ∃ gv, ucs_g_score st !! v = Some gv ∧
          ∀ k, reach w start k v → gv ≤ Z.of_nat k;
  ui_closed : ∀ u x, u ∈ ucs_visited_cells st → x ∈ get_neighbors w u →
    pend u x ∨ x ∈ ucs_visited_cells st ∨
    ∃ gu gx, ucs_g_score st !! u = Some gu ∧ ucs_g_score st !! x = Some gx ∧
             gx ≤ gu + 1;
  ui_open : ∀ v gv, ucs_g_score st !! v = Some gv →
    v ∉ ucs_visited_cells st → (gv, v) ∈ ucs_open_set st;
  ui_heap : ∀ c v, (c, v) ∈ ucs_open_set st →
    ∃ gv, ucs_g_score st !! v = Some gv ∧ gv ≤ c;
  ui_edge : ∀ v u, ucs_came_from st !! v = Some u →
    u ∈ ucs_visited_cells st ∧ v ∈ get_neighbors w u ∧
    ∃ gu, ucs_g_score st !! u = Some gu ∧ ucs_g_score st !! v = Some (gu + 1);
  ui_dom : ∀ v gv, ucs_g_score st !! v = Some gv →
    v = start ∨ is_Some (ucs_came_from st !! v);
  ui_univ : ucs_visited_cells st ⊆ {[start]} ∪ all_cells w ∧
            ∀ c v, (c, v) ∈ ucs_open_set st → v ∈ {[start]} ∪ all_cells w;
  ui_counts : ucs_nodes_visited st = length (pops (ucs_trace st)) ∧
              ucs_nodes_explored st = length (pushes (ucs_trace st))
}.

Definition no_pend : pos → pos → Prop := λ _ _, False.

Definition ucs_measure (st : ucs_state) : nat :=
  (5 * size (({[start]} ∪ all_cells w) ∖ ucs_visited_cells st) +
   length (ucs_open_set st))%nat.

Lemma ucs_inv_init : ucs_inv no_pend (ucs_init start).
Proof.
  split; simpl.
  - split; [apply lookup_singleton_eq|apply lookup_empty].
  - intros v gv [<- <-]%lookup_singleton_Some. done.
  - set_solver.
  - set_solver.
  - intros v gv [<- <-]%lookup_singleton_Some _. set_solver.
  - intros c v [= -> ->]%list_elem_of_singleton. exists 0.
    split; [apply lookup_singleton_eq|lia].
  - intros v u H. by rewrite lookup_empty in H.
  - intros v gv [<- <-]%lookup_singleton_Some. by left.
  - split; [set_solver|].
    intros c v [= -> ->]%list_elem_of_singleton. set_solver.
  - done.
Qed.

Lemma ucs_inv_weaken pend pend' st :
  ucs_inv pend st →
  (∀ u x, u ∈ ucs_visited_cells st → x ∈ get_neighbors w u → pend u x →
     pend' u x ∨ x ∈ ucs_visited_cells st ∨
     ∃ gu gx, ucs_g_score st !! u = Some gu ∧ ucs_g_score st !! x = Some gx ∧
              gx ≤ gu + 1) →
  ucs_inv pend' st.
Proof.
  intros [] Hw. split; try done.
  intros u x Hu Hx. destruct (ui_closed0 u x Hu Hx) as [?|?]; [|by right].
  by apply Hw.
Qed.

(** Among the cells reached in [k] moves, one not yet visited has a
    recorded cost of at most [k], unless the cell itself is visited. *)
Lemma ucs_lower st :
  ucs_inv no_pend st → ∀ k v, reach w start k v →
  v ∈ ucs_visited_cells st ∨
  ∃ y gy, y ∉ ucs_visited_cells st ∧ ucs_g_score st !! y = Some gy ∧
          gy ≤ Z.of_nat k.
Proof.
  intros Hinv. induction 1 as [|k u v Hu IH Hv].
  - destruct (decide (start ∈ ucs_visited_cells st)); [by left|].
    right. exists start, 0. split; [done|]. split; [apply Hinv|done].
  - destruct IH as [HuV|(y & gy & ? & ? & ?)].
    + destruct (ui_closed _ _ Hinv u v HuV Hv) as [[]|[?|(gu & gv & Hgu & Hgv & Hle)]];
        [by left|].
      destruct (decide (v ∈ ucs_visited_cells st)); [by left|].
      right. exists v, gv. split; [done|]. split; [done|].
      destruct (ui_opt _ _ Hinv u HuV) as (_ & gu' & Hgu' & Hopt).
      specialize (Hopt _ Hu). simplify_eq. lia.
    + right. exists y, gy. split; [done|]. split; [done|lia].
Qed.

(** The cell popped and accepted carries its least cost. *)
Lemma ucs_pop_opt st c x open_set :
  ucs_inv no_pend st → heappop (ucs_open_set st) = Some ((c, x), open_set) →
  x ∉ ucs_visited_cells st →
  ∃ gx, ucs_g_score st !! x = Some gx ∧
        ∀ k, reach w start k x → gx ≤ Z.of_nat k.
Proof.
  intros Hinv Hpop Hx. apply heappop_Some in Hpop as (Hin & Hmin & _).
  destruct (ui_heap _ _ Hinv c x Hin) as (gx & Hgx & Hle).
  exists gx. split; [done|]. intros k Hk.
  destruct (ucs_lower st Hinv k x Hk) as [?|(y & gy & Hy & Hgy & ?)]; [done|].
  pose proof (ui_open _ _ Hinv y gy Hgy Hy) as Hyin.
  apply Hmin, entry_le_priority in Hyin. simpl in Hyin. lia.
Qed.

Lemma ucs_chain pend st :
  ucs_inv pend st → ∀ n v, ucs_g_score st !! v = Some (Z.of_nat n) →
  ∃ p, chain (ucs_came_from st) v p ∧ head p = Some start ∧ moves w p ∧
       length p = S n.
Proof.
  intros Hinv. induction n as [|n IH]; intros v Hg.
  - destruct (ucs_came_from st !! v) as [u|] eqn:Hcf.
    + destruct (ui_edge _ _ Hinv v u Hcf) as (_ & _ & gu & Hgu & Hgv).
      pose proof (ui_nonneg _ _ Hinv u gu Hgu). simplify_eq. lia.
    + destruct (ui_dom _ _ Hinv v _ Hg) as [->|[? ?]]; [|congruence].
      exists [start]. split; [by apply chain_root|done].
  - destruct (ucs_came_from st !! v) as [u|] eqn:Hcf.
    + destruct (ui_edge _ _ Hinv v u Hcf) as (_ & Hnb & gu & Hgu & Hgv).
      destruct (IH u) as (p & Hc & Hh & Hm & Hl).
      { rewrite Hgu. f_equal. simplify_eq. lia. }
      exists (p ++ [v]). split; [by apply chain_link with u|]. split; [|split].
      * destruct p; [by inv Hc|done].
      * apply chained_snoc with u; [done|by eapply chain_last|done].
      * rewrite length_app. simpl. lia.
    + destruct (ui_dom _ _ Hinv v _ Hg) as [->|[? ?]]; [|congruence].
      destruct (ui_start _ _ Hinv) as [? _]. simplify_eq.
Qed.
(** One relaxation: [neighbor] gets the cost [gx + 1] through [x]. *)
Lemma ucs_relax_inv x gx pre H V cf g nv ne tr n :
  ucs_inv (λ u v, u = x ∧ v ∉ pre) (MkUcs H V cf g nv ne tr) →
  x ∈ V → n ∉ V → n ∈ get_neighbors w x → g !! x = Some gx →
  (∀ gn, g !! n = Some gn → gx + 1 < gn) →
  ucs_inv (λ u v, u = x ∧ v ∉ pre ++ [n])
          (MkUcs (heappush H (gx + 1, n)) V (<[n := x]> cf)
                 (<[n := gx + 1]> g) nv (S ne) (tr ++ [Push n])).
Proof.
  intros [[Hgs Hcs] Hnn Hopt Hcl Hop Hhp Hed Hdm [HuV HuH] [Hcv Hce]]
         HxV HnV Hn Hgx Himp. simpl in *.
  assert (n ≠ start) as Hns.
  { intros ->. specialize (Himp 0 Hgs). specialize (Hnn x gx Hgx). lia. }
  assert (n ≠ x) as Hnx by (intros ->; done).
  pose proof (Hnn x gx Hgx) as Hgx0.
  split; simpl.
  - by rewrite !lookup_insert_ne by done.
  - intros v gv. destruct (decide (v = n)) as [->|Hvn].
    + rewrite lookup_insert_eq. intros [= <-]. lia.
    + rewrite lookup_insert_ne by done. apply Hnn.
  - intros v Hv. assert (v ≠ n) by (intros ->; done).
    rewrite lookup_insert_ne by done. by apply Hopt.
  - intros u v Hu Hv. assert (u ≠ n) by (intros ->; done).
    destruct (Hcl u v Hu Hv) as [[-> Hpre]|[?|(gu & gv & Hgu & Hgv & Hle)]].
    + destruct (decide (v = n)) as [->|Hvn].
      * right; right. exists gx, (gx + 1).
        rewrite lookup_insert_ne, lookup_insert_eq by done. split_and!; [done..|lia].
      * left. split; [done|]. set_solver.
    + by right; left.
    + right; right. destruct (decide (v = n)) as [->|Hvn].
      * exists gu, (gx + 1).
        rewrite lookup_insert_ne, lookup_insert_eq by done.
        specialize (Himp gv Hgv). split_and!; [done..|lia].
      * exists gu, gv. by rewrite !lookup_insert_ne by done.
  - intros v gv. unfold heappush. destruct (decide (v = n)) as [->|Hvn].
    + rewrite lookup_insert_eq. intros [= <-] _. set_solver.
    + rewrite lookup_insert_ne by done. intros Hg Hv.
      apply elem_of_app. left. by apply Hop.
  - intros c v Hin. unfold heappush in Hin.
    apply elem_of_app in Hin as [Hin|Hin%list_elem_of_singleton].
    + destruct (Hhp c v Hin) as (gv & Hgv & Hle).
      destruct (decide (v = n)) as [->|Hvn].
      * exists (gx + 1). rewrite lookup_insert_eq.
        specialize (Himp gv Hgv). split; [done|lia].
      * exists gv. by rewrite lookup_insert_ne by done.
    + injection Hin as -> ->. exists (gx + 1). rewrite lookup_insert_eq.
      split; [done|lia].
  - intros v u. destruct (decide (v = n)) as [->|Hvn].
    + rewrite lookup_insert_eq. intros [= <-]. split; [done|]. split; [done|].
      exists gx. by rewrite lookup_insert_ne, lookup_insert_eq by done.
    + rewrite lookup_insert_ne by done. intros Hcf.
      destruct (Hed v u Hcf) as (Hu & Hnb & gu & Hgu & Hgv).
      split; [done|]. split; [done|]. exists gu.
      assert (u ≠ n) by (intros ->; done). by rewrite !lookup_insert_ne by done.
  - intros v gv. destruct (decide (v = n)) as [->|Hvn].
    + rewrite !lookup_insert_eq. intros _. right. by eexists.
    + rewrite !lookup_insert_ne by done. apply Hdm.
  - split; [done|]. intros c v Hin. unfold heappush in Hin.
    apply elem_of_app in Hin as [Hin|Hin%list_elem_of_singleton]; [by eapply HuH|].
    injection Hin as -> ->. apply elem_of_union_r, elem_of_all_cells.
    by eapply get_neighbors_in_bounds.
  - rewrite pops_app, pushes_app, !length_app. simpl. lia.
Qed.

Lemma ucs_neighbor_inv x pre st n :
  ucs_inv (λ u v, u = x ∧ v ∉ pre) st → x ∈ ucs_visited_cells st →
  n ∈ get_neighbors w x →
  ucs_inv (λ u v, u = x ∧ v ∉ pre ++ [n]) (ucs_neighbor x st n) ∧
  ucs_visited_cells (ucs_neighbor x st n) = ucs_visited_cells st ∧
  (length (ucs_open_set (ucs_neighbor x st n)) ≤ S (length (ucs_open_set st)))%nat.
Proof.
  intros Hinv HxV Hn. destruct st as [H V cf g nv ne tr].
  unfold ucs_neighbor. simpl in *.
  destruct (ui_opt _ _ Hinv x HxV) as (_ & gx & Hgx & _). simpl in *.
  assert (∀ gn, n ∈ V ∨ (g !! n = Some gn ∧ gn ≤ gx + 1) →
            ucs_inv (λ u v, u = x ∧ v ∉ pre ++ [n]) (MkUcs H V cf g nv ne tr))
    as Hsame.
  { intros gn Hcase. eapply ucs_inv_weaken; [done|]. simpl.
    intros u v Hu Hv [-> Hpre]. destruct (decide (v = n)) as [->|Hvn].
    - right. destruct Hcase as [?|[? ?]]; [by left|right].
      exists gx, gn. done.
    - left. split; [done|]. set_solver. }
  case_decide as HnV.
  { split; [apply (Hsame 0); by left|]. split; [done|simpl; lia]. }
  rewrite Hgx. simpl. unfold improves.
  destruct (g !! n) as [gn|] eqn:Hgn; [case_bool_decide as Hlt|].
  - split; [|split; [done|unfold heappush; simpl; rewrite length_app; simpl; lia]].
    apply ucs_relax_inv; try done. intros gn' Hgn'. congruence.
  - split; [apply (Hsame gn); right; split; [done|lia]|]. split; [done|simpl; lia].
  - split; [|split; [done|unfold heappush; simpl; rewrite length_app; simpl; lia]].
    apply ucs_relax_inv; try done. intros gn' Hgn'. congruence.
Qed.

Lemma ucs_step_inv st st' :
  ucs_inv no_pend st → ucs_step w goal st = inl st' →
  ucs_inv no_pend st' ∧ (ucs_measure st' < ucs_measure st)%nat.
Proof.
  intros Hinv. unfold ucs_step.
  destruct (heappop (ucs_open_set st)) as [[[c x] open_set]|] eqn:Hpop; [|done].
  pose proof Hpop as Hpop'.
  apply heappop_Some in Hpop' as (Hin & Hmin & ->).
  pose proof (remove_first_length _ _ Hin) as Hlen.
  case_decide as HxV.
  - intros [= <-]. split; [|unfold ucs_measure; simpl; lia].
    destruct Hinv as [Hs Hnn Hopt Hcl Hop Hhp Hed Hdm [HuV HuH] [Hcv Hce]].
    split; simpl; try done.
    + intros v gv Hg Hv. apply remove_first_keeps; [by apply Hop|].
      intros [= -> ->]. done.
    + intros c' v Hin'. apply Hhp. by eapply elem_of_remove_first.
    + split; [done|]. intros c' v Hin'. eapply HuH. by eapply elem_of_remove_first.
    + rewrite pops_app, pushes_app, !length_app. simpl. lia.
  - case_decide as Hg; [done|]. intros [= <-].
    destruct (ucs_pop_opt st c x _ Hinv Hpop HxV) as (gx & Hgx & Hoptx).
    destruct st as [H V cf g nv ne tr]. simpl in *.
    set (st1 := MkUcs (remove_first (c, x) H) ({[x]} ∪ V) cf g (S nv) ne
                      (tr ++ [Pop x])).
    assert (ucs_inv (λ u v, u = x ∧ v ∉ []) st1) as Hinv1.
    { destruct Hinv as [Hs Hnn Hopt Hcl Hop Hhp Hed Hdm [HuV HuH] [Hcv Hce]].
      simpl in *. split; simpl; try done.
      - intros v [->%elem_of_singleton|Hv]%elem_of_union; [|by apply Hopt].
        split; [done|]. by exists gx.
      - intros u v [->%elem_of_singleton|Hu]%elem_of_union Hv.
        + left. split; [done|]. set_solver.
        + destruct (Hcl u v Hu Hv) as [[]|[?|?]]; [right; left; set_solver|].
          by right; right.
      - intros v gv Hgv Hv. apply remove_first_keeps; [apply Hop; set_solver|].
        intros [= -> ->]. set_solver.
      - intros c' v Hin'. apply Hhp. by eapply elem_of_remove_first.
      - intros v u Hcf. destruct (Hed v u Hcf) as (? & ? & ?).
        split; [set_solver|done].
      - split.
        + assert (x ∈ {[start]} ∪ all_cells w) by (by eapply HuH). set_solver.
        + intros c' v Hin'. eapply HuH. by eapply elem_of_remove_first.
      - rewrite pops_app, pushes_app, !length_app. simpl. lia. }
    pose proof (fold_left_inv (ucs_neighbor x)
      (λ pre st', ucs_inv (λ u v, u = x ∧ v ∉ pre) st' ∧
                  ucs_visited_cells st' = {[x]} ∪ V ∧
                  (length (ucs_open_set st') ≤
                     length (remove_first (c, x) H) + length pre)%nat)
      (get_neighbors w x) st1) as Hfold.
    destruct Hfold as (Hinv' & HV' & Hlen').
    { split; [done|]. split; [done|]. simpl. lia. }
    { intros pre n st' (Hi & HV & Hl) Hn.
      destruct (ucs_neighbor_inv x pre st' n Hi) as (Hi' & HV' & Hl');
        [rewrite HV; set_solver|done|].
      split; [done|]. split; [congruence|]. rewrite length_app. simpl. lia. }
    split.
    + eapply ucs_inv_weaken; [done|]. intros u v Hu Hv [-> Hpre]. done.
    + unfold ucs_measure. rewrite HV'. simpl.
      assert (x ∈ {[start]} ∪ all_cells w) as HxU
        by (by eapply (ui_univ _ _ Hinv)).
      rewrite <- (size_diff_add _ V x HxU HxV).
      pose proof (get_neighbors_length w x). lia.
Qed.

Definition ucs_post (r : loop_exit ucs_state) : Prop :=
  match r with
  | Reached st current =>
      current = goal ∧
      ∃ p, chain (ucs_came_from st) goal p ∧ head p = Some start ∧
           moves w p ∧ ∀ k, reach w start k goal → (length p ≤ S k)%nat
  | Exhausted st => ∀ k, ¬ reach w start k goal
  end ∧
  let st := match r with Reached st _ | Exhausted st => st end in
  ucs_nodes_visited st = length (pops (ucs_trace st)) ∧
  ucs_nodes_explored st = length (pushes (ucs_trace st)).

Lemma ucs_step_exit st r :
  ucs_inv no_pend st → ucs_step w goal st = inr r → ucs_post r.
Proof.
  intros Hinv. unfold ucs_step.
  destruct (heappop (ucs_open_set st)) as [[[c x] open_set]|] eqn:Hpop.
  - case_decide as HxV; [done|]. case_decide as Hg; [|done].
    intros [= <-]. subst x. split; simpl.
    + split; [done|].
      destruct (ucs_pop_opt st c goal _ Hinv Hpop HxV) as (gx & Hgx & Hoptx).
      pose proof (ui_nonneg _ _ Hinv _ _ Hgx) as H0.
      destruct (ucs_chain _ _ Hinv (Z.to_nat gx) goal) as (p & Hc & Hh & Hm & Hl).
      { rewrite Hgx. f_equal. lia. }
      exists p. split_and!; try done. intros k Hk. specialize (Hoptx k Hk). lia.
    + destruct (ui_counts _ _ Hinv) as [-> ->].
      rewrite pops_app, pushes_app, !length_app. simpl. lia.
  - intros [= <-]. apply heappop_None in Hpop. split; [|apply Hinv].
    intros k Hk.
    destruct (ucs_lower st Hinv k goal Hk) as [Hv|(y & gy & Hy & Hgy & _)].
    + by destruct (ui_opt _ _ Hinv goal Hv).
    + pose proof (ui_open _ _ Hinv y gy Hgy Hy) as Hin. rewrite Hpop in Hin.
      set_solver.
Qed.

Lemma ucs_loop_total :
  ∃ r, ucs_post r ∧
    ∀ fuel, (ucs_measure (ucs_init start) < fuel)%nat →
      while_loop (ucs_step w goal) fuel (ucs_init start) = Some r.
Proof.
  apply (while_loop_total (ucs_step w goal) (ucs_inv no_pend) ucs_measure ucs_post).
  - apply ucs_step_inv.
  - apply ucs_step_exit.
  - apply ucs_inv_init.
Qed.
End ucs.

Lemma run_ucs_spec w start goal :
  ∃ r, returns (run_ucs w start goal) r ∧ result_ok w start goal true r.
Proof.
  destruct (ucs_loop_total w start goal) as (r & [Hr (Hnv & Hne)] & Hrun).
  destruct r as [st current|st]; simpl in *.
  - destruct Hr as (-> & p & Hc & Hh & Hm & Hmin).
    exists (MkResult (PathFound p) (ucs_nodes_visited st) (ucs_nodes_explored st)
                     (ucs_trace st)).
    split.
    + exists (S (ucs_measure w start (ucs_init start)) + length p)%nat.
      intros fuel Hf. unfold run_ucs. rewrite Hrun by lia.
      by rewrite (reconstruct_path_chain _ _ _ Hc) by lia.
    + repeat split; simpl; try done. by eapply chain_last.
  - exists (MkResult NoPathFound (ucs_nodes_visited st) (ucs_nodes_explored st)
                     (ucs_trace st)).
    split.
    + exists (S (ucs_measure w start (ucs_init start))).
      intros fuel Hf. unfold run_ucs. by rewrite Hrun by lia.
    + repeat split; simpl; done.
Qed.

(** ** A*: invariant *)

Section astar.
Context (w : Warehouse) (start goal : pos).

Record astar_inv (st : astar_state) : Prop := {
  ai_nodup : NoDup (astar_open_set st).*2;
  ai_disj : ∀ v, v ∈ (astar_open_set st).*2 → v ∉ astar_closed_set st;
  ai_g : ∀ v, v ∈ (astar_open_set st).*2 → is_Some (astar_g_score st !! v);
  ai_start : astar_g_score st !! start = Some 0 ∧
             astar_came_from st !! start = None;
  ai_nonneg : ∀ v gv, astar_g_score st !! v = Some gv → 0 ≤ gv;
  ai_edge : ∀ v u, astar_came_from st !! v = Some u →
    u ∈ astar_closed_set st ∧ v ∈ get_neighbors w u ∧
    ∃ gu, astar_g_score st !! u = Some gu ∧
          astar_g_score st !! v = Some (gu + 1);
  ai_dom : ∀ v gv, astar_g_score st !! v = Some gv →
    v = start ∨ is_Some (astar_came_from st !! v);
  ai_univ : astar_closed_set st ⊆ {[start]} ∪ all_cells w ∧
            ∀ v, v ∈ (astar_open_set st).*2 → v ∈ {[start]} ∪ all_cells w;
  ai_counts : astar_nodes_visited st = length (pops (astar_trace st)) ∧
              S (astar_nodes_explored st) = length (pushes (astar_trace st))
}.

(** Inside the inner loop: [x] is the cell under expansion. *)
Definition astar_mid (x : pos) (gx : Z) (st : astar_state) : Prop :=
  astar_inv st ∧ x ∈ astar_closed_set st ∧ astar_g_score st !! x = Some gx.

Definition astar_measure (st : astar_state) : nat :=
  size (({[start]} ∪ all_cells w) ∖ astar_closed_set st).

Lemma astar_inv_init : astar_inv (astar_init start goal).
Proof.
  split; simpl.
  - apply NoDup_singleton.
  - set_solver.
  - intros v ->%list_elem_of_singleton. rewrite lookup_singleton_eq. by eexists.
  - split; [apply lookup_singleton_eq|apply lookup_empty].
  - intros v gv [<- <-]%lookup_singleton_Some. done.
  - intros v u H. by rewrite lookup_empty in H.
  - intros v gv [<- <-]%lookup_singleton_Some. by left.
  - split; [set_solver|]. intros v ->%list_elem_of_singleton. set_solver.
  - done.
Qed.

Lemma astar_chain st :
  astar_inv st → ∀ n v, astar_g_score st !! v = Some (Z.of_nat n) →
  ∃ p, chain (astar_came_from st) v p ∧ head p = Some start ∧ moves w p ∧
       length p = S n.
Proof.
  intros Hinv. induction n as [|n IH]; intros v Hg.
  - destruct (astar_came_from st !! v) as [u|] eqn:Hcf.
    + destruct (ai_edge _ Hinv v u Hcf) as (_ & _ & gu & Hgu & Hgv).
      pose proof (ai_nonneg _ Hinv u gu Hgu). simplify_eq. lia.
    + destruct (ai_dom _ Hinv v _ Hg) as [->|[? ?]]; [|congruence].
      exists [start]. split; [by apply chain_root|done].
  - destruct (astar_came_from st !! v) as [u|] eqn:Hcf.
    + destruct (ai_edge _ Hinv v u Hcf) as (_ & Hnb & gu & Hgu & Hgv).
      destruct (IH u) as (p & Hc & Hh & Hm & Hl).
      { rewrite Hgu. f_equal. simplify_eq. lia. }
      exists (p ++ [v]). split; [by apply chain_link with u|]. split; [|split].
      * destruct p; [by inv Hc|done].
      * apply chained_snoc with u; [done|by eapply chain_last|done].
      * rewrite length_app. simpl. lia.
    + destruct (ai_dom _ Hinv v _ Hg) as [->|[? ?]]; [|congruence].
      destruct (ai_start _ Hinv) as [? _]. simplify_eq.
Qed.

(** The three ways the body of the inner loop can go. *)
Lemma astar_neighbor_cases x gx st n :
  astar_g_score st !! x = Some gx →
  let st' := astar_neighbor goal x st n in
  st' = st ∧
    (n ∈ astar_closed_set st ∨
     ∃ gn, astar_g_score st !! n = Some gn ∧ gn ≤ gx + 1) ∨
  (n ∉ astar_closed_set st ∧
   (∀ gn, astar_g_score st !! n = Some gn → gx + 1 < gn) ∧
   let f := gx + 1 + heuristic n goal in
   (n ∈ (astar_open_set st).*2 ∧
    st' = MkAstar (astar_open_set st) (astar_closed_set st)
            (<[n := x]> (astar_came_from st)) (<[n := gx + 1]> (astar_g_score st))
            (<[n := f]> (astar_f_score st))
            (astar_nodes_visited st) (astar_nodes_explored st) (astar_trace st) ∨
    n ∉ (astar_open_set st).*2 ∧
    st' = MkAstar (heappush (astar_open_set st) (f, n)) (astar_closed_set st)
            (<[n := x]> (astar_came_from st)) (<[n := gx + 1]> (astar_g_score st))
            (<[n := f]> (astar_f_score st))
            (astar_nodes_visited st) (S (astar_nodes_explored st))
            (astar_trace st ++ [Push n]))).
Proof.
  intros Hgx. unfold astar_neighbor. rewrite Hgx. simpl.
  case_decide as Hc; [left; split; [done|by left]|].
  unfold improves. destruct (astar_g_score st !! n) as [gn|] eqn:Hgn.
  - case_bool_decide as Hlt.
    + right. split; [done|]. split; [intros ? [= <-]; done|].
      case_decide; [left|right]; done.
    + left. split; [done|]. right. exists gn. split; [done|lia].
  - right. split; [done|]. split; [done|].
    case_decide; [left|right]; done.
Qed.

Lemma astar_neighbor_inv x gx st n :
  astar_mid x gx st → n ∈ get_neighbors w x →
  astar_mid x gx (astar_neighbor goal x st n) ∧
  astar_closed_set (astar_neighbor goal x st n) = astar_closed_set st.
Proof.
  intros (Hinv & Hx & Hgx) Hn.
  destruct (astar_neighbor_cases x gx st n Hgx)
    as [[-> _]|(Hnc & Himp & [[Hno ->]|[Hno ->]])]; [done| |].
  all: destruct st as [open closed cf g f nv ne tr]; simpl in *.
  all: destruct Hinv as [Hnd Hdj Hg [Hgs Hcs] Hnn Hed Hdm [HuC HuO] [Hcv Hce]];
    simpl in *.
  all: assert (n ≠ start) as Hns
    by (intros ->; specialize (Himp 0 Hgs); specialize (Hnn x gx Hgx); lia).
  all: assert (n ≠ x) as Hnx by (intros ->; done).
  all: pose proof (Hnn x gx Hgx) as Hgx0.
  all: split; [|done]; split; [|split; [done|simpl; by rewrite lookup_insert_ne]].
  all: split; simpl; try done.
  all: try (by rewrite !lookup_insert_ne by done).
  all: try (intros v gv; destruct (decide (v = n)) as [->|Hvn];
            [rewrite ?lookup_insert_eq|rewrite ?lookup_insert_ne by done];
            [|by (apply Hnn || apply Hdm)]).
  all: try (intros [= <-]; lia).
  all: try (intros _; right; by eexists).
  all: try (intros v u; destruct (decide (v = n)) as [->|Hvn];
            [rewrite lookup_insert_eq; intros [= <-]; split; [done|]; split; [done|];
             exists gx; by rewrite lookup_insert_ne, lookup_insert_eq by done
            |rewrite lookup_insert_ne by done; intros Hcf;
             destruct (Hed v u Hcf) as (Hu & Hnb & gu & Hgu & Hgv);
             split; [done|]; split; [done|]; exists gu;
             assert (u ≠ n) by (intros ->; done);
             by rewrite !lookup_insert_ne by done]).
  - intros v Hv. destruct (decide (v = n)) as [->|Hvn];
      [rewrite lookup_insert_eq; by eexists|].
    rewrite lookup_insert_ne by done. by apply Hg.
  - unfold heappush. rewrite fmap_app. simpl. apply NoDup_app.
    split; [done|]. split; [|apply NoDup_singleton].
    intros v Hv ->%list_elem_of_singleton. done.
  - unfold heappush. rewrite fmap_app. simpl. intros v Hv.
    apply elem_of_app in Hv as [Hv| ->%list_elem_of_singleton]; [by apply Hdj|done].
  - unfold heappush. rewrite fmap_app. simpl. intros v Hv.
    destruct (decide (v = n)) as [->|Hvn]; [rewrite lookup_insert_eq; by eexists|].
    rewrite lookup_insert_ne by done. apply Hg.
    apply elem_of_app in Hv as [Hv|?%list_elem_of_singleton]; done.
  - split; [done|]. unfold heappush. rewrite fmap_app. simpl. intros v Hv.
    apply elem_of_app in Hv as [Hv| ->%list_elem_of_singleton]; [by apply HuO|].
    apply elem_of_union_r, elem_of_all_cells. by eapply get_neighbors_in_bounds.
  - rewrite pops_app, pushes_app, !length_app. simpl. lia.
Qed.
Lemma astar_pop_inv st k x open_set :
  astar_inv st → heappop (astar_open_set st) = Some ((k, x), open_set) →
  x ∉ astar_closed_set st ∧ x ∈ {[start]} ∪ all_cells w ∧
  ∃ gx, astar_g_score st !! x = Some gx ∧
    astar_mid x gx
      (MkAstar open_set ({[x]} ∪ astar_closed_set st) (astar_came_from st)
               (astar_g_score st) (astar_f_score st)
               (S (astar_nodes_visited st)) (astar_nodes_explored st)
               (astar_trace st ++ [Pop x])).
Proof.
  intros Hinv Hpop. apply heappop_Some in Hpop as (Hin & _ & ->).
  destruct st as [open closed cf g f nv ne tr]; simpl in *.
  destruct Hinv as [Hnd Hdj Hg [Hgs Hcs] Hnn Hed Hdm [HuC HuO] [Hcv Hce]];
    simpl in *.
  assert (x ∈ open.*2) as Hx by (apply list_elem_of_fmap; by exists (k, x)).
  destruct (remove_first_NoDup _ _ Hnd Hin) as [Hnd' Hx'].
  assert (∀ v, v ∈ (remove_first (k, x) open).*2 → v ∈ open.*2) as Hsub.
  { intros v (e & -> & He)%list_elem_of_fmap. apply list_elem_of_fmap.
    exists e. split; [done|]. by eapply elem_of_remove_first. }
  split; [by apply Hdj|]. split; [by apply HuO|].
  destruct (Hg x Hx) as [gx Hgx]. exists gx. split; [done|].
  split; [|split; [set_solver|done]].
  split; simpl; try done.
  - intros v Hv [->%elem_of_singleton|Hc]%elem_of_union; [done|].
    by apply (Hdj v); [apply Hsub|].
  - intros v Hv. by apply Hg, Hsub.
  - intros v u Hcf. destruct (Hed v u Hcf) as (? & ? & ?). split; [set_solver|done].
  - split; [|by intros v Hv; apply HuO, Hsub].
    specialize (HuO x Hx). set_solver.
  - rewrite pops_app, pushes_app, !length_app. simpl. lia.
Qed.

Lemma astar_fold_inv x gx st ns :
  astar_mid x gx st → (∀ n, n ∈ ns → n ∈ get_neighbors w x) →
  astar_mid x gx (fold_left (astar_neighbor goal x) ns st) ∧
  astar_closed_set (fold_left (astar_neighbor goal x) ns st) = astar_closed_set st.
Proof.
  revert st. induction ns as [|n ns IH]; intros st Hmid Hns; [done|]. simpl.
  destruct (astar_neighbor_inv x gx st n Hmid) as [Hmid' Hc]; [apply Hns; left|].
  destruct (IH _ Hmid') as [? ?]; [intros m Hm; apply Hns; by right|].
  split; [done|congruence].
Qed.

Lemma astar_step_inv st st' :
  astar_inv st → astar_step w goal st = inl st' →
  astar_inv st' ∧ (astar_measure st' < astar_measure st)%nat.
Proof.
  intros Hinv. unfold astar_step.
  destruct (heappop (astar_open_set st)) as [[[k x] open_set]|] eqn:Hpop; [|done].
  case_decide as Hg; [done|]. intros [= <-].
  destruct (astar_pop_inv st k x _ Hinv Hpop) as (Hx & HxU & gx & Hgx & Hmid).
  destruct (astar_fold_inv x gx _ (get_neighbors w x) Hmid) as [[Hinv' _] Hc];
    [done|].
  split; [done|]. unfold astar_measure. rewrite Hc. simpl.
  rewrite <- (size_diff_add _ _ x HxU Hx). lia.
Qed.

Definition astar_post (r : loop_exit astar_state) : Prop :=
  match r with
  | Reached st current =>
      current = goal ∧
      (∃ p, chain (astar_came_from st) goal p ∧ head p = Some start ∧ moves w p) ∧
      S (astar_nodes_visited st) = length (pops (astar_trace st)) ∧
      S (astar_nodes_explored st) = length (pushes (astar_trace st))
  | Exhausted st =>
      astar_nodes_visited st = length (pops (astar_trace st)) ∧
      S (astar_nodes_explored st) = length (pushes (astar_trace st))
  end.

Lemma astar_step_exit st r :
  astar_inv st → astar_step w goal st = inr r → astar_post r.
Proof.
  intros Hinv. unfold astar_step.
  destruct (heappop (astar_open_set st)) as [[[k x] open_set]|] eqn:Hpop.
  - case_decide as Hg; [|done]. intros [= <-]. subst x. simpl.
    split; [done|]. split.
    + destruct (astar_pop_inv st k goal _ Hinv Hpop) as (_ & _ & gx & Hgx & _).
      pose proof (ai_nonneg _ Hinv _ _ Hgx).
      destruct (astar_chain st Hinv (Z.to_nat gx) goal) as (p & ? & ? & ? & _).
      { rewrite Hgx. f_equal. lia. }
      by exists p.
    + destruct (ai_counts _ Hinv) as [Hnv Hne].
      rewrite pops_app, pushes_app, !length_app. simpl. lia.
  - intros [= <-]. apply Hinv.
Qed.

Lemma astar_loop_total :
  ∃ r, astar_post r ∧
    ∀ fuel, (astar_measure (astar_init start goal) < fuel)%nat →
      while_loop (astar_step w goal) fuel (astar_init start goal) = Some r.
Proof.
  apply (while_loop_total (astar_step w goal) astar_inv astar_measure astar_post).
  - apply astar_step_inv.
  - apply astar_step_exit.
  - apply astar_inv_init.
Qed.
End astar.

Lemma run_astar_spec w start goal :
  ∃ r, returns (run_astar w start goal) r ∧
    S (nodes_explored r) = length (pushes (trace r)) ∧
    match result r with
    | PathFound p =>
        head p = Some start ∧ last p = Some goal ∧ moves w p ∧
        S (nodes_visited r) = length (pops (trace r))
    | NoPathFound => nodes_visited r = length (pops (trace r))
    | NoPathWithinLimit => False
    end.
Proof.
  destruct (astar_loop_total w start goal) as (r & Hr & Hrun).
  destruct r as [st current|st]; simpl in *.
  - destruct Hr as (-> & (p & Hc & Hh & Hm) & Hnv & Hne).
    exists (MkResult (PathFound p) (astar_nodes_visited st)
                     (astar_nodes_explored st) (astar_trace st)).
    split.
    + exists (S (astar_measure w start (astar_init start goal)) + length p)%nat.
      intros fuel Hf. unfold run_astar. rewrite Hrun by lia.
      by rewrite (reconstruct_path_chain _ _ _ Hc) by lia.
    + repeat split; simpl; try done. by eapply chain_last.
  - exists (MkResult NoPathFound (astar_nodes_visited st)
                     (astar_nodes_explored st) (astar_trace st)).
    split.
    + exists (S (astar_measure w start (astar_init start goal))).
      intros fuel Hf. unfold run_astar. by rewrite Hrun by lia.
    + simpl. by destruct Hr.
Qed.

(** ** Termination *)

(** Each loop is left after finitely many iterations, and each run
    returns a result. *)
Definition all_terminate (w : Warehouse) (start goal : pos) (depth_limit : Z)
  : Prop :=
  (∃ e, returns (λ fuel, while_loop (astar_step w goal) fuel (astar_init start goal)) e) ∧
  (∃ e, returns (λ fuel, while_loop (bfs_step w goal) fuel (bfs_init start)) e) ∧
  (∃ e, returns (λ fuel, while_loop (dfs_step w goal) fuel (dfs_init start)) e) ∧
  (∃ e, returns (λ fuel, while_loop (ucs_step w goal) fuel (ucs_init start)) e) ∧
  (∃ e, returns (λ fuel, while_loop (dls_step w goal depth_limit) fuel (dls_init start)) e) ∧
  (∃ r, returns (run_astar w start goal) r) ∧
  (∃ r, returns (run_bfs w start goal) r) ∧
  (∃ r, returns (run_dfs w start goal) r) ∧
  (∃ r, returns (run_ucs w start goal) r) ∧
  (∃ r, returns (run_dls w start goal depth_limit) r).

(** C9. On a well-formed grid with [start] and [goal] inside it, each of
    the five runs comes to an end: its [while] loop over the frontier is
    left after finitely many iterations, at the goal or with the frontier
    empty, and the run returns a result.  This holds although depth-first,
    uniform-cost and depth-limited search may put a coordinate on the
    frontier several times. *)
Theorem search_loops_terminate w start goal depth_limit :
  wf_grid w → in_bounds w start = true → in_bounds w goal = true →
  all_terminate w start goal depth_limit.
Proof.
  intros _ _ _. unfold all_terminate. split_and!.
  - destruct (astar_loop_total w start goal) as (e & _ & He).
    exists e, (S (astar_measure w start (astar_init start goal))).
    intros fuel Hf. apply He. lia.
  - destruct (bfs_loop_total w start goal) as (e & _ & He).
    exists e, (S (bfs_measure w start (bfs_init start))).
    intros fuel Hf. apply He. lia.
  - destruct (dfs_loop_total w start goal) as (e & _ & He).
    exists e, (S (dfs_measure w start (dfs_init start))).
    intros fuel Hf. apply He. lia.
  - destruct (ucs_loop_total w start goal) as (e & _ & He).
    exists e, (S (ucs_measure w start (ucs_init start))).
    intros fuel Hf. apply He. lia.
  - destruct (dls_loop_total w start goal depth_limit) as (e & _ & He).
    exists e, (S (dfs_measure w start (dfs_init start))).
    intros fuel Hf. apply He. lia.
  - destruct (run_astar_spec w start goal) as (r & ? & _). by exists r.
  - destruct (run_bfs_spec w start goal) as (r & ? & _). by exists r.
  - destruct (run_dfs_spec w start goal) as (r & ? & _). by exists r.
  - destruct (run_ucs_spec w start goal) as (r & ? & _). by exists r.
  - destruct (run_dls_spec w start goal depth_limit) as (r & ? & _). by exists r.
Qed.

(** ** The neighbour query, as specified *)

(** C7. For a position inside a well-formed grid, [get_neighbors] returns
    the cells above, right of, below and left of it, in that order, keeping
    exactly those that are inside the grid and not an obstacle; there are at
    most four of them.  The query is a function of the grid and the position
    alone: it has no state to change. *)
Theorem get_neighbors_spec w p :
  wf_grid w → in_bounds w p = true →
  get_neighbors w p =
    filter (λ q, in_bounds w q = true ∧ cell w q.1 q.2 ≠ OBSTACLE)
           [(p.1 - 1, p.2); (p.1, p.2 + 1); (p.1 + 1, p.2); (p.1, p.2 - 1)] ∧
  (length (get_neighbors w p) ≤ 4)%nat.
Proof.
  intros _ _. split; [|apply get_neighbors_length].
  rewrite get_neighbors_filter. unfold around. apply list_filter_iff.
  intros q. unfold passable, is_obstacle.
  rewrite andb_true_iff, negb_true_iff, bool_decide_eq_false. done.
Qed.

(** ** Start equal to goal *)

Lemma reconstruct_path_root fuel came_from v :
  came_from !! v = None → reconstruct_path fuel came_from v = Some [v].
Proof. intros H. unfold reconstruct_path. destruct fuel; simpl; by rewrite H. Qed.

(** C10. When [start] equals [goal], every algorithm stops at the first
    frontier element and returns the one-cell path [[start]].  A* tests the
    goal before counting the visit, so its [nodes_visited] is 0; the other
    four count the removed goal, so theirs is 1. *)
Theorem start_is_goal w start depth_limit :
  returns (run_astar w start start)
    (MkResult (PathFound [start]) 0 0 [Push start; Pop start]) ∧
  returns (run_bfs w start start)
    (MkResult (PathFound [start]) 1 1 [Push start; Pop start]) ∧
  returns (run_dfs w start start)
    (MkResult (PathFound [start]) 1 1 [Push start; Pop start]) ∧
  returns (run_ucs w start start)
    (MkResult (PathFound [start]) 1 1 [Push start; Pop start]) ∧
  returns (run_dls w start start depth_limit)
    (MkResult (PathFound [start]) 1 1 [Push start; Pop start]).
Proof.
  split_and!; exists 1%nat; intros [|fuel] Hf; try lia.
  - unfold run_astar, astar_init. cbn [while_loop astar_step astar_open_set heappop heap_min remove_first].
    rewrite !decide_True by done. cbn -[reconstruct_path]. by rewrite reconstruct_path_root by apply lookup_empty.
  - unfold run_bfs, bfs_init. cbn [while_loop bfs_step bfs_queue].
    rewrite !decide_True by done. cbn -[reconstruct_path]. by rewrite reconstruct_path_root by apply lookup_empty.
  - unfold run_dfs, dfs_init. cbn [while_loop dfs_step dfs_stack dfs_visited].
    rewrite decide_False by set_solver. rewrite !decide_True by done.
    cbn -[reconstruct_path]. by rewrite reconstruct_path_root by apply lookup_empty.
  - unfold run_ucs, ucs_init. cbn [while_loop ucs_step ucs_open_set ucs_visited_cells heappop heap_min remove_first].
    rewrite (decide_True (P := (0, start) = (0, start))) by done.
    rewrite decide_False by set_solver. rewrite !decide_True by done.
    cbn -[reconstruct_path]. by rewrite reconstruct_path_root by apply lookup_empty.
  - unfold run_dls, dls_init. cbn [while_loop dls_step dls_stack dls_visited].
    rewrite decide_False by set_solver. rewrite !decide_True by done.
    cbn -[reconstruct_path]. by rewrite reconstruct_path_root by apply lookup_empty.
Qed.

(** ** A* along a free straight line

    [L 0], ..., [L M] is a line of cells from [start] to [goal] on which
    every move brings the goal one step nearer, while every other move from
    a cell of the line takes it one step away. *)

Section astar_line.
Context (w : Warehouse) (start goal : pos) (M : nat) (L : nat → pos).
Hypothesis HL0 : L 0 = start.
Hypothesis HLM : L M = goal.
Hypothesis Hinj : ∀ i j, (i ≤ M)%nat → (j ≤ M)%nat → L i = L j → i = j.
Hypothesis Hnext : ∀ j, (j < M)%nat → L (S j) ∈ get_neighbors w (L j).
Hypothesis Hh : ∀ j, (j ≤ M)%nat →
  heuristic (L j) goal = Z.of_nat M - Z.of_nat j.
Hypothesis Hoff : ∀ j v, (j < M)%nat → v ∈ get_neighbors w (L j) →
  v = L (S j) ∨ heuristic v goal = Z.of_nat M - Z.of_nat j + 1.

(** The priority under which [L i] waits in the open list. *)
Definition line_key (i : nat) : Z :=
  match i with O => 0 | _ => Z.of_nat M end.

(** At the head of the loop, [i] cells of the line are closed. *)
Record line_inv (i : nat) (st : astar_state) : Prop := {
  li_bound : (i ≤ M)%nat;
  li_closed : ∀ v, v ∈ astar_closed_set st ↔ ∃ j, (j < i)%nat ∧ v = L j;
  li_top : (line_key i, L i) ∈ astar_open_set st;
  li_rest : ∀ k v, (k, v) ∈ astar_open_set st →
    (k, v) = (line_key i, L i) ∨ Z.of_nat M < k;
  li_g : ∀ j, (j ≤ i)%nat → astar_g_score st !! L j = Some (Z.of_nat j);
  li_gdom : ∀ v, is_Some (astar_g_score st !! v) →
    (∃ j, (j ≤ i)%nat ∧ v = L j) ∨ Z.of_nat M - Z.of_nat i < heuristic v goal;
  li_cf : astar_came_from st !! L 0 = None ∧
          ∀ j, (j < i)%nat → astar_came_from st !! L (S j) = Some (L j)
}.

(** Inside the expansion of [L i], after the neighbours [pre]. *)
Record line_mid (i : nat) (pre : list pos) (st : astar_state) : Prop := {
  lm_closed : ∀ v, v ∈ astar_closed_set st ↔ ∃ j, (j < S i)%nat ∧ v = L j;
  lm_open : ∀ k v, (k, v) ∈ astar_open_set st →
    (k, v) = (Z.of_nat M, L (S i)) ∨ Z.of_nat M < k;
  lm_new : L (S i) ∈ pre →
    (Z.of_nat M, L (S i)) ∈ astar_open_set st ∧
    astar_g_score st !! L (S i) = Some (Z.of_nat (S i)) ∧
    astar_came_from st !! L (S i) = Some (L i);
  lm_fresh : L (S i) ∉ pre → astar_g_score st !! L (S i) = None;
  lm_g : ∀ j, (j ≤ i)%nat → astar_g_score st !! L j = Some (Z.of_nat j);
  lm_gdom : ∀ v, is_Some (astar_g_score st !! v) →
    (∃ j, (j ≤ S i)%nat ∧ v = L j) ∨
    Z.of_nat M - Z.of_nat (S i) < heuristic v goal;
  lm_cf : astar_came_from st !! L 0 = None ∧
          ∀ j, (j < i)%nat → astar_came_from st !! L (S j) = Some (L j)
}.

Lemma line_inv_init : line_inv 0 (astar_init start goal).
Proof.
  split; simpl.
  - lia.
  - intros v. split; [set_solver|]. intros (j & ? & _). lia.
  - rewrite HL0. set_solver.
  - intros k v ?%list_elem_of_singleton. left. by rewrite HL0.
  - intros j Hj. assert (j = 0%nat) as -> by lia. rewrite HL0.
    apply lookup_singleton_eq.
  - intros v [gv [<- _]%lookup_singleton_Some]. left. exists 0%nat. by rewrite HL0.
  - split; [apply lookup_empty|]. intros j Hj. lia.
Qed.

Lemma line_neighbor i pre st n :
  (i < M)%nat → astar_mid w start (L i) (Z.of_nat i) st →
  line_mid i pre st → n ∈ get_neighbors w (L i) →
  line_mid i (pre ++ [n]) (astar_neighbor goal (L i) st n).
Proof.
  intros Hi (Hinv & Hx & Hgx) Hmid Hn.
  destruct Hmid as [Hcl Hop Hnew Hfr Hg Hgd [Hc0 Hcf]].
  assert (∀ j, (j ≤ i)%nat → L j ∈ astar_closed_set st) as Hclosed.
  { intros j Hj. apply Hcl. exists j. split; [lia|done]. }
  assert (L (S i) ∉ astar_closed_set st) as Hnc'.
  { intros (j & Hj & Heq)%Hcl. apply Hinj in Heq; lia. }
  destruct (astar_neighbor_cases goal (L i) (Z.of_nat i) st n Hgx)
    as [[-> Hsame]|(Hnc & Himp & Hpush)].
  { split; try done.
    - intros [Hin|Heq%list_elem_of_singleton]%elem_of_app; [by apply Hnew|].
      subst n. destruct Hsame as [?|(gn & Hgn & _)]; [done|].
      apply Hnew. destruct (decide (L (S i) ∈ pre)) as [|Hnot]; [done|].
      rewrite (Hfr Hnot) in Hgn. done.
    - intros Hnot. apply Hfr. set_solver. }
  assert (∀ j, (j ≤ i)%nat → L j ≠ n) as Hline
    by (intros j Hj <-; by apply Hnc, Hclosed).
  set (f := Z.of_nat i + 1 + heuristic n goal) in *.
  assert (∀ open ne tr, (∀ k v, (k, v) ∈ open →
              (k, v) = (Z.of_nat M, L (S i)) ∨ Z.of_nat M < k) →
            (n = L (S i) → (Z.of_nat M, L (S i)) ∈ open) →
            (n ≠ L (S i) → L (S i) ∈ pre → (Z.of_nat M, L (S i)) ∈ open) →
            (n = L (S i) ∨ heuristic n goal = Z.of_nat M - Z.of_nat i + 1) →
            line_mid i (pre ++ [n])
              (MkAstar open (astar_closed_set st)
                 (<[n := L i]> (astar_came_from st))
                 (<[n := Z.of_nat i + 1]> (astar_g_score st))
                 (<[n := f]> (astar_f_score st))
                 (astar_nodes_visited st) ne tr)) as Hupd.
  { intros open ne tr Hopen Heq Hne Hcase. split; simpl.
    - done.
    - done.
    - intros Hin. destruct (decide (n = L (S i))) as [->|Hnl].
      + rewrite !lookup_insert_eq. split; [by apply Heq|].
        split; [f_equal; lia|done].
      + rewrite !lookup_insert_ne by done.
        assert (L (S i) ∈ pre) as Hpre by set_solver.
        destruct (Hnew Hpre) as (_ & ? & ?). split; [by apply Hne|done].
    - intros Hnot. rewrite lookup_insert_ne by set_solver. apply Hfr. set_solver.
    - intros j Hj. rewrite lookup_insert_ne by (intros ?; by eapply Hline).
      by apply Hg.
    - intros v. destruct (decide (v = n)) as [->|Hvn].
      + intros _. destruct Hcase as [->|Hhn].
        * left. exists (S i). split; [lia|done].
        * right. lia.
      + rewrite lookup_insert_ne by done. apply Hgd.
    - split.
      + rewrite lookup_insert_ne by (intros ?; eapply (Hline 0%nat); [lia|done]).
        done.
      + intros j Hj. rewrite lookup_insert_ne; [by apply Hcf|].
        intros ?. eapply (Hline (S j)); [lia|done]. }
  assert (n = L (S i) → L (S i) ∉ pre ∧ n ∉ (astar_open_set st).*2) as Hfirst.
  { intros ->. assert (L (S i) ∉ pre) as Hnot.
    { intros Hin. destruct (Hnew Hin) as (_ & Hgn & _).
      specialize (Himp _ Hgn). lia. }
    split; [done|]. intros Hin.
    destruct (ai_g _ _ _ Hinv _ Hin) as [gn Hgn]. rewrite (Hfr Hnot) in Hgn. done. }
  destruct Hpush as [[Hno ->]|[Hno ->]].
  - apply Hupd; [done| | |].
    + intros Heq. destruct (Hfirst Heq) as [_ ?]. done.
    + intros _ Hin. by apply Hnew.
    + destruct (Hoff i n Hi Hn) as [Heq|?]; [|by right].
      destruct (Hfirst Heq) as [_ ?]. done.
  - destruct (Hoff i n Hi Hn) as [Heq|Hhn].
    + apply Hupd; [| | |by left].
      * intros k v [Hin|Hin%list_elem_of_singleton]%elem_of_app; [by apply Hop|].
        left. injection Hin as -> ->. f_equal; [|done]. unfold f. subst n.
        rewrite (Hh (S i)) by lia. lia.
      * intros _. apply elem_of_app. right. apply list_elem_of_singleton.
        f_equal; [|done]. unfold f. subst n. rewrite (Hh (S i)) by lia. lia.
      * done.
    + apply Hupd; [| | |by right].
      * intros k v [Hin|Hin%list_elem_of_singleton]%elem_of_app; [by apply Hop|].
        right. injection Hin as -> ->. unfold f. lia.
      * intros Heq. exfalso. subst n. rewrite (Hh (S i)) in Hhn by lia. lia.
      * intros _ Hin. apply elem_of_app. left. by apply Hnew.
Qed.
(** The entry popped at the head of the loop is the line's. *)
Lemma line_pop i st m open_set :
  line_inv i st → heappop (astar_open_set st) = Some (m, open_set) →
  m = (line_key i, L i).
Proof.
  intros Hl Hpop. apply heappop_Some in Hpop as (Hin & Hmin & _).
  destruct m as [k x].
  destruct (li_rest _ _ Hl k x Hin) as [?|Hk]; [done|].
  pose proof (Hmin _ (li_top _ _ Hl)) as Hle.
  apply entry_le_priority in Hle. simpl in Hle.
  unfold line_key in Hle. destruct i; lia.
Qed.

Lemma line_step i st st' :
  astar_inv w start st → line_inv i st → astar_step w goal st = inl st' →
  line_inv (S i) st'.
Proof.
  intros Hinv Hl. unfold astar_step.
  destruct (heappop (astar_open_set st)) as [[[k x] open_set]|] eqn:Hpop; [|done].
  pose proof (line_pop i st _ _ Hl Hpop) as [= -> ->].
  case_decide as Hg; [done|]. intros [= <-].
  pose proof (li_bound _ _ Hl) as Hb.
  assert (i < M)%nat as Hi.
  { destruct (decide (i = M)) as [->|]; [|lia]. by rewrite HLM in Hg. }
  destruct (astar_pop_inv w start st _ _ _ Hinv Hpop) as (Hx & _ & gx & Hgx & Hmid).
  rewrite (li_g _ _ Hl i) in Hgx by lia. injection Hgx as <-.
  pose proof Hpop as Hpop'. apply heappop_Some in Hpop' as (Hin & _ & ->).
  destruct (remove_first_NoDup _ _ (ai_nodup _ _ _ Hinv) Hin) as [_ Hgone].
  simpl in Hgone.
  set (st1 := MkAstar _ _ _ _ _ _ _ _) in *.
  assert (line_mid i [] st1) as Hmid0.
  { destruct Hl as [_ Hcl Htop Hrest Hg' Hgd Hcf]. split; simpl; try done.
    - intros v. rewrite elem_of_union, elem_of_singleton, Hcl. split.
      + intros [->|(j & ? & ->)]; [exists i|exists j]; split; (lia || done).
      + intros (j & Hj & ->). destruct (decide (j = i)) as [->|]; [by left|].
        right. exists j. split; [lia|done].
    - intros k v Hkv. pose proof (elem_of_remove_first _ _ _ Hkv) as Hkv'.
      destruct (Hrest k v Hkv') as [[= -> ->]|?]; [|by right].
      exfalso. apply Hgone. apply list_elem_of_fmap. by exists (line_key i, L i).
    - set_solver.
    - intros _. destruct (astar_g_score st !! L (S i)) as [gv|] eqn:Hgv; [|done].
      destruct (Hgd (L (S i))) as [(j & Hj & Heq)|Hlt]; [by eexists| |].
      + apply Hinj in Heq; lia.
      + rewrite (Hh (S i)) in Hlt by lia. lia.
    - intros v Hv. destruct (Hgd v Hv) as [(j & Hj & ->)|?].
      + left. exists j. split; [lia|done].
      + right. lia. }
  pose proof (fold_left_inv (astar_neighbor goal (L i))
    (λ pre st', astar_mid w start (L i) (Z.of_nat i) st' ∧ line_mid i pre st')
    (get_neighbors w (L i)) st1) as Hfold.
  destruct Hfold as ((Hinv' & _) & Hend).
  { done. }
  { intros pre n st' [Hm Hlm] Hn. split.
    - by apply astar_neighbor_inv.
    - by apply line_neighbor. }
  destruct Hend as [Hcl Hop Hnew Hfr Hg' Hgd [Hc0 Hcf]].
  destruct (Hnew (Hnext i Hi)) as (Htop & Hgn & Hcn).
  split; try done.
  - intros j Hj. destruct (decide (j = S i)) as [->|]; [done|]. apply Hg'. lia.
  - split; [done|]. intros j Hj.
    destruct (decide (j = i)) as [->|]; [done|]. apply Hcf. lia.
Qed.

Lemma line_chain st i :
  line_inv i st → ∀ j, (j ≤ i)%nat →
  chain (astar_came_from st) (L j) (L <$> seq 0 (S j)).
Proof.
  intros Hl. destruct (li_cf _ _ Hl) as [Hc0 Hcf].
  induction j as [|j IH]; intros Hj.
  - by apply chain_root.
  - rewrite seq_S, fmap_app.
    change (L <$> [(0 + S j)%nat]) with [L (S j)].
    apply chain_link with (L j).
    + apply Hcf. lia.
    + apply IH. lia.
Qed.

Definition line_post (r : loop_exit astar_state) : Prop :=
  ∃ st, r = Reached st goal ∧
        chain (astar_came_from st) goal (L <$> seq 0 (S M)).

Lemma line_exit i st r :
  astar_inv w start st → line_inv i st → astar_step w goal st = inr r →
  line_post r.
Proof.
  intros Hinv Hl. unfold astar_step.
  destruct (heappop (astar_open_set st)) as [[[k x] open_set]|] eqn:Hpop.
  - pose proof (line_pop i st _ _ Hl Hpop) as [= -> ->].
    case_decide as Hg; [|done]. intros [= <-].
    assert (i = M) as -> by (apply Hinj; [apply Hl|lia|congruence]).
    eexists. split; [by rewrite Hg|]. simpl. rewrite <- HLM.
    by apply (line_chain st M).
  - apply heappop_None in Hpop. pose proof (li_top _ _ Hl) as Hin.
    rewrite Hpop in Hin. set_solver.
Qed.

(** Along the line A* reaches the goal and returns the line itself. *)
Lemma run_astar_line :
  ∃ r, returns (run_astar w start goal) r ∧
       result r = PathFound (L <$> seq 0 (S M)).
Proof.
  destruct (while_loop_total (astar_step w goal)
              (λ st, astar_inv w start st ∧ ∃ i, line_inv i st)
              (astar_measure w start) line_post) with (st := astar_init start goal)
    as (r & (st & -> & Hc) & Hrun).
  - intros st st' [Hinv [i Hl]] Hst.
    destruct (astar_step_inv w start goal st st' Hinv Hst) as [? ?].
    split; [|done]. split; [done|]. exists (S i). exact (line_step i st st' Hinv Hl Hst).
  - intros st r [Hinv [i Hl]] Hst. exact (line_exit i st r Hinv Hl Hst).
  - split; [apply astar_inv_init|]. exists 0%nat. apply line_inv_init.
  - exists (MkResult (PathFound (L <$> seq 0 (S M))) (astar_nodes_visited st)
                     (astar_nodes_explored st) (astar_trace st)).
    split; [|done].
    exists (S (astar_measure w start (astar_init start goal)) + S M)%nat.
    intros fuel Hf. unfold run_astar. rewrite Hrun by lia.
    rewrite (reconstruct_path_chain _ _ _ Hc); [done|].
    rewrite length_fmap, length_seq. lia.
Qed.
End astar_line.

(** ** Start and goal on one row or one column *)

Definition between (a b x : Z) : Prop := a ≤ x ≤ b ∨ b ≤ x ≤ a.

(** The cells of the straight line from [start] to [goal], both included. *)
Definition on_segment (start goal p : pos) : Prop :=
  between start.1 goal.1 p.1 ∧ between start.2 goal.2 p.2.

Definition aligned (start goal : pos) : Prop :=
  start.1 = goal.1 ∨ start.2 = goal.2.

(** The [j]-th cell on the way from [start] towards [goal]. *)
Definition line_cell (start goal : pos) (j : nat) : pos :=
  (start.1 + Z.of_nat j * Z.sgn (goal.1 - start.1),
   start.2 + Z.of_nat j * Z.sgn (goal.2 - start.2)).

Lemma sgn_cases x :
  (0 < x ∧ Z.sgn x = 1) ∨ (x = 0 ∧ Z.sgn x = 0) ∨ (x < 0 ∧ Z.sgn x = -1).
Proof. destruct x; simpl; lia. Qed.

Ltac line_cases start goal :=
  let r1 := fresh "r1" in let c1 := fresh "c1" in
  let r2 := fresh "r2" in let c2 := fresh "c2" in
  destruct start as [r1 c1], goal as [r2 c2];
  unfold aligned, line_cell, heuristic, on_segment, between, adjacent4, in_bounds in *;
  simpl in *;
  destruct (sgn_cases (r2 - r1)) as [[? ->]|[[? ->]|[? ->]]];
  destruct (sgn_cases (c2 - c1)) as [[? ->]|[[? ->]|[? ->]]].

Lemma line_cell_first start goal : line_cell start goal 0 = start.
Proof. destruct start. unfold line_cell. simpl. f_equal; lia. Qed.

Lemma line_cell_last start goal :
  aligned start goal →
  line_cell start goal (Z.to_nat (heuristic start goal)) = goal.
Proof. intros Hal. line_cases start goal; f_equal; lia. Qed.

Lemma line_cell_inj start goal i j :
  aligned start goal →
  (i ≤ Z.to_nat (heuristic start goal))%nat →
  (j ≤ Z.to_nat (heuristic start goal))%nat →
  line_cell start goal i = line_cell start goal j → i = j.
Proof. intros Hal. line_cases start goal; intros Hi Hj [= ? ?]; lia. Qed.

Lemma line_cell_heuristic start goal j :
  aligned start goal →
  (j ≤ Z.to_nat (heuristic start goal))%nat →
  heuristic (line_cell start goal j) goal =
    Z.of_nat (Z.to_nat (heuristic start goal)) - Z.of_nat j.
Proof. intros Hal. line_cases start goal; lia. Qed.

Lemma line_cell_on_segment start goal j :
  aligned start goal →
  (j ≤ Z.to_nat (heuristic start goal))%nat →
  on_segment start goal (line_cell start goal j).
Proof. intros Hal. line_cases start goal; lia. Qed.

Lemma line_cell_adjacent start goal j :
  aligned start goal →
  (j < Z.to_nat (heuristic start goal))%nat →
  adjacent4 (line_cell start goal j) (line_cell start goal (S j)).
Proof. intros Hal. line_cases start goal; lia. Qed.

Lemma line_cell_away start goal j v :
  aligned start goal →
  (j < Z.to_nat (heuristic start goal))%nat →
  adjacent4 (line_cell start goal j) v →
  v = line_cell start goal (S j) ∨
  heuristic v goal = Z.of_nat (Z.to_nat (heuristic start goal)) - Z.of_nat j + 1.
Proof.
  intros Hal. destruct v as [r c]. line_cases start goal; intros Hj Hv.
  all: match goal with
       | |- (?a, ?b) = (?x, ?y) ∨ ?h =>
           assert ((a = x ∧ b = y) ∨ h) as [[-> ->]|?] by lia; [by left|by right]
       end.
Qed.

Lemma on_segment_in_bounds w start goal p :
  in_bounds w start = true → in_bounds w goal = true →
  on_segment start goal p → in_bounds w p = true.
Proof.
  unfold in_bounds, on_segment, between.
  rewrite !andb_true_iff, !Z.leb_le, !Z.ltb_lt. lia.
Qed.

Section straight_line.
Context (w : Warehouse) (start goal : pos).
Hypothesis Hstart : in_bounds w start = true.
Hypothesis Hgoal : in_bounds w goal = true.
Hypothesis Hal : aligned start goal.
Hypothesis Hfree : ∀ p, on_segment start goal p → p ≠ start →
  is_obstacle w p = false.

Let M : nat := Z.to_nat (heuristic start goal).
Let L : nat → pos := line_cell start goal.

Lemma line_cell_next j : (j < M)%nat → L (S j) ∈ get_neighbors w (L j).
Proof.
  intros Hj. apply elem_of_get_neighbors. split; [|by apply line_cell_adjacent].
  assert (on_segment start goal (L (S j))) as Hseg
    by (apply line_cell_on_segment; [done|subst M; lia]).
  split; [exact (on_segment_in_bounds w start goal _ Hstart Hgoal Hseg)|].
  apply Hfree; [done|]. intros Heq. subst L.
  rewrite <- (line_cell_first start goal) in Heq at 2.
  apply line_cell_inj in Heq; [lia|done|subst M; lia|lia].
Qed.

Lemma line_cell_off j v :
  (j < M)%nat → v ∈ get_neighbors w (L j) →
  v = L (S j) ∨ heuristic v goal = Z.of_nat M - Z.of_nat j + 1.
Proof.
  intros Hj [_ Hv]%elem_of_get_neighbors. by apply line_cell_away.
Qed.

Lemma line_reach j : (j ≤ M)%nat → reach w start j (L j).
Proof.
  induction j as [|j IH]; intros Hj.
  - subst L. rewrite line_cell_first. constructor.
  - apply reach_move with (L j); [apply IH; lia|apply line_cell_next; lia].
Qed.

Lemma goal_reach : reach w start M goal.
Proof.
  pose proof (line_reach M (le_n _)) as H. subst L M.
  by rewrite line_cell_last in H.
Qed.

Lemma heuristic_M : Z.of_nat M = heuristic start goal.
Proof. subst M. unfold heuristic. lia. Qed.

Lemma run_astar_straight :
  ∃ r path, returns (run_astar w start goal) r ∧ result r = PathFound path ∧
            Z.of_nat (length path) = heuristic start goal + 1.
Proof.
  destruct (run_astar_line w start goal M L) as (r & Hret & Hres).
  { apply line_cell_first. }
  { by apply line_cell_last. }
  { intros i j. by apply line_cell_inj. }
  { apply line_cell_next. }
  { intros j. by apply line_cell_heuristic. }
  { apply line_cell_off. }
  exists r, (L <$> seq 0 (S M)). split; [done|]. split; [done|].
  rewrite length_fmap, length_seq, <- heuristic_M. lia.
Qed.

(** A run that finds shortest paths finds one of the line's length. *)
Lemma shortest_straight run :
  (∃ r, returns run r ∧ result_ok w start goal true r) →
  ∃ r path, returns run r ∧ result r = PathFound path ∧
            Z.of_nat (length path) = heuristic start goal + 1.
Proof.
  intros (r & Hret & _ & _ & Hres).
  destruct (result r) as [path| |] eqn:Hr; [|by destruct (Hres _ goal_reach)|done].
  exists r, path. split; [done|]. split; [done|].
  destruct Hres as (Hh & Hl & Hm & Hmin).
  specialize (Hmin eq_refl _ goal_reach).
  pose proof (reach_heuristic _ _ _ _ (moves_reach _ _ _ _ Hm Hh Hl)) as Hlow.
  rewrite <- heuristic_M in *. destruct path; simpl in *; [done|lia].
Qed.
End straight_line.

(** C2. On a well-formed grid where [start] and [goal] lie on one row or one
    column and no cell of the straight line between them is an obstacle (the
    goal's cell included; the start's own cell is never looked at),
    breadth-first, uniform-cost and A* search each find a path whose number
    of cells is the Manhattan distance plus one. *)
Theorem straight_line_path_length w start goal :
  wf_grid w →
  in_bounds w start = true → in_bounds w goal = true →
  aligned start goal →
  (∀ p, on_segment start goal p → p ≠ start → is_obstacle w p = false) →
  (∃ r path, returns (run_bfs w start goal) r ∧ result r = PathFound path ∧
             Z.of_nat (length path) = heuristic start goal + 1) ∧
  (∃ r path, returns (run_ucs w start goal) r ∧ result r = PathFound path ∧
             Z.of_nat (length path) = heuristic start goal + 1) ∧
  (∃ r path, returns (run_astar w start goal) r ∧ result r = PathFound path ∧
             Z.of_nat (length path) = heuristic start goal + 1).
Proof.
  intros _ Hs Hg Hal Hfree. split_and!.
  - apply (shortest_straight w); try done.
    destruct (run_bfs_spec w start goal) as (r & ? & ? & _). by exists r.
  - apply (shortest_straight w); try done. apply run_ucs_spec.
  - by apply run_astar_straight.
Qed.

(** ** Evaluating a run *)

Lemma reconstruct_loop_mono fuel fuel' came_from v acc p :
  reconstruct_loop fuel came_from v acc = Some p → (fuel ≤ fuel')%nat →
  reconstruct_loop fuel' came_from v acc = Some p.
Proof.
  revert fuel' v acc. induction fuel as [|fuel IH]; intros fuel' v acc H Hle.
  - simpl in H. destruct (came_from !! v) eqn:Hv; [done|].
    destruct fuel'; simpl; by rewrite Hv.
  - destruct fuel' as [|fuel']; [lia|]. simpl in *.
    destruct (came_from !! v); [|done]. apply IH; [done|lia].
Qed.

(** A result computed with some budget is the result of the run. *)
Lemma returns_eval {S : Type} (step : S → S + loop_exit S) (init : S)
    (finish : loop_exit S → nat → option run_result) fuel r :
  (∀ e n n' r', finish e n = Some r' → (n ≤ n')%nat → finish e n' = Some r') →
  match while_loop step fuel init with
  | Some e => finish e fuel
  | None => None
  end = Some r →
  returns (λ fuel, match while_loop step fuel init with
                   | Some e => finish e fuel
                   | None => None
                   end) r.
Proof.
  intros Hfin H. exists fuel. intros fuel' Hle.
  destruct (while_loop step fuel init) as [e|] eqn:He; [|done].
  rewrite (while_loop_mono _ _ _ _ _ He Hle). by eapply Hfin.
Qed.

Lemma finish_mono (came_from : gmap pos pos) (current : pos)
    (mk : list pos → run_result) n n' r :
  (path ← reconstruct_path n came_from current; Some (mk path)) = Some r →
  (n ≤ n')%nat →
  (path ← reconstruct_path n' came_from current; Some (mk path)) = Some r.
Proof.
  unfold reconstruct_path. intros H Hle.
  destruct (reconstruct_loop n came_from current [current]) as [p|] eqn:Hp; [|done].
  by rewrite (reconstruct_loop_mono _ _ _ _ _ _ Hp Hle).
Qed.

Lemma run_bfs_eval w start goal fuel r :
  run_bfs w start goal fuel = Some r → returns (run_bfs w start goal) r.
Proof.
  intros H. unfold run_bfs in *.
  apply (returns_eval (bfs_step w goal) (bfs_init start)
           (λ e n, match e with
                   | Reached st current =>
                       path ← reconstruct_path n (bfs_came_from st) current;
                       Some (MkResult (PathFound path) (bfs_nodes_visited st)
                               (bfs_nodes_explored st) (bfs_trace st))
                   | Exhausted st =>
                       Some (MkResult NoPathFound (bfs_nodes_visited st)
                               (bfs_nodes_explored st) (bfs_trace st))
                   end) fuel r).
  - intros [st c|st] n n' r' Hr Hle; [|done]. by eapply finish_mono.
  - by destruct (while_loop _ _ _) as [[]|].
Qed.

Lemma run_dfs_eval w start goal fuel r :
  run_dfs w start goal fuel = Some r → returns (run_dfs w start goal) r.
Proof.
  intros H. unfold run_dfs in *.
  apply (returns_eval (dfs_step w goal) (dfs_init start)
           (λ e n, match e with
                   | Reached st current =>
                       path ← reconstruct_path n (dfs_came_from st) current;
                       Some (MkResult (PathFound path) (dfs_nodes_visited st)
                               (dfs_nodes_explored st) (dfs_trace st))
                   | Exhausted st =>
                       Some (MkResult NoPathFound (dfs_nodes_visited st)
                               (dfs_nodes_explored st) (dfs_trace st))
                   end) fuel r).
  - intros [st c|st] n n' r' Hr Hle; [|done]. by eapply finish_mono.
  - by destruct (while_loop _ _ _) as [[]|].
Qed.

Lemma run_dls_eval w start goal depth_limit fuel r :
  run_dls w start goal depth_limit fuel = Some r →
  returns (run_dls w start goal depth_limit) r.
Proof.
  intros H. unfold run_dls in *.
  apply (returns_eval (dls_step w goal depth_limit) (dls_init start)
           (λ e n, match e with
                   | Reached st current =>
                       path ← reconstruct_path n (dls_came_from st) current;
                       Some (MkResult (PathFound path) (dls_nodes_visited st)
                               (dls_nodes_explored st) (dls_trace st))
                   | Exhausted st =>
                       Some (MkResult NoPathWithinLimit (dls_nodes_visited st)
                               (dls_nodes_explored st) (dls_trace st))
                   end) fuel r).
  - intros [st c|st] n n' r' Hr Hle; [|done]. by eapply finish_mono.
  - by destruct (while_loop _ _ _) as [[]|].
Qed.

Lemma run_ucs_eval w start goal fuel r :
  run_ucs w start goal fuel = Some r → returns (run_ucs w start goal) r.
Proof.
  intros H. unfold run_ucs in *.
  apply (returns_eval (ucs_step w goal) (ucs_init start)
           (λ e n, match e with
                   | Reached st current =>
                       path ← reconstruct_path n (ucs_came_from st) current;
                       Some (MkResult (PathFound path) (ucs_nodes_visited st)
                               (ucs_nodes_explored st) (ucs_trace st))
                   | Exhausted st =>
                       Some (MkResult NoPathFound (ucs_nodes_visited st)
                               (ucs_nodes_explored st) (ucs_trace st))
                   end) fuel r).
  - intros [st c|st] n n' r' Hr Hle; [|done]. by eapply finish_mono.
  - by destruct (while_loop _ _ _) as [[]|].
Qed.

Lemma run_astar_eval w start goal fuel r :
  run_astar w start goal fuel = Some r → returns (run_astar w start goal) r.
Proof.
  intros H. unfold run_astar in *.
  apply (returns_eval (astar_step w goal) (astar_init start goal)
           (λ e n, match e with
                   | Reached st current =>
                       path ← reconstruct_path n (astar_came_from st) current;
                       Some (MkResult (PathFound path) (astar_nodes_visited st)
                               (astar_nodes_explored st) (astar_trace st))
                   | Exhausted st =>
                       Some (MkResult NoPathFound (astar_nodes_visited st)
                               (astar_nodes_explored st) (astar_trace st))
                   end) fuel r).
  - intros [st c|st] n n' r' Hr Hle; [|done]. by eapply finish_mono.
  - by destruct (while_loop _ _ _) as [[]|].
Qed.

(** ** Depth-limited search never exceeds its limit *)

(** The depth carried by the topmost stack entry of a cell. *)
Fixpoint first_depth (stack : list (pos * Z)) (x : pos) : option Z :=
  match stack with
  | [] => None
  | (y, d) :: stack' => if decide (y = x) then Some d else first_depth stack' x
  end.

Lemma first_depth_app s1 s2 x :
  first_depth (s1 ++ s2) x =
    match first_depth s1 x with Some d => Some d | None => first_depth s2 x end.
Proof.
  induction s1 as [|[y d] s1 IH]; simpl; [done|]. by case_decide.
Qed.

Lemma first_depth_tag (new : list pos) (e : Z) x :
  first_depth (rev ((λ n, (n, e)) <$> new)) x =
    if decide (x ∈ new) then Some e else None.
Proof.
  induction new as [|n new IH].
  - destruct (decide (x ∈ [])); [set_solver|done].
  - change (rev ((λ n, (n, e)) <$> n :: new))
      with (rev ((λ n, (n, e)) <$> new) ++ [(n, e)]).
    rewrite first_depth_app, IH.
    destruct (decide (x ∈ n :: new)) as [Hin|Hin];
      destruct (decide (x ∈ new)) as [Hin'|Hin']; try done; try set_solver.
    + change (first_depth [(n, e)] x) with (if decide (n = x) then Some e else None).
      rewrite decide_True; [done|set_solver].
    + change (first_depth [(n, e)] x) with (if decide (n = x) then Some e else None).
      rewrite decide_False; [done|set_solver].
Qed.

Lemma chain_set_parents came_from v p x new :
  chain came_from v p → (∀ y, y ∈ p → y ∉ new) →
  chain (set_parents x new came_from) v p.
Proof.
  induction 1 as [v Hv|v u p Hv Hc IH]; intros Hp.
  - apply chain_root. rewrite lookup_set_parents.
    rewrite decide_False; [done|]. apply Hp. set_solver.
  - apply chain_link with u.
    + rewrite lookup_set_parents. rewrite decide_False; [done|].
      apply Hp. set_solver.
    + apply IH. intros y Hy. apply Hp. set_solver.
Qed.

Section dls_depth.
Context (w : Warehouse) (start goal : pos) (depth_limit : Z).
Hypothesis Hlimit : 0 ≤ depth_limit.

(** Every visited cell has a predecessor chain of at most
    [depth_limit + 1] cells, and the topmost entry of an unvisited cell
    carries the length of the cell's chain. *)
Record dls_depth_inv (st : dls_state) : Prop := {
  dd_visited : ∀ v, v ∈ dls_visited st →
    ∃ p, chain (dls_came_from st) v p ∧
         Z.of_nat (length p) ≤ depth_limit + 1 ∧
         ∀ y, y ∈ p → y ∈ dls_visited st;
  dd_stack : ∀ x d, first_depth (dls_stack st) x = Some d →
    x ∉ dls_visited st →
    d ≤ depth_limit ∧
    ∃ p, chain (dls_came_from st) x p ∧ Z.of_nat (length p) = d + 1 ∧
         ∀ y, y ∈ p → y = x ∨ y ∈ dls_visited st
}.

Lemma dls_depth_init : dls_depth_inv (dls_init start).
Proof.
  split; simpl; [set_solver|]. intros x d. case_decide as Hx; [|done].
  intros [= <-] _. subst x. split; [done|]. exists [start].
  split; [by apply chain_root|]. split; [done|]. set_solver.
Qed.

Lemma dls_depth_step st st' :
  dls_depth_inv st → dls_step w goal depth_limit st = inl st' →
  dls_depth_inv st'.
Proof.
  intros [Hvis Hstk]. unfold dls_step.
  destruct st as [stack V cf nv ne tr]. simpl in *.
  destruct stack as [|[x d] rest]; [done|].
  assert (∀ y e, y ≠ x → first_depth rest y = Some e →
            first_depth ((x, d) :: rest) y = Some e) as Hrest.
  { intros y e Hy He. simpl. by rewrite decide_False. }
  case_decide as Hx.
  { intros [= <-]. split; simpl; [done|]. intros y e He Hy.
    apply Hstk; [|done]. apply Hrest; [|done]. by intros ->. }
  case_decide as Hg; [done|].
  destruct (Hstk x d) as (Hd & px & Hcx & Hlx & Hpx);
    [simpl; by rewrite decide_True|done|].
  assert (∀ y, y ∈ px → y ∈ ({[x]} ∪ V : gset pos)) as Hpx'
    by (intros y Hy; destruct (Hpx y Hy); set_solver).
  case_decide as Hlim.
  { intros [= <-]. split; simpl.
    - intros v [->%elem_of_singleton|Hv]%elem_of_union.
      + exists px. split; [done|]. split; [lia|done].
      + destruct (Hvis v Hv) as (p & ? & ? & Hp). exists p.
        split; [done|]. split; [done|]. intros y Hy. specialize (Hp y Hy). set_solver.
    - intros y e He Hy. assert (y ≠ x) as Hyx by set_solver.
      destruct (Hstk y e) as (? & p & ? & ? & Hp);
        [by apply Hrest|set_solver|].
      split; [done|]. exists p. split; [done|]. split; [done|].
      intros z Hz. destruct (Hp z Hz); [by left|right; set_solver]. }
  intros [= <-]. rewrite dls_fold. simpl.
  set (new := filter (λ n, n ∉ ({[x]} ∪ V : gset pos)) (rev (get_neighbors w x))).
  assert (∀ n, n ∈ new → n ∉ ({[x]} ∪ V : gset pos)) as Hnew
    by (intros n [? _]%list_elem_of_filter; done).
  split; simpl.
  - intros v Hv.
    assert (∃ p, chain cf v p ∧ Z.of_nat (length p) ≤ depth_limit + 1 ∧
                 ∀ y, y ∈ p → y ∈ ({[x]} ∪ V : gset pos)) as (p & Hc & Hl & Hp).
    { apply elem_of_union in Hv as [->%elem_of_singleton|Hv].
      - exists px. split; [done|]. split; [lia|done].
      - destruct (Hvis v Hv) as (p & ? & ? & Hp). exists p.
        split; [done|]. split; [done|]. intros y Hy. specialize (Hp y Hy). set_solver. }
    exists p. split; [|done]. apply chain_set_parents; [done|].
    intros y Hy Hin. by apply (Hnew y Hin), Hp.
  - intros y e. rewrite first_depth_app, first_depth_tag.
    case_decide as Hin.
    + intros [= <-] Hy. split; [lia|]. exists (px ++ [y]). split; [|split].
      * apply chain_link with x; [by rewrite lookup_set_parents, decide_True|].
        apply chain_set_parents; [done|].
        intros z Hz Hzn. by apply (Hnew z Hzn), Hpx'.
      * rewrite length_app. simpl. lia.
      * intros z [Hz| ->%list_elem_of_singleton]%elem_of_app; [|by left].
        right. by apply Hpx'.
    + intros He Hy. assert (y ≠ x) as Hyx by set_solver.
      destruct (Hstk y e) as (? & p & ? & ? & Hp);
        [by apply Hrest|set_solver|].
      split; [done|]. exists p. split; [|split; [done|]].
      * apply chain_set_parents; [done|]. intros z Hz Hzn.
        destruct (Hp z Hz) as [->|HzV]; [done|].
        apply (Hnew z Hzn). set_solver.
      * intros z Hz. destruct (Hp z Hz); [by left|right; set_solver].
Qed.

Lemma dls_depth_exit st st' current :
  dls_depth_inv st → dls_step w goal depth_limit st = inr (Reached st' current) →
  ∃ p, chain (dls_came_from st') current p ∧
       Z.of_nat (length p) ≤ depth_limit + 1.
Proof.
  intros [Hvis Hstk]. unfold dls_step.
  destruct st as [stack V cf nv ne tr]. simpl in *.
  destruct stack as [|[x d] rest]; [done|].
  case_decide as Hx; [done|]. case_decide as Hg; [|by case_decide].
  intros [= <- <-]. simpl.
  destruct (Hstk x d) as (Hd & px & Hcx & Hlx & _);
    [simpl; by rewrite decide_True|done|].
  exists px. split; [done|lia].
Qed.

Lemma dls_loop_depth :
  ∃ r, match r with
       | Reached st current =>
           ∃ p, chain (dls_came_from st) current p ∧
                Z.of_nat (length p) ≤ depth_limit + 1
       | Exhausted _ => True
       end ∧
    ∀ fuel, (dfs_measure w start (dfs_init start) < fuel)%nat →
      while_loop (dls_step w goal depth_limit) fuel (dls_init start) = Some r.
Proof.
  change (dfs_init start) with (dls_erase (dls_init start)).
  apply (while_loop_total (dls_step w goal depth_limit)
           (λ st, (∃ rank, dfs_inv w start goal rank (dls_erase st)) ∧
                  dls_depth_inv st)
           (λ st, dfs_measure w start (dls_erase st))).
  - intros st st' [Hinv Hdep] Hst.
    destruct (dls_step_inv w start goal depth_limit st st' Hinv Hst) as [? ?].
    split; [|done]. split; [done|]. by eapply dls_depth_step.
  - intros st [st' current|st'] [_ Hdep] Hst; [|done]. by eapply dls_depth_exit.
  - split; [eexists; apply dfs_inv_init|apply dls_depth_init].
Qed.
End dls_depth.

(** With a limit [L >= 0], a path returned by [run_dls] is a path of moves
    from [start] to [goal] of at most [L + 1] cells; so the run ends with
    "no path within limit" whenever every path has more cells than that. *)
Lemma run_dls_within_limit w start goal depth_limit :
  0 ≤ depth_limit →
  ∃ r, returns (run_dls w start goal depth_limit) r ∧
       match result r with
       | PathFound p =>
           head p = Some start ∧ last p = Some goal ∧ moves w p ∧
           Z.of_nat (length p) ≤ depth_limit + 1
       | NoPathFound => False
       | NoPathWithinLimit => True
       end ∧
       ((∀ k, reach w start k goal → depth_limit < Z.of_nat k) →
        result r = NoPathWithinLimit).
Proof.
  intros HL.
  destruct (run_dls_spec w start goal depth_limit) as (r & Hret & _ & _ & Hres).
  destruct (dls_loop_depth w start goal depth_limit HL) as (e & He & Hrun).
  assert (match result r with
          | PathFound p => Z.of_nat (length p) ≤ depth_limit + 1
          | _ => True
          end) as Hlen.
  { destruct Hret as [N HN].
    set (fuel := (N + S (dfs_measure w start (dfs_init start)))%nat).
    specialize (HN fuel ltac:(lia)). specialize (Hrun fuel ltac:(lia)).
    unfold run_dls in HN. rewrite Hrun in HN.
    destruct e as [st current|st]; [|by injection HN as <-].
    destruct He as (p & Hc & Hl).
    destruct (reconstruct_path fuel (dls_came_from st) current) as [p'|] eqn:Hp';
      [|done]. injection HN as <-. simpl.
    destruct (reconstruct_loop_chain _ _ _ Hc) as (l & -> & Hrec).
    unfold reconstruct_path in Hp'.
    assert (reconstruct_loop (fuel + length l) (dls_came_from st) current [current]
            = Some p') as H1 by (eapply reconstruct_loop_mono; [done|lia]).
    rewrite Hrec in H1 by lia. by injection H1 as <-. }
  exists r. split; [done|]. split.
  - destruct (result r); [|done..]. destruct Hres as (? & ? & ?). done.
  - intros Hfar. destruct (result r) as [p| |]; [|done..].
    destruct Hres as (Hh & Hl & Hm).
    specialize (Hfar _ (moves_reach _ _ _ _ Hm Hh Hl)).
    destruct p; simpl in *; [done|lia].
Qed.

(** ** Statistics and frontier events *)

(** For breadth-first, depth-first, uniform-cost and depth-limited search
    [nodes_visited] is the number of accepted removals and [nodes_explored]
    the number of insertions, the first placement of [start] included. *)
Lemma sibling_counts w start goal depth_limit :
  ∀ run, run ∈ [run_bfs w start goal; run_dfs w start goal;
                run_ucs w start goal; run_dls w start goal depth_limit] →
  ∃ r, returns run r ∧
       nodes_visited r = length (pops (trace r)) ∧
       nodes_explored r = length (pushes (trace r)).
Proof.
  intros run Hrun. repeat (apply elem_of_cons in Hrun as [->|Hrun]).
  - destruct (run_bfs_spec w start goal) as (r & ? & (? & ? & _) & _). by exists r.
  - destruct (run_dfs_spec w start goal) as (r & ? & (? & ? & _)). by exists r.
  - destruct (run_ucs_spec w start goal) as (r & ? & (? & ? & _)). by exists r.
  - destruct (run_dls_spec w start goal depth_limit) as (r & ? & (? & ? & _)).
    by exists r.
  - by apply elem_of_nil in Hrun.
Qed.

(** A* starts [nodes_explored] at 0 and tests the goal before counting
    the visit: it reports one insertion less than it performs and, when it
    finds a path, one accepted removal less. *)
Lemma astar_counts w start goal :
  ∃ r, returns (run_astar w start goal) r ∧
       S (nodes_explored r) = length (pushes (trace r)) ∧
       (∀ p, result r = PathFound p →
             S (nodes_visited r) = length (pops (trace r))) ∧
       (result r = NoPathFound → nodes_visited r = length (pops (trace r))).
Proof.
  destruct (run_astar_spec w start goal) as (r & Hret & Hne & Hres).
  exists r. split; [done|]. split; [done|].
  destruct (result r); split; try done. by intros ? _; apply Hres.
Qed.

Definition empty_grid (r c : nat) : Warehouse :=
  MkWarehouse (Z.of_nat r) (Z.of_nat c) (replicate r (replicate c EMPTY)).

(** C5, on the grid of one row and two columns, from (0,0) to (0,1): A*
    inserts two cells and removes two, and reports 1 and 1. *)
Theorem astar_counts_differ :
  ∃ r, returns (run_astar (empty_grid 1 2) (0, 0) (0, 1)) r ∧
       result r = PathFound [(0, 0); (0, 1)] ∧
       trace r = [Push (0, 0); Pop (0, 0); Push (0, 1); Pop (0, 1)] ∧
       nodes_visited r = 1%nat ∧ length (pops (trace r)) = 2%nat ∧
       nodes_explored r = 1%nat ∧ length (pushes (trace r)) = 2%nat.
Proof.
  eexists. split; [apply (run_astar_eval _ _ _ 10); vm_compute; reflexivity|].
  repeat split.
Qed.

(** ** Depth-limited search and the visited set *)

(** C4, on the empty grid of two rows and three columns, from (0,2) to
    (0,0) with depth limit 3: a path of three cells exists (two moves, within
    the limit), yet the run ends with "no path within depth limit", because
    (0,1) is first visited at depth 3 along (1,2), (1,1) and is then skipped
    when it is popped at depth 1. *)
Theorem dls_misses_path_within_limit :
  returns (run_dls (empty_grid 2 3) (0, 2) (0, 0) 3)
    (MkResult NoPathWithinLimit 5 6
       [Push (0, 2); Pop (0, 2); Push (0, 1); Push (1, 2); Pop (1, 2);
        Push (1, 1); Pop (1, 1); Push (1, 0); Push (0, 1); Pop (0, 1);
        Pop (1, 0); Skip (0, 1)]) ∧
  grid_path (empty_grid 2 3) (0, 2) (0, 0) [(0, 2); (0, 1); (0, 0)] ∧
  Z.of_nat (length [(0, 2); (0, 1); (0, 0)]) ≤ 3 + 1.
Proof.
  split; [apply (run_dls_eval _ _ _ _ 20); vm_compute; reflexivity|].
  split; [|simpl; lia].
  unfold grid_path, adjacent4. split_and!; try done.
  all: try (repeat constructor); simpl; lia.
Qed.

(** ** A*: a coordinate already in the open list *)

(** While [current] is expanded, a cheaper path to [neighbor] is found,
    and [neighbor] is in the open list and not closed. *)
Definition cheaper_in_open (current : pos) (st : astar_state) (neighbor : pos)
  : bool :=
  bool_decide (neighbor ∉ astar_closed_set st) &&
  bool_decide (neighbor ∈ (astar_open_set st).*2) &&
  match astar_g_score st !! neighbor with
  | Some old => bool_decide (default 0 (astar_g_score st !! current) + 1 < old)
  | None => false
  end.

Lemma astar_neighbor_in_open goal current st neighbor :
  cheaper_in_open current st neighbor = true →
  astar_neighbor goal current st neighbor =
    let g := default 0 (astar_g_score st !! current) + 1 in
    MkAstar (astar_open_set st) (astar_closed_set st)
            (<[neighbor := current]> (astar_came_from st))
            (<[neighbor := g]> (astar_g_score st))
            (<[neighbor := g + heuristic neighbor goal]> (astar_f_score st))
            (astar_nodes_visited st) (astar_nodes_explored st) (astar_trace st).
Proof.
  unfold cheaper_in_open, astar_neighbor, improves.
  rewrite !andb_true_iff, !bool_decide_eq_true. intros [[Hc Ho] Hg].
  rewrite decide_False by done.
  destruct (astar_g_score st !! neighbor) as [old|]; [|done].
  rewrite Hg. by rewrite decide_True by done.
Qed.

(** C3, as the code has it.  When a cheaper path to a coordinate is found
    while the coordinate is in the open list and not closed, [came_from],
    [g_score] and [f_score] take the new values, and the open list is left as
    it is: the coordinate keeps its one entry with the old priority, nothing
    is pushed and nothing is counted. *)
Theorem astar_keeps_open_entry goal current st neighbor :
  cheaper_in_open current st neighbor = true →
  let st' := astar_neighbor goal current st neighbor in
  let g := default 0 (astar_g_score st !! current) + 1 in
  astar_open_set st' = astar_open_set st ∧
  astar_trace st' = astar_trace st ∧
  astar_nodes_explored st' = astar_nodes_explored st ∧
  astar_came_from st' !! neighbor = Some current ∧
  astar_g_score st' !! neighbor = Some g ∧
  astar_f_score st' !! neighbor = Some (g + heuristic neighbor goal).
Proof.
  intros H. simpl. rewrite (astar_neighbor_in_open _ _ _ _ H). simpl.
  by rewrite !lookup_insert_eq.
Qed.

(** A grid on which the situation arises: obstacles at (0,2) and (1,3),
    start (2,0), goal (0,3).  The cell (2,2) is pushed with cost 4 from (1,2)
    and is met again with cost 2 when (2,1) is expanded. *)
Definition repush_grid : Warehouse :=
  MkWarehouse 3 4 [[EMPTY; EMPTY; OBSTACLE; EMPTY];
                   [EMPTY; EMPTY; EMPTY; OBSTACLE];
                   [EMPTY; EMPTY; EMPTY; EMPTY]].

(** The state after [n] iterations of the loop. *)
Definition astar_iterate (w : Warehouse) (goal : pos) (n : nat)
    (st : astar_state) : astar_state :=
  Nat.iter n (λ s, match astar_step w goal s with inl s' => s' | inr _ => s end) st.

(** The seventh iteration, after (2,1) has been popped and closed. *)
Definition repush_state : astar_state :=
  let st := astar_iterate repush_grid (0, 3) 6 (astar_init (2, 0) (0, 3)) in
  MkAstar (remove_first (5, (2, 1)) (astar_open_set st))
          ({[(2, 1)]} ∪ astar_closed_set st)
          (astar_came_from st) (astar_g_score st) (astar_f_score st)
          (S (astar_nodes_visited st)) (astar_nodes_explored st)
          (astar_trace st ++ [Pop (2, 1)]).

Lemma repush_state_reached :
  astar_step repush_grid (0, 3)
    (astar_iterate repush_grid (0, 3) 6 (astar_init (2, 0) (0, 3))) =
  inl (fold_left (astar_neighbor (0, 3) (2, 1))
         (get_neighbors repush_grid (2, 1)) repush_state).
Proof. vm_compute. reflexivity. Qed.

(** C3, as stated, does not hold: no relaxation of a coordinate that is in
    the open list changes the open list; and on [repush_grid] such a
    relaxation happens, the cost of (2,2) drops from 4 to 2 while its only
    entry stays at priority 7. *)
Lemma astar_never_repushes :
  (¬ ∃ goal current st neighbor,
       cheaper_in_open current st neighbor = true ∧
       astar_open_set (astar_neighbor goal current st neighbor) ≠
         astar_open_set st) ∧
  cheaper_in_open (2, 1) repush_state (2, 2) = true ∧
  astar_g_score repush_state !! (2, 2) = Some 4 ∧
  astar_open_set repush_state = [(7, (2, 2))] ∧
  astar_g_score (astar_neighbor (0, 3) (2, 1) repush_state (2, 2)) !! (2, 2) = Some 2 ∧
  astar_open_set (astar_neighbor (0, 3) (2, 1) repush_state (2, 2)) = [(7, (2, 2))].
Proof.
  split.
  - intros (goal & current & st & neighbor & H & Hne).
    by rewrite (astar_neighbor_in_open _ _ _ _ H) in Hne.
  - repeat split; vm_compute; reflexivity.
Qed.

(** ** The entry point [find_path]: properties *)

(** C6, as the code has it.  When the start or the goal position is
    missing, [find_path] shows the warning and returns before anything else:
    nothing is cleared, nothing is scheduled, no run takes place. *)
Theorem find_path_missing app :
  start_pos app = None ∨ goal_pos app = None →
  find_path app = MissingPositions.
Proof.
  unfold find_path. intros [-> | ->]; [done|]. by destruct (start_pos app).
Qed.

Definition obstacle_start : Picker :=
  MkPicker (MkWarehouse 1 2 [[OBSTACLE; EMPTY]]) (Some (0, 0)) (Some (0, 1))
           false BFS 15 None.

Definition outside_start : Picker :=
  MkPicker (MkWarehouse 1 2 [[EMPTY; EMPTY]]) (Some (0, 5)) (Some (0, 1))
           false BFS 15 None.

(** C6, as stated, does not hold: with the start on an obstacle
    [find_path] gives no warning; [clear_path] overwrites the obstacle with
    [START], the run is scheduled and it finds a path.  With the start
    outside the grid [find_path] is left by an [IndexError], not by the
    warning. *)
Lemma find_path_unchecked_positions :
  wf_grid (warehouse obstacle_start) ∧
  invalid_position (warehouse obstacle_start) (start_pos obstacle_start) ∧
  (∃ app',
     find_path obstacle_start = Scheduled BFS app' ∧
     grid (warehouse app') = [[START; GOAL]] ∧
     returns (run_scheduled BFS app')
       (MkResult (PathFound [(0, 0); (0, 1)]) 2 2
                 [Push (0, 0); Pop (0, 0); Push (0, 1); Pop (0, 1)])) ∧
  wf_grid (warehouse outside_start) ∧
  invalid_position (warehouse outside_start) (start_pos outside_start) ∧
  find_path outside_start = IndexError.
Proof.
  split_and!.
  - split; [reflexivity|repeat constructor].
  - right. reflexivity.
  - eexists. split; [reflexivity|]. split; [reflexivity|].
    apply (run_bfs_eval _ _ _ 10). vm_compute. reflexivity.
  - split; [reflexivity|repeat constructor].
  - left. reflexivity.
  - reflexivity.
Qed.

(** ** Runs on small grids *)

(** The 5 x 5 grid without obstacles, from corner to corner: the
    breadth-first path has 9 cells and all 25 cells are dequeued. *)
Example bfs_five_by_five :
  ∃ r path, returns (run_bfs (empty_grid 5 5) (0, 0) (4, 4)) r ∧
            result r = PathFound path ∧ length path = 9%nat ∧
            nodes_visited r = 25%nat ∧ nodes_explored r = 25%nat.
Proof.
  eexists _, _. split; [apply (run_bfs_eval _ _ _ 40); vm_compute; reflexivity|].
  repeat split.
Qed.

(** Depth-first search puts (1,1) on its stack twice on the 3 x 3 grid. *)
Example dfs_pushes_twice :
  ∃ r, returns (run_dfs (empty_grid 3 3) (0, 0) (2, 2)) r ∧
       result r = PathFound [(0, 0); (0, 1); (0, 2); (1, 2); (2, 2)] ∧
       pushes (trace r) =
         [(0, 0); (1, 0); (0, 1); (1, 1); (0, 2); (1, 2); (1, 1); (2, 2)].
Proof.
  eexists. split; [apply (run_dfs_eval _ _ _ 40); vm_compute; reflexivity|].
  repeat split.
Qed.

(** Uniform-cost search on the same grid dequeues all nine cells. *)
Example ucs_three_by_three :
  ∃ r, returns (run_ucs (empty_grid 3 3) (0, 0) (2, 2)) r ∧
       result r = PathFound [(0, 0); (0, 1); (0, 2); (1, 2); (2, 2)] ∧
       nodes_visited r = 9%nat ∧ nodes_explored r = 9%nat.
Proof.
  eexists. split; [apply (run_ucs_eval _ _ _ 40); vm_compute; reflexivity|].
  repeat split.
Qed.

(** ** The theorems at concrete inputs *)

Lemma empty_grid_wf r c : wf_grid (empty_grid r c).
Proof.
  split; simpl.
  - by rewrite length_replicate.
  - apply Forall_replicate. by rewrite length_replicate.
Qed.

Lemma square_path :
  grid_path (empty_grid 2 2) (0, 0) (1, 1) [(0, 0); (0, 1); (1, 1)].
Proof.
  unfold grid_path, adjacent4. split_and!; try done.
  all: try (repeat constructor); simpl; lia.
Qed.

Lemma row_segment_free p :
  on_segment (0, 0) (0, 2) p → p ≠ (0, 0) →
  is_obstacle (empty_grid 1 3) p = false.
Proof.
  destruct p as [r c]. unfold on_segment, between. simpl. intros H _.
  assert (r = 0 ∧ (c = 0 ∨ c = 1 ∨ c = 2)) as [-> [->|[->| ->]]] by lia;
    reflexivity.
Qed.

Lemma run_bfs_shortest_witness :
  wf_grid (empty_grid 2 2) ∧
  (∃ p, grid_path (empty_grid 2 2) (0, 0) (1, 1) p) ∧
  ∃ r path,
    returns (run_bfs (empty_grid 2 2) (0, 0) (1, 1)) r ∧
    result r = PathFound path ∧
    grid_path (empty_grid 2 2) (0, 0) (1, 1) path ∧
    (∀ p', grid_path (empty_grid 2 2) (0, 0) (1, 1) p' →
           (length path ≤ length p')%nat) ∧
    NoDup (pushes (trace r)).
Proof.
  split; [apply empty_grid_wf|].
  split; [eexists; apply square_path|].
  apply (run_bfs_shortest (empty_grid 2 2) (0, 0) (1, 1)).
  - apply empty_grid_wf.
  - eexists. apply square_path.
Defined.

Lemma straight_line_path_length_witness :
  wf_grid (empty_grid 1 3) ∧
  in_bounds (empty_grid 1 3) (0, 0) = true ∧
  in_bounds (empty_grid 1 3) (0, 2) = true ∧
  aligned (0, 0) (0, 2) ∧
  (∀ p, on_segment (0, 0) (0, 2) p → p ≠ (0, 0) →
        is_obstacle (empty_grid 1 3) p = false) ∧
  (∃ r path, returns (run_bfs (empty_grid 1 3) (0, 0) (0, 2)) r ∧
             result r = PathFound path ∧
             Z.of_nat (length path) = heuristic (0, 0) (0, 2) + 1) ∧
  (∃ r path, returns (run_ucs (empty_grid 1 3) (0, 0) (0, 2)) r ∧
             result r = PathFound path ∧
             Z.of_nat (length path) = heuristic (0, 0) (0, 2) + 1) ∧
  (∃ r path, returns (run_astar (empty_grid 1 3) (0, 0) (0, 2)) r ∧
             result r = PathFound path ∧
             Z.of_nat (length path) = heuristic (0, 0) (0, 2) + 1).
Proof.
  split; [apply empty_grid_wf|].
  split; [reflexivity|]. split; [reflexivity|]. split; [by left|].
  split; [apply row_segment_free|].
  apply (straight_line_path_length (empty_grid 1 3) (0, 0) (0, 2)).
  - apply empty_grid_wf.
  - reflexivity.
  - reflexivity.
  - by left.
  - apply row_segment_free.
Defined.

Lemma astar_keeps_open_entry_witness :
  cheaper_in_open (2, 1) repush_state (2, 2) = true ∧
  let st' := astar_neighbor (0, 3) (2, 1) repush_state (2, 2) in
  let g := default 0 (astar_g_score repush_state !! (2, 1)) + 1 in
  astar_open_set st' = astar_open_set repush_state ∧
  astar_trace st' = astar_trace repush_state ∧
  astar_nodes_explored st' = astar_nodes_explored repush_state ∧
  astar_came_from st' !! (2, 2) = Some (2, 1) ∧
  astar_g_score st' !! (2, 2) = Some g ∧
  astar_f_score st' !! (2, 2) = Some (g + heuristic (2, 2) (0, 3)).
Proof.
  split; [vm_compute; reflexivity|].
  apply (astar_keeps_open_entry (0, 3) (2, 1) repush_state (2, 2)).
  vm_compute; reflexivity.
Defined.

Definition no_goal : Picker :=
  MkPicker (empty_grid 2 2) (Some (0, 0)) None false BFS 15 None.

Lemma find_path_missing_witness :
  (start_pos no_goal = None ∨ goal_pos no_goal = None) ∧
  find_path no_goal = MissingPositions.
Proof.
  split; [by right|]. apply (find_path_missing no_goal). by right.
Defined.

Lemma get_neighbors_spec_witness :
  wf_grid repush_grid ∧ in_bounds repush_grid (1, 2) = true ∧
  get_neighbors repush_grid (1, 2) =
    filter (λ q, in_bounds repush_grid q = true ∧
                 cell repush_grid q.1 q.2 ≠ OBSTACLE)
           [((1, 2).1 - 1, (1, 2).2); ((1, 2).1, (1, 2).2 + 1);
            ((1, 2).1 + 1, (1, 2).2); ((1, 2).1, (1, 2).2 - 1)] ∧
  (length (get_neighbors repush_grid (1, 2)%Z) ≤ 4)%nat.
Proof.
  assert (wf_grid repush_grid) as Hwf by (split; [reflexivity|repeat constructor]).
  split; [exact Hwf|]. split; [reflexivity|].
  apply (get_neighbors_spec repush_grid (1, 2) Hwf). reflexivity.
Defined.

Lemma run_bfs_le_run_dfs_witness :
  wf_grid (empty_grid 2 2) ∧
  (∃ p, grid_path (empty_grid 2 2) (0, 0) (1, 1) p) ∧
  ∃ rb rd pb pd,
    returns (run_bfs (empty_grid 2 2) (0, 0) (1, 1)) rb ∧
    result rb = PathFound pb ∧
    returns (run_dfs (empty_grid 2 2) (0, 0) (1, 1)) rd ∧
    result rd = PathFound pd ∧
    (length pb ≤ length pd)%nat.
Proof.
  split; [apply empty_grid_wf|].
  split; [eexists; apply square_path|].
  apply (run_bfs_le_run_dfs (empty_grid 2 2) (0, 0) (1, 1)).
  - apply empty_grid_wf.
  - eexists. apply square_path.
Defined.

Lemma search_loops_terminate_witness :
  wf_grid (empty_grid 2 2) ∧
  in_bounds (empty_grid 2 2) (0, 0) = true ∧
  in_bounds (empty_grid 2 2) (1, 1) = true ∧
  all_terminate (empty_grid 2 2) (0, 0) (1, 1) 15.
Proof.
  split; [apply empty_grid_wf|]. split; [reflexivity|]. split; [reflexivity|].
  apply (search_loops_terminate (empty_grid 2 2) (0, 0) (1, 1) 15).
  - apply empty_grid_wf.
  - reflexivity.
  - reflexivity.
Defined.

(** * Further properties of the engine *)

(** ** The heuristic *)

(** X1. The Manhattan distance is a metric on coordinates: it is never
    negative, it is zero exactly between a coordinate and itself, it is
    symmetric and it satisfies the triangle inequality. *)
Theorem heuristic_metric (a b c : pos) :
  0 ≤ heuristic a b ∧
  (heuristic a b = 0 ↔ a = b) ∧
  heuristic a b = heuristic b a ∧
  heuristic a c ≤ heuristic a b + heuristic b c.
Proof.
  destruct a as [a1 a2], b as [b1 b2], c as [c1 c2]. unfold heuristic. simpl.
  split_and!; try lia. split.
  - intros H. f_equal; lia.
  - intros [= -> ->]. lia.
Qed.

(** X2. The heuristic is consistent: one move to a neighbour changes the
    distance to any goal by exactly one. *)
Theorem heuristic_consistent w (p q goal : pos) :
  q ∈ get_neighbors w p →
  Z.abs (heuristic p goal - heuristic q goal) = 1.
Proof.
  intros [_ Hadj]%elem_of_get_neighbors.
  destruct p as [p1 p2], q as [q1 q2], goal as [g1 g2].
  unfold heuristic, adjacent4 in *. simpl in *. lia.
Qed.

(** X3. The heuristic is admissible: a path of free, 4-adjacent cells from
    [start] to [goal] has at least Manhattan distance plus one cells. *)
Theorem heuristic_admissible w (start goal : pos) (p : list pos) :
  grid_path w start goal p →
  heuristic start goal + 1 ≤ Z.of_nat (length p).
Proof.
  intros Hp. pose proof (grid_path_length _ _ _ _ Hp).
  pose proof (reach_heuristic _ _ _ _ (grid_path_reach _ _ _ _ Hp)). lia.
Qed.

(** ** The neighbour relation *)

(** X4. [get_neighbors] never lists a cell twice and never lists the
    position itself. *)
Theorem get_neighbors_distinct w (p : pos) :
  NoDup (get_neighbors w p) ∧ p ∉ get_neighbors w p.
Proof.
  split.
  - rewrite get_neighbors_filter. apply NoDup_filter.
    destruct p as [r c]. unfold around. simpl.
    repeat (apply NoDup_cons; split;
            [rewrite ?elem_of_cons, elem_of_nil; intros H;
             repeat (destruct H as [H|H]); try done; injection H; lia|]).
    apply NoDup_nil_2.
  - intros [_ H]%elem_of_get_neighbors. unfold adjacent4 in H. lia.
Qed.


(** ** Path reconstruction *)

Lemma reconstruct_loop_sound fuel came_from v acc p :
  reconstruct_loop fuel came_from v acc = Some p →
  ∃ l, chain came_from v (l ++ [v]) ∧ p = l ++ rev acc.
Proof.
  revert v acc. induction fuel as [|fuel IH]; intros v acc; simpl;
    destruct (came_from !! v) as [u|] eqn:Hv; try done.
  - intros [= <-]. exists []. split; [by constructor|done].
  - intros (l & Hc & ->)%IH. exists (l ++ [u]). split.
    + by apply chain_link with u.
    + by rewrite rev_app_distr, <- app_assoc.
  - intros [= <-]. exists []. split; [by constructor|done].
Qed.

Lemma chain_head came_from v p :
  chain came_from v p → ∃ root, head p = Some root ∧ came_from !! root = None.
Proof.
  induction 1 as [v Hv|v u p Hv Hc (root & Hh & Hr)]; [by exists v|].
  exists root. split; [|done]. by destruct p.
Qed.

Lemma chain_chained came_from v p :
  chain came_from v p → chained (λ a b, came_from !! b = Some a) p.
Proof.
  induction 1 as [v Hv|v u p Hv Hc IH]; [done|].
  apply chained_snoc with u; [done| |done]. by eapply chain_last.
Qed.

(** X6. What [reconstruct_path] returns is the predecessor chain of
    [current]: it ends at [current], begins at a cell without predecessor,
    and each cell is the recorded predecessor of the next. *)
Theorem reconstruct_path_sound fuel came_from (current : pos) (p : list pos) :
  reconstruct_path fuel came_from current = Some p →
  last p = Some current ∧
  (∃ root, head p = Some root ∧ came_from !! root = None) ∧
  chained (λ a b, came_from !! b = Some a) p.
Proof.
  unfold reconstruct_path. intros (l & Hc & ->)%reconstruct_loop_sound.
  simpl. split_and!.
  - by eapply chain_last.
  - by eapply chain_head.
  - by eapply chain_chained.
Qed.

(** X7. [reconstruct_path] has no guard against cycles: when the
    predecessors of [current] never leave a set of cells that all have a
    predecessor, its loop does not end, whatever the number of iterations
    allowed. *)
Theorem reconstruct_path_cycle (P : pos → Prop) came_from (current : pos) :
  (∀ v, P v → ∃ u, came_from !! v = Some u ∧ P u) →
  P current →
  ∀ fuel, reconstruct_path fuel came_from current = None.
Proof.
  intros Hcl Hcur fuel. unfold reconstruct_path.
  generalize [current] as acc. revert current Hcur.
  induction fuel as [|fuel IH]; intros v Hv acc; simpl;
    destruct (Hcl v Hv) as (u & -> & Hu); [done|]. by apply IH.
Qed.

(** ** Soundness and completeness of the searches *)

(** [goal] can be reached from [start] by moves to listed neighbours. *)
Definition connected (w : Warehouse) (start goal : pos) : Prop :=
  ∃ p, head p = Some start ∧ last p = Some goal ∧ moves w p.

Lemma reach_moves w start k v :
  reach w start k v →
  ∃ p, head p = Some start ∧ last p = Some v ∧ moves w p ∧ length p = S k.
Proof.
  induction 1 as [|k u v _ (p & Hh & Hl & Hm & Hlen) Hv].
  - by exists [start].
  - exists (p ++ [v]). split_and!.
    + by destruct p.
    + by rewrite last_snoc.
    + by apply chained_snoc with u.
    + rewrite length_app. simpl. lia.
Qed.

Lemma connected_reach w start goal :
  connected w start goal ↔ ∃ k, reach w start k goal.
Proof.
  split.
  - intros (p & Hh & Hl & Hm). eexists. by eapply moves_reach.
  - intros [k (p & ? & ? & ? & _)%reach_moves]. by exists p.
Qed.

Lemma returns_inj {R : Type} (f : nat → option R) r r' :
  returns f r → returns f r' → r = r'.
Proof.
  intros [N H] [N' H']. specialize (H (N + N')%nat ltac:(lia)).
  specialize (H' (N + N')%nat ltac:(lia)). congruence.
Qed.

(** What a run that cannot be cut off reports: a path of moves from
    [start] to [goal], or the absence of any. *)
Definition search_ok (w : Warehouse) (start goal : pos) (r : run_result) : Prop :=
  match result r with
  | PathFound p => head p = Some start ∧ last p = Some goal ∧ moves w p
  | NoPathFound => ¬ connected w start goal
  | NoPathWithinLimit => False
  end.

Lemma result_ok_search_ok w start goal b r :
  result_ok w start goal b r → search_ok w start goal r.
Proof.
  intros (_ & _ & H). unfold search_ok. destruct (result r); [tauto| |done].
  rewrite connected_reach. intros [k Hk]. by apply (H k).
Qed.

(** X8. Breadth-first, depth-first and uniform-cost search are sound and
    complete: each run ends; it reports a path exactly when [goal] can be
    reached from [start], and the path it reports is one of moves from
    [start] to [goal]; otherwise it reports that no path exists. *)
Theorem uninformed_search_complete w (start goal : pos) :
  wf_grid w →
  ∀ run, run ∈ [run_bfs w start goal; run_dfs w start goal;
                run_ucs w start goal] →
  ∃ r, returns run r ∧ search_ok w start goal r ∧
       (connected w start goal ↔ ∃ p, result r = PathFound p).
Proof.
  intros _ run Hrun.
  assert (∃ r, returns run r ∧ search_ok w start goal r) as (r & Hret & Hok).
  { repeat (apply elem_of_cons in Hrun as [->|Hrun]).
    - destruct (run_bfs_spec w start goal) as (r & ? & ? & _).
      exists r. eauto using result_ok_search_ok.
    - destruct (run_dfs_spec w start goal) as (r & ? & ?).
      exists r. eauto using result_ok_search_ok.
    - destruct (run_ucs_spec w start goal) as (r & ? & ?).
      exists r. eauto using result_ok_search_ok.
    - by apply elem_of_nil in Hrun. }
  exists r. split_and!; [done..|]. unfold search_ok in Hok.
  destruct (result r) as [p| |]; [|split; [done|by intros [? ?]]|done].
  split; [by exists p|]. intros _. by exists p.
Qed.

(** X9. Uniform-cost search returns a shortest path: when a path of free
    cells from [start] to [goal] exists, [run_ucs] returns such a path and
    no path has fewer cells. *)
Theorem run_ucs_shortest w (start goal : pos) :
  wf_grid w →
  (∃ p, grid_path w start goal p) →
  ∃ r path, returns (run_ucs w start goal) r ∧ result r = PathFound path ∧
    grid_path w start goal path ∧
    ∀ q, grid_path w start goal q → (length path ≤ length q)%nat.
Proof.
  intros _ [p0 Hp0]. pose proof (grid_path_reach _ _ _ _ Hp0) as Hreach.
  destruct (run_ucs_spec w start goal) as (r & Hr & (_ & _ & Hres)).
  destruct (result r) as [path| |] eqn:Hresult; [|by destruct (Hres _ Hreach)|done].
  destruct Hres as (Hh & Hl & Hm & Hmin).
  exists r, path. split_and!; try done.
  - apply moves_grid_path; try done. by eapply grid_path_start_free.
  - intros q Hq. pose proof (grid_path_length _ _ _ _ Hq).
    specialize (Hmin eq_refl _ (grid_path_reach _ _ _ _ Hq)). lia.
Qed.

(** ** A*: completeness *)

Section astar_complete.
Context (w : Warehouse) (start goal : pos).

(** Every coordinate with a cost is closed or in the open list; the
    neighbours of a closed cell all have a cost, except, while [x] is being
    expanded, those of [x] that the inner loop has not reached yet. *)
Definition astar_cover_mid (x : option pos) (pre : list pos) (st : astar_state)
  : Prop :=
  (∀ v, is_Some (astar_g_score st !! v) →
        v ∈ astar_closed_set st ∨ v ∈ (astar_open_set st).*2) ∧
  (∀ u, u ∈ astar_closed_set st → is_Some (astar_g_score st !! u)) ∧
  (∀ u v, u ∈ astar_closed_set st → v ∈ get_neighbors w u →
          x ≠ Some u ∨ v ∈ pre → is_Some (astar_g_score st !! v)) ∧
  goal ∉ astar_closed_set st.

Definition astar_cover (st : astar_state) : Prop := astar_cover_mid None [] st.

Lemma astar_cover_init : astar_cover (astar_init start goal).
Proof.
  split_and!; simpl; try set_solver.
  intros v [z Hz]. apply lookup_singleton_Some in Hz as [<- _]. set_solver.
Qed.

Lemma astar_cover_neighbor x pre st n :
  x ∈ astar_closed_set st →
  astar_cover_mid (Some x) pre st →
  astar_cover_mid (Some x) (pre ++ [n]) (astar_neighbor goal x st n) ∧
  astar_closed_set (astar_neighbor goal x st n) = astar_closed_set st.
Proof.
  intros Hx (Hk & Hc & Hn & Hg). destruct (Hc x Hx) as [gx Hgx].
  destruct (astar_neighbor_cases goal x gx st n Hgx) as
    [[-> Hsame]|(Hnc & _ & [[Ho ->]|[Ho ->]])]; simpl.
  - split; [|done]. split_and!; try done.
    intros u v Hu Hv [Hne|[Hin| ->%list_elem_of_singleton]%elem_of_app];
      [apply (Hn u v); tauto|apply (Hn u v); tauto|].
    destruct Hsame as [?|(gn & -> & _)]; [by apply Hc|done].
  - split; [|done]. split_and!; simpl; try done.
    + intros v [->|Hv]%lookup_insert_is_Some'; [by right|by apply Hk].
    + intros u Hu. apply lookup_insert_is_Some'. right. by apply Hc.
    + intros u v Hu Hv [Hne|[Hin| ->%list_elem_of_singleton]%elem_of_app];
        apply lookup_insert_is_Some'; [right|right|by left];
        by apply (Hn u v); [..|tauto].
  - split; [|done]. split_and!; simpl; try done.
    + intros v [->|Hv]%lookup_insert_is_Some'.
      * right. unfold heappush. rewrite fmap_app. set_solver.
      * destruct (Hk v Hv); [by left|right].
        unfold heappush. rewrite fmap_app. set_solver.
    + intros u Hu. apply lookup_insert_is_Some'. right. by apply Hc.
    + intros u v Hu Hv [Hne|[Hin| ->%list_elem_of_singleton]%elem_of_app];
        apply lookup_insert_is_Some'; [right|right|by left];
        by apply (Hn u v); [..|tauto].
Qed.

Lemma astar_cover_fold x st ns :
  x ∈ astar_closed_set st →
  astar_cover_mid (Some x) [] st →
  astar_cover_mid (Some x) ns (fold_left (astar_neighbor goal x) ns st).
Proof.
  intros Hx Hc.
  apply (fold_left_inv (astar_neighbor goal x)
           (λ pre st', astar_cover_mid (Some x) pre st' ∧
                       astar_closed_set st' = astar_closed_set st)); [done|].
  intros pre n st' [Hmid Hcl] _.
  destruct (astar_cover_neighbor x pre st' n) as [? ?]; [by rewrite Hcl|done|].
  split; [done|congruence].
Qed.

Lemma astar_cover_step st st' :
  astar_inv w start st ∧ astar_cover st → astar_step w goal st = inl st' →
  (astar_inv w start st' ∧ astar_cover st') ∧
  (astar_measure w start st' < astar_measure w start st)%nat.
Proof.
  intros [Hinv (Hk & Hc & Hn & Hg)] Hstep.
  destruct (astar_step_inv w start goal st st' Hinv Hstep) as [Hinv' Hlt].
  split; [|done]. split; [done|].
  revert Hstep. unfold astar_step.
  destruct (heappop (astar_open_set st)) as [[[k x] open_set]|] eqn:Hpop; [|done].
  case_decide as Hxg; [done|]. intros [= <-].
  apply heappop_Some in Hpop as (Hin & _ & ->).
  match goal with |- astar_cover (fold_left _ _ ?s) => set (st1 := s) end.
  assert (astar_cover_mid (Some x) [] st1) as Hmid.
  { split_and!; simpl.
    - intros v Hv. destruct (decide (v = x)) as [->|Hvx]; [set_solver|].
      destruct (Hk v Hv) as [?|Ho]; [set_solver|right].
      apply list_elem_of_fmap in Ho as ([k' v'] & -> & Ho).
      apply list_elem_of_fmap. exists (k', v'). split; [done|].
      apply remove_first_keeps; [done|]. naive_solver.
    - intros u [->%elem_of_singleton|Hu]%elem_of_union; [|by apply Hc].
      apply (ai_g _ _ _ Hinv). apply list_elem_of_fmap. by exists (k, x).
    - intros u v Hu Hv [Hne|Hnil]; [|by apply elem_of_nil in Hnil].
      apply elem_of_union in Hu as [->%elem_of_singleton|Hu]; [done|].
      apply (Hn u v); [done..|by left].
    - set_solver. }
  pose proof (astar_cover_fold x st1 (get_neighbors w x)) as (Hk' & Hc' & Hn' & Hg');
    [set_solver|done|].
  split_and!; try done. intros u v Hu Hv _.
  destruct (decide (u = x)) as [->|Hne].
  - apply (Hn' x v); [done..|by right].
  - apply (Hn' u v); [done..|left; congruence].
Qed.

Definition astar_complete_post (r : loop_exit astar_state) : Prop :=
  astar_post w start goal r ∧
  match r with
  | Reached _ _ => True
  | Exhausted _ => ∀ k, ¬ reach w start k goal
  end.

Lemma astar_cover_exit st r :
  astar_inv w start st ∧ astar_cover st → astar_step w goal st = inr r →
  astar_complete_post r.
Proof.
  intros [Hinv (Hk & Hc & Hn & Hg)] Hstep.
  split; [by eapply astar_step_exit|].
  revert Hstep. unfold astar_step.
  destruct (heappop (astar_open_set st)) as [[[k x] open_set]|] eqn:Hpop.
  { case_decide; [|done]. by intros [= <-]. }
  intros [= <-]. apply heappop_None in Hpop. intros k Hreach.
  assert (∀ k v, reach w start k v → v ∈ astar_closed_set st) as Hall.
  { assert (∀ v, is_Some (astar_g_score st !! v) → v ∈ astar_closed_set st) as Hd.
    { intros v Hv. destruct (Hk v Hv) as [?|Ho]; [done|].
      rewrite Hpop in Ho. by apply elem_of_nil in Ho. }
    clear k Hreach. induction 1 as [|k u v _ IH Hv].
    - apply Hd. by rewrite (proj1 (ai_start _ _ _ Hinv)).
    - apply Hd. apply (Hn u v); [done..|by left]. }
  by apply Hg, (Hall k).
Qed.

Lemma astar_complete_total :
  ∃ r, astar_complete_post r ∧
    ∀ fuel, (astar_measure w start (astar_init start goal) < fuel)%nat →
      while_loop (astar_step w goal) fuel (astar_init start goal) = Some r.
Proof.
  apply (while_loop_total (astar_step w goal)
           (λ st, astar_inv w start st ∧ astar_cover st)
           (astar_measure w start) astar_complete_post).
  - apply astar_cover_step.
  - apply astar_cover_exit.
  - split; [apply astar_inv_init|apply astar_cover_init].
Qed.
End astar_complete.

(** X10. A* is sound and complete: the run ends; it reports a path exactly
    when [goal] can be reached from [start], and the path it reports is one
    of moves from [start] to [goal]; otherwise it reports that no path
    exists. *)
Theorem run_astar_complete w (start goal : pos) :
  wf_grid w →
  ∃ r, returns (run_astar w start goal) r ∧ search_ok w start goal r ∧
       (connected w start goal ↔ ∃ p, result r = PathFound p).
Proof.
  intros _.
  destruct (astar_complete_total w start goal) as (e & [Hpost Hex] & Hrun).
  destruct e as [st current|st]; simpl in *.
  - destruct Hpost as (-> & (p & Hc & Hh & Hm) & _).
    exists (MkResult (PathFound p) (astar_nodes_visited st)
                     (astar_nodes_explored st) (astar_trace st)).
    assert (last p = Some goal) as Hl by (by eapply chain_last).
    split_and!.
    + exists (S (astar_measure w start (astar_init start goal)) + length p)%nat.
      intros fuel Hf. unfold run_astar. rewrite Hrun by lia.
      by rewrite (reconstruct_path_chain _ _ _ Hc) by lia.
    + done.
    + simpl. split; [by exists p|]. intros _. by exists p.
  - exists (MkResult NoPathFound (astar_nodes_visited st)
                     (astar_nodes_explored st) (astar_trace st)).
    assert (¬ connected w start goal) as Hno.
    { rewrite connected_reach. intros [k Hk]. by apply (Hex k). }
    split_and!.
    + exists (S (astar_measure w start (astar_init start goal))).
      intros fuel Hf. unfold run_astar. by rewrite Hrun by lia.
    + done.
    + simpl. split; [done|by intros [? ?]].
Qed.

(** ** Depth-limited search with a limit that cannot be reached *)

Lemma size_list_to_set_le (l : list pos) :
  (size (list_to_set l : gset pos) ≤ length l)%nat.
Proof.
  induction l as [|x l IH]; simpl; [done|].
  rewrite size_union_alt, size_singleton.
  pose proof (subseteq_size (list_to_set l ∖ {[x]}) (list_to_set l : gset pos)
                ltac:(set_solver)). lia.
Qed.

(** The grid has at most [rows * cols] cells. *)
Lemma size_all_cells w :
  0 ≤ rows w → 0 ≤ cols w → Z.of_nat (size (all_cells w)) ≤ rows w * cols w.
Proof.
  intros Hr Hc. unfold all_cells.
  pose proof (size_list_to_set_le (cprod (seqZ 0 (rows w)) (seqZ 0 (cols w)))) as H.
  rewrite list_cprod_list_prod in *. rewrite length_prod, !length_seqZ in H.
  apply inj_le in H. rewrite Nat2Z.inj_mul, !Z2Nat.id in H by lia. exact H.
Qed.

Lemma size_universe w (start : pos) :
  in_bounds w start = true →
  Z.of_nat (size ({[start]} ∪ all_cells w)) ≤ rows w * cols w.
Proof.
  intros Hs. replace ({[start]} ∪ all_cells w) with (all_cells w).
  - unfold in_bounds in Hs. apply size_all_cells; lia.
  - apply elem_of_all_cells in Hs. set_solver.
Qed.

Section dls_unlimited.
Context (w : Warehouse) (start goal : pos) (depth_limit : Z).
Hypothesis Hbig : Z.of_nat (size ({[start]} ∪ all_cells w)) ≤ depth_limit.

(** The depth of a stack entry is at most the number of visited cells. *)
Definition dls_shallow (st : dls_state) : Prop :=
  dfs_full w start goal (dls_erase st) ∧
  ∀ v d, (v, d) ∈ dls_stack st → d ≤ Z.of_nat (size (dls_visited st)).

(** With such a limit an iteration of [run_dls] is an iteration of
    [run_dfs] on the state without its depth counters. *)
Lemma dls_step_dfs st :
  dls_shallow st →
  match dls_step w goal depth_limit st with
  | inl st' => dfs_step w goal (dls_erase st) = inl (dls_erase st') ∧
               dls_shallow st'
  | inr r => dfs_step w goal (dls_erase st) = inr (erase_exit r)
  end.
Proof.
  intros [Hfull Hd].
  assert (∀ st', dfs_step w goal (dls_erase st) = inl (dls_erase st') →
            (∀ v d, (v, d) ∈ dls_stack st' →
                    d ≤ Z.of_nat (size (dls_visited st'))) →
            dfs_step w goal (dls_erase st) = inl (dls_erase st') ∧
            dls_shallow st') as Hok.
  { intros st' Hst' Hd'. split; [done|]. split; [|done].
    by destruct (dfs_step_inv w start goal _ _ Hfull Hst'). }
  destruct Hfull as [[rank Hinv] _].
  destruct st as [stack V cf nv ne tr]. unfold dls_step, dfs_step, dls_erase in *.
  simpl in *. destruct stack as [|[x depth] stack]; [done|]. csimpl in *.
  case_decide as Hx.
  { apply Hok; [done|]. simpl. intros v d Hv. apply (Hd v d). by right. }
  case_decide as Hg; [done|].
  assert (x ∈ {[start]} ∪ all_cells w) as HxU
    by (apply (di_univ _ _ _ _ _ Hinv); simpl; set_solver).
  assert (size ({[x]} ∪ V) = S (size V)) as Hsize.
  { rewrite size_union by set_solver. by rewrite size_singleton. }
  assert (Z.of_nat (size ({[x]} ∪ V)) ≤ depth_limit) as Hle.
  { etrans; [|apply Hbig]. apply inj_le, subseteq_size.
    pose proof (proj1 (di_univ _ _ _ _ _ Hinv)). simpl in *. set_solver. }
  pose proof (Hd x depth ltac:(by left)) as Hdepth.
  rewrite decide_False by lia.
  apply Hok.
  - f_equal. rewrite dls_fold, dfs_fold. simpl.
    by rewrite fmap_app, fmap_rev, fst_tag_fmap.
  - rewrite dls_fold. simpl. intros v d [Hv|Hv]%elem_of_app.
    + apply elem_of_rev, list_elem_of_fmap in Hv as (n & [= -> ->] & _). lia.
    + specialize (Hd v d ltac:(by right)). lia.
Qed.

Lemma dls_unlimited_total :
  ∃ r, stack_exit_ok w start goal true (erase_exit r) ∧
    ∀ fuel, (dfs_measure w start (dfs_init start) < fuel)%nat →
      while_loop (dls_step w goal depth_limit) fuel (dls_init start) = Some r.
Proof.
  change (dfs_init start) with (dls_erase (dls_init start)).
  apply (while_loop_total (dls_step w goal depth_limit) dls_shallow
           (λ st, dfs_measure w start (dls_erase st))
           (λ r, stack_exit_ok w start goal true (erase_exit r))).
  - intros st st' Hst Hstep. pose proof (dls_step_dfs st Hst) as H.
    rewrite Hstep in H. destruct H as [Hdfs Hst']. split; [done|].
    destruct Hst as [Hfull _].
    by destruct (dfs_step_inv w start goal _ _ Hfull Hdfs).
  - intros st r Hst Hstep. pose proof (dls_step_dfs st Hst) as H.
    rewrite Hstep in H. destruct Hst as [Hfull _].
    by apply (dfs_step_exit w start goal _ _ Hfull H).
  - split.
    + split; [eexists; apply dfs_inv_init|]. intros u v Hu. simpl in Hu. set_solver.
    + simpl. intros v d [= -> ->]%list_elem_of_singleton. lia.
Qed.
End dls_unlimited.

(** X11. With a depth limit of at least the number of cells, and [start]
    inside the grid, depth-limited search never cuts a branch off: it is
    complete, and its "no path within limit" outcome means that [goal]
    cannot be reached at all. *)
Theorem run_dls_large_limit w (start goal : pos) (depth_limit : Z) :
  wf_grid w → in_bounds w start = true → rows w * cols w ≤ depth_limit →
  ∃ r, returns (run_dls w start goal depth_limit) r ∧
       match result r with
       | PathFound p => head p = Some start ∧ last p = Some goal ∧ moves w p
       | NoPathFound => False
       | NoPathWithinLimit => ¬ connected w start goal
       end.
Proof.
  intros _ Hs HL.
  destruct (dls_unlimited_total w start goal depth_limit) as (e & [He _] & Hrun).
  { etrans; [by apply size_universe|done]. }
  destruct e as [st current|st]; simpl in *.
  - destruct He as (-> & p & Hc & Hh & Hm).
    exists (MkResult (PathFound p) (dls_nodes_visited st)
                     (dls_nodes_explored st) (dls_trace st)).
    split.
    + exists (S (dfs_measure w start (dfs_init start)) + length p)%nat.
      intros fuel Hf. unfold run_dls. rewrite Hrun by lia.
      by rewrite (reconstruct_path_chain _ _ _ Hc) by lia.
    + simpl. split_and!; try done. by eapply chain_last.
  - exists (MkResult NoPathWithinLimit (dls_nodes_visited st)
                     (dls_nodes_explored st) (dls_trace st)).
    split.
    + exists (S (dfs_measure w start (dfs_init start))).
      intros fuel Hf. unfold run_dls. by rewrite Hrun by lia.
    + simpl. rewrite connected_reach. intros [k Hk]. by apply (He eq_refl k).
Qed.

(** X26. With a limit [L >= 0], depth-limited search never reports "no
    path exists"; a path that it returns is one of moves from [start] to
    [goal] with at most [L + 1] cells; and when [goal] cannot be reached in
    [L] moves or fewer the run ends with "no path within limit". *)
Theorem run_dls_path_within_limit w (start goal : pos) (depth_limit : Z) :
  wf_grid w → 0 ≤ depth_limit →
  ∃ r, returns (run_dls w start goal depth_limit) r ∧
       result r ≠ NoPathFound ∧
       (∀ p, result r = PathFound p →
             head p = Some start ∧ last p = Some goal ∧ moves w p ∧
             Z.of_nat (length p) ≤ depth_limit + 1) ∧
       ((∀ k, reach w start k goal → depth_limit < Z.of_nat k) →
        result r = NoPathWithinLimit).
Proof.
  intros _ HL.
  destruct (run_dls_within_limit w start goal depth_limit HL) as (r & Hret & Hres & Hfar).
  exists r. split_and!; [done| | |done].
  - intros Heq. by rewrite Heq in Hres.
  - intros p Heq. by rewrite Heq in Hres.
Qed.

(** ** The number of visited nodes *)

(** Partial correctness of a loop from an invariant. *)
Lemma while_loop_inv {S R : Type} (step : S → S + R)
    (Inv : S → Prop) (Post : R → Prop) :
  (∀ st st', Inv st → step st = inl st' → Inv st') →
  (∀ st r, Inv st → step st = inr r → Post r) →
  ∀ fuel st r, Inv st → while_loop step fuel st = Some r → Post r.
Proof.
  intros Hstep Hexit. induction fuel as [|fuel IH]; intros st r Hinv; [done|].
  simpl. destruct (step st) as [st'|r'] eqn:Hst.
  - apply IH. by eapply Hstep.
  - intros [= <-]. by eapply Hexit.
Qed.

Section visit_count.
Context (w : Warehouse) (start goal : pos).

Definition universe : gset pos := {[start]} ∪ all_cells w.

Lemma neighbor_universe x n : n ∈ get_neighbors w x → n ∈ universe.
Proof.
  intros Hn%get_neighbors_in_bounds%elem_of_all_cells. unfold universe. set_solver.
Qed.

Lemma size_add (x : pos) (V : gset pos) : x ∉ V → size ({[x]} ∪ V) = S (size V).
Proof. intros Hx. rewrite size_union by set_solver. by rewrite size_singleton. Qed.

(** Breadth-first search marks a cell when it enters the queue; the cells
    removed so far and the cells waiting are the marked ones. *)
Definition bfs_count (st : bfs_state) : Prop :=
  (bfs_nodes_visited st + length (bfs_queue st))%nat = size (bfs_visited st) ∧
  bfs_visited st ⊆ universe.

Definition bfs_count_exit (r : loop_exit bfs_state) : Prop :=
  let st := match r with Reached st _ | Exhausted st => st end in
  (bfs_nodes_visited st ≤ size universe)%nat.

Lemma bfs_count_loop fuel r :
  while_loop (bfs_step w goal) fuel (bfs_init start) = Some r → bfs_count_exit r.
Proof.
  apply (while_loop_inv (bfs_step w goal) bfs_count bfs_count_exit).
  - intros [queue V cf nv ne tr] st' [Hc HU]. unfold bfs_step. simpl in *.
    destruct queue as [|x queue]; [done|]. case_decide; [done|].
    intros [= <-]. rewrite bfs_fold. simpl.
    set (new := fresh V (get_neighbors w x)).
    assert (∀ n, n ∈ new → n ∈ get_neighbors w x ∧ n ∉ V) as Hnew
      by (intros n; apply elem_of_fresh).
    split; simpl.
    + rewrite size_union by (intros n; rewrite elem_of_list_to_set; naive_solver).
      rewrite size_list_to_set by apply NoDup_fresh.
      rewrite length_app. simpl in Hc. lia.
    + intros n [Hn%elem_of_list_to_set%Hnew|Hn]%elem_of_union; [|by apply HU].
      by apply (neighbor_universe x), Hn.
  - intros [queue V cf nv ne tr] r' [Hc HU]. unfold bfs_step, bfs_count_exit.
    simpl in *. pose proof (subseteq_size _ _ HU).
    destruct queue as [|x queue]; [intros [= <-]; simpl in *; lia|].
    case_decide; [|done]. intros [= <-]. simpl in *. lia.
  - split; [|unfold universe; simpl; set_solver].
    change ((0 + 1)%nat = size ({[start]} : gset pos)). by rewrite size_singleton.
Qed.

(** The stack-based searches mark a cell when it is removed and accepted. *)
Definition dfs_count (st : dfs_state) : Prop :=
  dfs_nodes_visited st = size (dfs_visited st) ∧
  dfs_visited st ⊆ universe ∧
  ∀ x, x ∈ dfs_stack st → x ∈ universe.

Definition dfs_count_exit (r : loop_exit dfs_state) : Prop :=
  let st := match r with Reached st _ | Exhausted st => st end in
  (dfs_nodes_visited st ≤ size universe)%nat.

Lemma dfs_count_init : dfs_count (dfs_init start).
Proof. split_and!; simpl; [done|done|]. unfold universe. set_solver. Qed.

Lemma dfs_count_skip x stack V cf nv ne tr tr' :
  dfs_count (MkDfs (x :: stack) V cf nv ne tr) →
  dfs_count (MkDfs stack V cf nv ne tr').
Proof. intros (Hc & HU & Hs). split_and!; simpl in *; set_solver. Qed.

Lemma dfs_count_accept x stack V cf nv ne tr new cf' ne' tr' :
  dfs_count (MkDfs (x :: stack) V cf nv ne tr) → x ∉ V →
  (∀ n, n ∈ new → n ∈ get_neighbors w x) →
  dfs_count (MkDfs (new ++ stack) ({[x]} ∪ V) cf' (S nv) ne' tr').
Proof.
  intros (Hc & HU & Hs) Hx Hnew. simpl in *. split_and!; simpl.
  - rewrite size_add by done. lia.
  - specialize (Hs x). set_solver.
  - intros n [Hn%Hnew|Hn]%elem_of_app; [by eapply neighbor_universe|].
    apply Hs. by right.
Qed.

Lemma dfs_count_bound st :
  dfs_count st → (dfs_nodes_visited st ≤ size universe)%nat.
Proof. intros (-> & HU & _). by apply subseteq_size. Qed.

Lemma dfs_count_loop fuel r :
  while_loop (dfs_step w goal) fuel (dfs_init start) = Some r → dfs_count_exit r.
Proof.
  apply (while_loop_inv (dfs_step w goal) dfs_count dfs_count_exit);
    [| |apply dfs_count_init].
  - intros [stack V cf nv ne tr] st' Hc. unfold dfs_step. simpl.
    destruct stack as [|x stack]; [done|]. case_decide as Hx.
    { intros [= <-]. by apply (dfs_count_skip x _ _ _ _ _ tr). }
    case_decide; [done|]. intros [= <-]. rewrite dfs_fold. simpl.
    apply (dfs_count_accept x stack V cf nv ne tr); [done..|].
    intros n Hn. rewrite elem_of_rev, list_elem_of_filter, elem_of_rev in Hn.
    tauto.
  - intros [stack V cf nv ne tr] r' Hc. unfold dfs_step. simpl.
    destruct stack as [|x stack]; [intros [= <-]; by apply dfs_count_bound|].
    case_decide as Hx; [done|]. case_decide; [|done]. intros [= <-].
    apply dfs_count_bound.
    apply (dfs_count_accept x stack V cf nv ne tr []);
      [done|done|by intros n Hn%elem_of_nil].
Qed.

Lemma dls_count_loop depth_limit fuel r :
  while_loop (dls_step w goal depth_limit) fuel (dls_init start) = Some r →
  dfs_count_exit (erase_exit r).
Proof.
  apply (while_loop_inv (dls_step w goal depth_limit)
           (λ st, dfs_count (dls_erase st))
           (λ r, dfs_count_exit (erase_exit r))); [| |apply dfs_count_init].
  - intros [stack V cf nv ne tr] st' Hc. unfold dls_step, dls_erase in *.
    simpl in *. destruct stack as [|[x depth] stack]; [done|]. csimpl in *.
    case_decide as Hx.
    { intros [= <-]. by apply (dfs_count_skip x _ _ _ _ _ tr). }
    case_decide; [done|]. case_decide.
    { intros [= <-].
      apply (dfs_count_accept x stack.*1 V cf nv ne tr [] cf ne (tr ++ [Pop x])
               Hc Hx).
      by intros n Hn%elem_of_nil. }
    intros [= <-]. rewrite dls_fold. simpl.
    rewrite fmap_app, fmap_rev, fst_tag_fmap.
    apply (dfs_count_accept x stack.*1 V cf nv ne tr); [done..|].
    intros n Hn. rewrite elem_of_rev, list_elem_of_filter, elem_of_rev in Hn.
    tauto.
  - intros [stack V cf nv ne tr] r' Hc. unfold dls_step, dls_erase in *.
    simpl in *. destruct stack as [|[x depth] stack]; csimpl in *.
    { intros [= <-]. by apply dfs_count_bound in Hc. }
    case_decide as Hx; [done|]. case_decide; [|by case_decide]. intros [= <-].
    pose proof (dfs_count_accept x _ V cf nv ne tr [] cf ne tr Hc Hx) as Hc'.
    apply dfs_count_bound in Hc'; [done|]. by intros n Hn%elem_of_nil.
Qed.

(** Uniform-cost search marks a cell when it is removed and accepted. *)
Definition ucs_count (st : ucs_state) : Prop :=
  ucs_nodes_visited st = size (ucs_visited_cells st) ∧
  ucs_visited_cells st ⊆ universe ∧
  ∀ x, x ∈ (ucs_open_set st).*2 → x ∈ universe.

Definition ucs_count_exit (r : loop_exit ucs_state) : Prop :=
  let st := match r with Reached st _ | Exhausted st => st end in
  (ucs_nodes_visited st ≤ size universe)%nat.

Lemma ucs_count_fold x st ns :
  ucs_count st → (∀ n, n ∈ ns → n ∈ get_neighbors w x) →
  ucs_count (fold_left (ucs_neighbor x) ns st).
Proof.
  revert st. induction ns as [|n ns IH]; intros st Hc Hns; [done|]. simpl.
  apply IH; [|intros m Hm; apply Hns; by right].
  destruct Hc as (Hc & HU & Ho). unfold ucs_neighbor.
  case_decide; [done|]. destruct (improves _ _ _); [|done].
  split_and!; simpl; [done..|]. unfold heappush. rewrite fmap_app.
  intros m [Hm|Hm%list_elem_of_singleton]%elem_of_app; [by apply Ho|].
  subst m. apply (neighbor_universe x), Hns. by left.
Qed.

Lemma heappop_universe (heap : list entry) c x heap' :
  heappop heap = Some ((c, x), heap') → (∀ v, v ∈ heap.*2 → v ∈ universe) →
  x ∈ universe ∧ ∀ v, v ∈ heap'.*2 → v ∈ universe.
Proof.
  intros (Hin & _ & ->)%heappop_Some Ho. split.
  - apply Ho, list_elem_of_fmap. by exists (c, x).
  - intros v (e & -> & He)%list_elem_of_fmap. apply Ho, list_elem_of_fmap.
    exists e. split; [done|]. by eapply elem_of_remove_first.
Qed.

Lemma ucs_count_loop fuel r :
  while_loop (ucs_step w goal) fuel (ucs_init start) = Some r → ucs_count_exit r.
Proof.
  apply (while_loop_inv (ucs_step w goal) ucs_count ucs_count_exit).
  - intros st st' (Hc & HU & Ho). unfold ucs_step.
    destruct (heappop (ucs_open_set st)) as [[[c x] open_set]|] eqn:Hpop; [|done].
    destruct (heappop_universe _ _ _ _ Hpop Ho) as [HxU Ho'].
    case_decide as Hx; [by intros [= <-]|]. case_decide; [done|].
    intros [= <-]. apply (ucs_count_fold x); [|done].
    split_and!; simpl; [|set_solver|done]. rewrite size_add by done. lia.
  - intros st r' (Hc & HU & Ho). unfold ucs_step, ucs_count_exit.
    pose proof (subseteq_size _ _ HU).
    destruct (heappop (ucs_open_set st)) as [[[c x] open_set]|] eqn:Hpop;
      [|intros [= <-]; simpl; lia].
    destruct (heappop_universe _ _ _ _ Hpop Ho) as [HxU Ho'].
    case_decide as Hx; [done|]. case_decide; [|done]. intros [= <-]. simpl.
    rewrite Hc, <- (size_add x) by done. apply subseteq_size. set_solver.
  - split_and!; simpl; [done|done|]. unfold universe. set_solver.
Qed.

(** A* counts a visit when a cell is closed; the goal is never closed. *)
Definition astar_count (st : astar_state) : Prop :=
  astar_nodes_visited st = size (astar_closed_set st) ∧
  astar_closed_set st ⊆ universe ∧
  ∀ x, x ∈ (astar_open_set st).*2 → x ∈ universe.

Definition astar_count_exit (r : loop_exit astar_state) : Prop :=
  let st := match r with Reached st _ | Exhausted st => st end in
  (astar_nodes_visited st ≤ size universe)%nat.

Lemma astar_count_fold x st ns :
  astar_count st → (∀ n, n ∈ ns → n ∈ get_neighbors w x) →
  astar_count (fold_left (astar_neighbor goal x) ns st).
Proof.
  revert st. induction ns as [|n ns IH]; intros st Hc Hns; [done|]. simpl.
  apply IH; [|intros m Hm; apply Hns; by right].
  destruct Hc as (Hc & HU & Ho). unfold astar_neighbor.
  case_decide; [done|]. destruct (improves _ _ _); [|done].
  case_decide; [done|].
  split_and!; simpl; [done..|]. unfold heappush. rewrite fmap_app.
  intros m [Hm|Hm%list_elem_of_singleton]%elem_of_app; [by apply Ho|].
  subst m. apply (neighbor_universe x), Hns. by left.
Qed.

Lemma astar_count_loop fuel r :
  while_loop (astar_step w goal) fuel (astar_init start goal) = Some r →
  astar_count_exit r.
Proof.
  apply (while_loop_inv (astar_step w goal)
           (λ st, astar_inv w start st ∧ astar_count st) astar_count_exit).
  - intros st st' [Hinv (Hc & HU & Ho)] Hstep.
    split; [by destruct (astar_step_inv w start goal st st' Hinv Hstep)|].
    revert Hstep. unfold astar_step.
    destruct (heappop (astar_open_set st)) as [[[c x] open_set]|] eqn:Hpop; [|done].
    destruct (heappop_universe _ _ _ _ Hpop Ho) as [HxU Ho'].
    destruct (astar_pop_inv w start st c x _ Hinv Hpop) as (Hx & _).
    case_decide; [done|]. intros [= <-].
    apply (astar_count_fold x); [|done].
    split_and!; simpl; [|set_solver|done]. rewrite size_add by done. lia.
  - intros st r' [_ (Hc & HU & Ho)]. unfold astar_step, astar_count_exit.
    pose proof (subseteq_size _ _ HU).
    destruct (heappop (astar_open_set st)) as [[[c x] open_set]|] eqn:Hpop;
      [|intros [= <-]; simpl; lia].
    case_decide; [|done]. intros [= <-]. simpl. lia.
  - split; [apply astar_inv_init|].
    split_and!; simpl; [done|done|]. unfold universe. set_solver.
Qed.
End visit_count.

(** X12. No run visits more nodes than the grid has cells: with [start]
    inside the grid, [nodes_visited] is at most [rows * cols] for each of
    the five algorithms, since every cell is accepted at most once. *)
Theorem nodes_visited_bounded w (start goal : pos) (depth_limit : Z) :
  wf_grid w → in_bounds w start = true →
  ∀ run, run ∈ [run_astar w start goal; run_bfs w start goal;
                run_dfs w start goal; run_ucs w start goal;
                run_dls w start goal depth_limit] →
  ∃ r, returns run r ∧ Z.of_nat (nodes_visited r) ≤ rows w * cols w.
Proof.
  intros _ Hs run Hrun. pose proof (size_universe w start Hs) as HU.
  fold (universe w start) in HU.
  repeat (apply elem_of_cons in Hrun as [->|Hrun]).
  - destruct (run_astar_spec w start goal) as (r & Hret & _).
    exists r. split; [done|]. destruct Hret as [N HN].
    specialize (HN N (le_n N)). unfold run_astar in HN.
    destruct (while_loop _ N _) as [e|] eqn:He; [|done].
    apply astar_count_loop in He. unfold astar_count_exit in He.
    destruct e as [st c|st]; [destruct (reconstruct_path _ _ _); [|done]|];
      simpl in HN; injection HN as <-; simpl; lia.
  - destruct (run_bfs_spec w start goal) as (r & Hret & _).
    exists r. split; [done|]. destruct Hret as [N HN].
    specialize (HN N (le_n N)). unfold run_bfs in HN.
    destruct (while_loop _ N _) as [e|] eqn:He; [|done].
    apply bfs_count_loop in He. unfold bfs_count_exit in He.
    destruct e as [st c|st]; [destruct (reconstruct_path _ _ _); [|done]|];
      simpl in HN; injection HN as <-; simpl; lia.
  - destruct (run_dfs_spec w start goal) as (r & Hret & _).
    exists r. split; [done|]. destruct Hret as [N HN].
    specialize (HN N (le_n N)). unfold run_dfs in HN.
    destruct (while_loop _ N _) as [e|] eqn:He; [|done].
    apply dfs_count_loop in He. unfold dfs_count_exit in He.
    destruct e as [st c|st]; [destruct (reconstruct_path _ _ _); [|done]|];
      simpl in HN; injection HN as <-; simpl; lia.
  - destruct (run_ucs_spec w start goal) as (r & Hret & _).
    exists r. split; [done|]. destruct Hret as [N HN].
    specialize (HN N (le_n N)). unfold run_ucs in HN.
    destruct (while_loop _ N _) as [e|] eqn:He; [|done].
    apply ucs_count_loop in He. unfold ucs_count_exit in He.
    destruct e as [st c|st]; [destruct (reconstruct_path _ _ _); [|done]|];
      simpl in HN; injection HN as <-; simpl; lia.
  - destruct (run_dls_spec w start goal depth_limit) as (r & Hret & _).
    exists r. split; [done|]. destruct Hret as [N HN].
    specialize (HN N (le_n N)). unfold run_dls in HN.
    destruct (while_loop _ N _) as [e|] eqn:He; [|done].
    apply dls_count_loop in He. unfold dfs_count_exit in He.
    destruct e as [st c|st]; [destruct (reconstruct_path _ _ _); [|done]|];
      simpl in HN; injection HN as <-; simpl in *; lia.
  - by apply elem_of_nil in Hrun.
Qed.

(** * The editing commands

    The handlers below read and write the matrix only at indices that the
    loops [range(self.rows)], [range(self.cols)] or the test
    [0 <= row < self.rows and 0 <= col < self.cols] produce; [None] stands
    for the [IndexError] that an ill-formed matrix would raise. *)

Definition cell_size : Z := 20.

(** [self.grid[p[0]][p[1]]]. *)
Definition grid_get (g : list (list CellType)) (p : pos) : option CellType :=
  i ← py_index (length g) p.1;
  line ← g !! i;
  j ← py_index (length line) p.2;
  line !! j.

(** The object with the matrix replaced. *)
Definition with_grid (app : Picker) (g : list (list CellType)) : Picker :=
  MkPicker (MkWarehouse (rows (warehouse app)) (cols (warehouse app)) g)
           (start_pos app) (goal_pos app) (is_running app)
           (algorithm_var app) (depth_limit_var app) (stats_algorithm app).

(** [reset_grid]. *)
Definition reset_grid (app : Picker) : Picker :=
  let w := warehouse app in
  MkPicker (MkWarehouse (rows w) (cols w)
              (replicate (Z.to_nat (rows w)) (replicate (Z.to_nat (cols w)) EMPTY)))
           None None false
           (algorithm_var app) (depth_limit_var app) (stats_algorithm app).

(** The object that [__init__] builds: 25 rows of 35 cells, A* selected,
    depth limit 15. *)
Definition init : Picker :=
  reset_grid (MkPicker (MkWarehouse 25 35 (replicate 25 (replicate 35 EMPTY)))
                       None None false ASTAR 15 None).

(** [on_canvas_click]: the first click sets the start, the second the
    goal, later ones toggle an obstacle. *)
Definition on_canvas_click (app : Picker) (x y : Z) : option Picker :=
  if is_running app then Some app
  else
    let row := y `div` cell_size in
    let col := x `div` cell_size in
    let w := warehouse app in
    if in_bounds w (row, col) then
      match start_pos app, goal_pos app with
      | None, _ =>
          g ← grid_set (grid w) (row, col) START;
          Some (MkPicker (MkWarehouse (rows w) (cols w) g)
                         (Some (row, col)) (goal_pos app) (is_running app)
                         (algorithm_var app) (depth_limit_var app)
                         (stats_algorithm app))
      | Some _, None =>
          g ← grid_set (grid w) (row, col) GOAL;
          Some (MkPicker (MkWarehouse (rows w) (cols w) g)
                         (start_pos app) (Some (row, col)) (is_running app)
                         (algorithm_var app) (depth_limit_var app)
                         (stats_algorithm app))
      | Some _, Some _ =>
          c ← grid_get (grid w) (row, col);
          match c with
          | EMPTY => with_grid app <$> grid_set (grid w) (row, col) OBSTACLE
          | OBSTACLE => with_grid app <$> grid_set (grid w) (row, col) EMPTY
          | _ => Some app
          end
      end
    else Some app.

(** [on_canvas_drag]: dragging paints obstacles on empty cells. *)
Definition on_canvas_drag (app : Picker) (x y : Z) : option Picker :=
  if is_running app then Some app
  else
    let row := y `div` cell_size in
    let col := x `div` cell_size in
    let w := warehouse app in
    if in_bounds w (row, col) then
      c ← grid_get (grid w) (row, col);
      if decide (c = EMPTY)
      then with_grid app <$> grid_set (grid w) (row, col) OBSTACLE
      else Some app
    else Some app.

(** The two nested loops of [add_random_obstacles] over a well-formed
    grid; [draw i j] is the outcome of [random.random() < density] at the
    empty cell [(i, j)]. *)
Definition scatter (draw : nat → nat → bool) (g : list (list CellType))
  : list (list CellType) :=
  imap (λ i line,
          imap (λ j c, if decide (c = EMPTY)
                       then (if draw i j then OBSTACLE else c)
                       else c) line) g.

Definition add_random_obstacles (draw : nat → nat → bool) (app : Picker)
  : option Picker :=
  app1 ← clear_path app;
  Some (with_grid app1 (scatter draw (grid (warehouse app1)))).

(** [[(i, j) for i in range(self.rows) for j in range(self.cols)
      if self.grid[i][j] == CellType.EMPTY]]. *)
Definition empty_cells (w : Warehouse) : list pos :=
  filter (λ p, cell w p.1 p.2 = EMPTY) (cprod (seqZ 0 (rows w)) (seqZ 0 (cols w))).

(** [random_start_goal].  [start_idx] is the first draw of
    [random.randint(0, len(empty_cells) - 1)] and [goal_draws] are the
    following ones: the goal index is the first of them that differs from
    [start_idx].  With fewer than two empty cells the handler warns and
    returns after [clear_path].  [None] also stands for draws that never
    differ from [start_idx]. *)
Definition random_start_goal (start_idx : nat) (goal_draws : list nat)
    (app : Picker) : option Picker :=
  app1 ← clear_path app;
  let w := warehouse app1 in
  let cells := empty_cells w in
  if decide (length cells < 2)%nat then Some app1
  else
    start ← cells !! start_idx;
    goal_idx ← head (filter (λ i, i ≠ start_idx) goal_draws);
    goal ← cells !! goal_idx;
    g1 ← grid_set (grid w) start START;
    g2 ← grid_set g1 goal GOAL;
    Some (MkPicker (MkWarehouse (rows w) (cols w) g2) (Some start) (Some goal)
                   (is_running app1) (algorithm_var app1) (depth_limit_var app1)
                   (stats_algorithm app1)).

(** The commands of the editor. *)
Inductive ui_event :=
  | Click (x y : Z)
  | Drag (x y : Z)
  | ResetGrid
  | ClearPath
  | RandomObstacles (draw : nat → nat → bool).

Definition ui_handle (app : Picker) (e : ui_event) : option Picker :=
  match e with
  | Click x y => on_canvas_click app x y
  | Drag x y => on_canvas_drag app x y
  | ResetGrid => Some (reset_grid app)
  | ClearPath => clear_path app
  | RandomObstacles draw => add_random_obstacles draw app
  end.

Definition ui_run (app : Picker) (es : list ui_event) : option Picker :=
  foldl (λ oapp e, app' ← oapp; ui_handle app' e) (Some app) es.

(** ** The robot *)

(** The fields that [move_robot_along_path] reads and writes.  [self.path]
    and the list that the callbacks pop from are one object. *)
Record robot_state := MkRobot {
  robot_pos : option pos;
  path : list pos;
  robot_running : bool
}.

(** One callback of [move_robot_along_path]; [inr] when it does not
    schedule another. *)
Definition move_robot_step (st : robot_state) : robot_state + robot_state :=
  match path st with
  | [] => inr (MkRobot (robot_pos st) [] false)
  | next_pos :: rest => inl (MkRobot (Some next_pos) rest (robot_running st))
  end.

Definition move_robot_along_path (fuel : nat) (st : robot_state)
  : option robot_state :=
  while_loop move_robot_step fuel st.

(** ** Layout files *)

(** The JSON document of [save_layout], for documents whose fields have
    the types that [save_layout] gives them. *)
Record Layout := MkLayout {
  l_rows : Z;
  l_cols : Z;
  l_grid : list (list Z);
  l_start_pos : option pos;
  l_goal_pos : option pos
}.

(** [cell.value]. *)
Definition CellType_value (c : CellType) : Z :=
  match c with
  | EMPTY => 0 | OBSTACLE => 1 | START => 2 | GOAL => 3 | PATH => 4
  | VISITED => 5 | ROBOT => 6 | FRONTIER => 7 | CURRENT => 8
  end.

(** [CellType(v)]; [None] is the [ValueError] of an unknown value. *)
Definition CellType_of_value (v : Z) : option CellType :=
  match v with
  | 0 => Some EMPTY | 1 => Some OBSTACLE | 2 => Some START | 3 => Some GOAL
  | 4 => Some PATH | 5 => Some VISITED | 6 => Some ROBOT | 7 => Some FRONTIER
  | 8 => Some CURRENT | _ => None
  end.

(** [save_layout] with a file chosen; [None] is the [IndexError] of an
    ill-formed matrix, which the handler does not catch. *)
Definition save_layout (app : Picker) : option Layout :=
  let w := warehouse app in
  grid_data ←
    mapM (λ i, mapM (λ j, CellType_value <$> (grid w !! i ≫= λ line, line !! j))
                    (seq 0 (Z.to_nat (cols w))))
         (seq 0 (Z.to_nat (rows w)));
  Some (MkLayout (rows w) (cols w) grid_data (start_pos app) (goal_pos app)).

(** The loop of [load_layout] that fills [self.grid] row by row.  It stops
    at the first row with a missing or unknown value; the rows appended
    before stay in the matrix. *)
Fixpoint load_rows (l : Layout) (range : list nat) (acc : list (list CellType))
  : list (list CellType) * bool :=
  match range with
  | [] => (acc, true)
  | i :: range' =>
      match mapM (λ j, (l_grid l !! i ≫= λ line, line !! j) ≫= CellType_of_value)
                 (seq 0 (Z.to_nat (l_cols l))) with
      | Some row => load_rows l range' (acc ++ [row])
      | None => (acc, false)
      end
  end.

Inductive load_result :=
  | Loaded (app : Picker)
  | LoadError (app : Picker).

(** [load_layout] with a file chosen that holds the document [l].  An
    exception inside the [try] block leaves the assignments made before it:
    [rows], [cols] and the rows read so far, with the old positions. *)
Definition load_layout (l : Layout) (app : Picker) : load_result :=
  let '(g, ok) := load_rows l (seq 0 (Z.to_nat (l_rows l))) [] in
  let w := MkWarehouse (l_rows l) (l_cols l) g in
  if ok then
    Loaded (MkPicker w (l_start_pos l) (l_goal_pos l) (is_running app)
                     (algorithm_var app) (depth_limit_var app)
                     (stats_algorithm app))
  else
    LoadError (MkPicker w (start_pos app) (goal_pos app) (is_running app)
                        (algorithm_var app) (depth_limit_var app)
                        (stats_algorithm app)).

(** ** Reading and writing cells of a well-formed grid *)

Lemma py_index_nonneg len i :
  0 ≤ i < Z.of_nat len → py_index len i = Some (Z.to_nat i).
Proof. intros H. unfold py_index. by rewrite decide_True. Qed.

Lemma wf_row w i line :
  wf_grid w → grid w !! i = Some line → Z.of_nat (length line) = cols w.
Proof. intros [_ Hf] Hl. by apply (Forall_lookup_1 _ _ _ _ Hf Hl). Qed.

Lemma in_bounds_spec w p :
  in_bounds w p = true ↔ 0 ≤ p.1 < rows w ∧ 0 ≤ p.2 < cols w.
Proof. unfold in_bounds. rewrite !andb_true_iff. lia. Qed.

Lemma wf_in_bounds w p :
  wf_grid w → in_bounds w p = true →
  ∃ line c, grid w !! Z.to_nat p.1 = Some line ∧
            line !! Z.to_nat p.2 = Some c ∧ cell w p.1 p.2 = c.
Proof.
  intros Hwf Hp%in_bounds_spec. pose proof Hwf as [Hr _].
  destruct (lookup_lt_is_Some_2 (grid w) (Z.to_nat p.1)) as [line Hl]; [lia|].
  pose proof (wf_row _ _ _ Hwf Hl).
  destruct (lookup_lt_is_Some_2 line (Z.to_nat p.2)) as [c Hc]; [lia|].
  exists line, c. split_and!; [done..|]. unfold cell. rewrite Hl. simpl.
  by rewrite Hc.
Qed.

Lemma grid_get_cell w p :
  wf_grid w → in_bounds w p = true →
  grid_get (grid w) p = Some (cell w p.1 p.2).
Proof.
  intros Hwf Hp. destruct (wf_in_bounds w p Hwf Hp) as (line & c & Hl & Hc & ->).
  apply in_bounds_spec in Hp. pose proof Hwf as [Hr _].
  pose proof (wf_row _ _ _ Hwf Hl). unfold grid_get.
  rewrite py_index_nonneg by lia. simpl. rewrite Hl. simpl.
  rewrite py_index_nonneg by lia. done.
Qed.

Lemma grid_set_eq w p v line :
  wf_grid w → in_bounds w p = true → grid w !! Z.to_nat p.1 = Some line →
  grid_set (grid w) p v =
    Some (<[Z.to_nat p.1 := <[Z.to_nat p.2 := v]> line]> (grid w)).
Proof.
  intros Hwf Hp%in_bounds_spec Hl. pose proof Hwf as [Hr _].
  pose proof (wf_row _ _ _ Hwf Hl). unfold grid_set.
  rewrite py_index_nonneg by lia. simpl. rewrite Hl. simpl.
  rewrite py_index_nonneg by lia. done.
Qed.

(** Writing a cell inside the grid succeeds, keeps the grid well formed
    and changes that cell only. *)
Lemma grid_set_cell w p v :
  wf_grid w → in_bounds w p = true →
  ∃ g', grid_set (grid w) p v = Some g' ∧
    wf_grid (MkWarehouse (rows w) (cols w) g') ∧
    cell (MkWarehouse (rows w) (cols w) g') p.1 p.2 = v ∧
    ∀ q, in_bounds w q = true → q ≠ p →
         cell (MkWarehouse (rows w) (cols w) g') q.1 q.2 = cell w q.1 q.2.
Proof.
  intros Hwf Hp. destruct (wf_in_bounds w p Hwf Hp) as (line & c & Hl & Hc & _).
  eexists. split; [by apply grid_set_eq|].
  pose proof (lookup_lt_Some _ _ _ Hl). pose proof (lookup_lt_Some _ _ _ Hc).
  split_and!.
  - destruct Hwf as [Hr Hf]. split; simpl.
    + by rewrite length_insert.
    + apply Forall_insert; [done|]. rewrite length_insert.
      by apply (Forall_lookup_1 _ _ _ _ Hf Hl).
  - unfold cell. simpl. rewrite list_lookup_insert_eq by done. simpl.
    by rewrite list_lookup_insert_eq.
  - intros q Hq%in_bounds_spec Hne. apply in_bounds_spec in Hp.
    unfold cell. simpl.
    destruct (decide (Z.to_nat q.1 = Z.to_nat p.1)) as [Heq|Hne1].
    + rewrite Heq, list_lookup_insert_eq, Hl by done. simpl.
      rewrite list_lookup_insert_ne; [done|].
      intros Heq2. apply Hne. destruct p, q. simpl in *. f_equal; lia.
    + by rewrite list_lookup_insert_ne.
Qed.

Lemma cell_clear_overlays r c g q1 q2 :
  cell (MkWarehouse r c (clear_overlays g)) q1 q2 =
    (let x := cell (MkWarehouse r c g) q1 q2 in if is_overlay x then EMPTY else x).
Proof.
  unfold cell, clear_overlays. simpl. rewrite list_lookup_fmap.
  destruct (g !! Z.to_nat q1) as [line|]; simpl; [|done].
  rewrite list_lookup_fmap. by destruct (line !! Z.to_nat q2).
Qed.

Lemma wf_clear_overlays r c g :
  wf_grid (MkWarehouse r c g) → wf_grid (MkWarehouse r c (clear_overlays g)).
Proof.
  intros [Hr Hf]. unfold clear_overlays. split; simpl in *.
  - by rewrite length_fmap.
  - apply Forall_fmap. eapply Forall_impl; [done|]. intros line Hline. simpl.
    by rewrite length_fmap.
Qed.

Lemma cell_scatter draw w q :
  wf_grid w → in_bounds w q = true →
  cell (MkWarehouse (rows w) (cols w) (scatter draw (grid w))) q.1 q.2 =
    (let x := cell w q.1 q.2 in
     if decide (x = EMPTY)
     then (if draw (Z.to_nat q.1) (Z.to_nat q.2) then OBSTACLE else x) else x).
Proof.
  intros Hwf Hq. destruct (wf_in_bounds w q Hwf Hq) as (line & c & Hl & Hc & <-).
  unfold cell, scatter. simpl. rewrite list_lookup_imap, Hl. simpl.
  rewrite list_lookup_imap, Hc. done.
Qed.

Lemma wf_scatter draw r c g :
  wf_grid (MkWarehouse r c g) → wf_grid (MkWarehouse r c (scatter draw g)).
Proof.
  intros [Hr Hf]. unfold scatter. split; simpl in *.
  - by rewrite length_imap.
  - apply Forall_lookup. intros i line Hi.
    rewrite list_lookup_imap in Hi.
    destruct (g !! i) as [line0|] eqn:Hl; [|done]. injection Hi as <-.
    rewrite length_imap. by apply (Forall_lookup_1 _ _ _ _ Hf Hl).
Qed.

(** ** An invariant of the editor *)

(** A cell that carries the [START] or the [GOAL] mark. *)
Definition marker (c : CellType) : Prop := c = START ∨ c = GOAL.

(** The position, when set, lies inside the grid on a marked cell. *)
Definition marked (w : Warehouse) (p : option pos) : Prop :=
  match p with
  | None => True
  | Some q => in_bounds w q = true ∧ marker (cell w q.1 q.2)
  end.

Definition ui_ok (app : Picker) : Prop :=
  wf_grid (warehouse app) ∧
  marked (warehouse app) (start_pos app) ∧
  marked (warehouse app) (goal_pos app).

(** [w'] has the size of [w] and all its marks. *)
Definition keeps_markers (w w' : Warehouse) : Prop :=
  rows w' = rows w ∧ cols w' = cols w ∧
  ∀ q, in_bounds w q = true → marker (cell w q.1 q.2) → marker (cell w' q.1 q.2).

Lemma marked_keeps w w' p : keeps_markers w w' → marked w p → marked w' p.
Proof.
  intros (Hr & Hc & Hk). destruct p as [q|]; [|done]. intros [Hq Hm].
  split; [|by apply Hk]. unfold in_bounds in *. by rewrite Hr, Hc.
Qed.

Lemma keeps_markers_trans w1 w2 w3 :
  keeps_markers w1 w2 → keeps_markers w2 w3 → keeps_markers w1 w3.
Proof.
  intros (Hr & Hc & Hk) (Hr' & Hc' & Hk'). split_and!; [congruence..|].
  intros q Hq Hm. apply Hk'; [|by apply Hk].
  unfold in_bounds in *. by rewrite Hr, Hc.
Qed.

(** Writing [v] at [p] keeps the marks when [v] is a mark or the cell at
    [p] carries none. *)
Lemma grid_set_keeps w p v :
  wf_grid w → in_bounds w p = true → marker v ∨ ¬ marker (cell w p.1 p.2) →
  ∃ g', grid_set (grid w) p v = Some g' ∧
    wf_grid (MkWarehouse (rows w) (cols w) g') ∧
    cell (MkWarehouse (rows w) (cols w) g') p.1 p.2 = v ∧
    keeps_markers w (MkWarehouse (rows w) (cols w) g').
Proof.
  intros Hwf Hp Hv. destruct (grid_set_cell w p v Hwf Hp) as (g' & Hg & Hwf' & Hc & Ho).
  exists g'. split_and!; try done. split_and!; [done..|].
  intros q Hq Hm. destruct (decide (q = p)) as [->|Hne].
  - rewrite Hc. by destruct Hv.
  - by rewrite Ho.
Qed.

Lemma clear_overlays_keeps w :
  keeps_markers w (MkWarehouse (rows w) (cols w) (clear_overlays (grid w))).
Proof.
  split_and!; [done..|]. intros q _ Hm. rewrite cell_clear_overlays.
  change (cell (MkWarehouse (rows w) (cols w) (grid w)) q.1 q.2)
    with (cell w q.1 q.2). cbv zeta.
  destruct Hm as [Hm|Hm]; rewrite Hm; [by left|by right].
Qed.

Lemma scatter_keeps draw w :
  wf_grid w →
  keeps_markers w (MkWarehouse (rows w) (cols w) (scatter draw (grid w))).
Proof.
  intros Hwf. split_and!; [done..|]. intros q Hq Hm.
  rewrite cell_scatter by done. cbv zeta.
  destruct Hm as [Hm|Hm]; rewrite Hm; [by left|by right].
Qed.

Lemma wf_reset w :
  wf_grid w →
  wf_grid (MkWarehouse (rows w) (cols w)
             (replicate (Z.to_nat (rows w)) (replicate (Z.to_nat (cols w)) EMPTY))).
Proof.
  intros [Hr Hf]. split; simpl.
  - rewrite length_replicate. lia.
  - destruct (grid w) as [|line g] eqn:Hg.
    + simpl in Hr. rewrite <- Hr. constructor.
    + apply Forall_replicate. rewrite length_replicate.
      apply Forall_cons in Hf as [Hc _]. lia.
Qed.

(** [clear_path] succeeds in a state that satisfies the invariant, and
    keeps it. *)
Lemma clear_path_ok app :
  ui_ok app →
  ∃ app', clear_path app = Some app' ∧ ui_ok app' ∧
    start_pos app' = start_pos app ∧ goal_pos app' = goal_pos app ∧
    is_running app' = is_running app ∧
    keeps_markers (warehouse app) (warehouse app').
Proof.
  intros (Hwf & Hs & Hg). destruct app as [w s g run alg dl st]. simpl in *.
  set (w1 := MkWarehouse (rows w) (cols w) (clear_overlays (grid w))).
  assert (wf_grid w1) as Hwf1 by (apply wf_clear_overlays; by destruct w).
  pose proof (clear_overlays_keeps w) as Hk1. fold w1 in Hk1.
  assert (∃ g1, grid_restore (grid w1) s START = Some g1 ∧
            wf_grid (MkWarehouse (rows w) (cols w) g1) ∧
            keeps_markers w (MkWarehouse (rows w) (cols w) g1)) as
    (g1 & Hg1 & Hwf2 & Hk2).
  { destruct s as [p|]; simpl; [|by exists (clear_overlays (grid w))].
    destruct Hs as [Hp _].
    destruct (grid_set_keeps w1 p START Hwf1 Hp) as (g1 & ? & ? & _ & ?);
      [left; by left|].
    exists g1. split_and!; [done..|]. by eapply keeps_markers_trans. }
  set (w2 := MkWarehouse (rows w) (cols w) g1) in *.
  assert (∃ g2, grid_restore (grid w2) g GOAL = Some g2 ∧
            wf_grid (MkWarehouse (rows w) (cols w) g2) ∧
            keeps_markers w (MkWarehouse (rows w) (cols w) g2)) as
    (g2 & Hg2 & Hwf3 & Hk3).
  { destruct g as [p|]; simpl; [|by exists g1].
    destruct Hg as [Hp _].
    destruct (grid_set_keeps w2 p GOAL Hwf2 Hp) as (g2 & ? & ? & _ & ?);
      [left; by right|].
    exists g2. split_and!; [done..|]. by eapply keeps_markers_trans. }
  eexists. split.
  - unfold clear_path. simpl. simpl in Hg1. rewrite Hg1. simpl.
    simpl in Hg2. rewrite Hg2. simpl. done.
  - simpl. split_and!; try done. split_and!; simpl; [done|..].
    + by apply (marked_keeps w).
    + by apply (marked_keeps w).
Qed.

(** Two well-formed grids of one size with the same cells are equal. *)
Lemma grid_ext w w' :
  wf_grid w → wf_grid w' → rows w = rows w' → cols w = cols w' →
  (∀ q, in_bounds w q = true → cell w q.1 q.2 = cell w' q.1 q.2) →
  grid w = grid w'.
Proof.
  intros Hwf Hwf' Hr Hc Hcell. apply list_eq. intros i.
  pose proof Hwf as [Hlen _]. pose proof Hwf' as [Hlen' _].
  destruct (decide (i < length (grid w))%nat) as [Hi|Hi].
  - destruct (lookup_lt_is_Some_2 (grid w) i) as [l Hl]; [done|].
    destruct (lookup_lt_is_Some_2 (grid w') i) as [l' Hl']; [lia|].
    rewrite Hl, Hl'. f_equal. apply list_eq. intros j.
    pose proof (wf_row _ _ _ Hwf Hl). pose proof (wf_row _ _ _ Hwf' Hl').
    destruct (decide (j < length l)%nat) as [Hj|Hj].
    + destruct (lookup_lt_is_Some_2 l j) as [c Hcj]; [done|].
      destruct (lookup_lt_is_Some_2 l' j) as [c' Hcj']; [lia|].
      specialize (Hcell (Z.of_nat i, Z.of_nat j)). unfold cell in Hcell.
      simpl in Hcell. rewrite !Nat2Z.id, Hl, Hl' in Hcell. simpl in Hcell.
      rewrite Hcj, Hcj' in Hcell. simpl in Hcell. rewrite Hcj, Hcj'. f_equal.
      apply Hcell. apply in_bounds_spec. simpl. lia.
    + rewrite !lookup_ge_None_2; [done|lia..].
  - rewrite !lookup_ge_None_2; [done|lia..].
Qed.

(** What [clear_path] leaves in each cell. *)
Definition cleared (app : Picker) (q : pos) : CellType :=
  if decide (goal_pos app = Some q) then GOAL
  else if decide (start_pos app = Some q) then START
  else let c := cell (warehouse app) q.1 q.2 in
       if is_overlay c then EMPTY else c.

Definition positions_inside (app : Picker) : Prop :=
  ∀ p, start_pos app = Some p ∨ goal_pos app = Some p →
       in_bounds (warehouse app) p = true.

Lemma clear_path_cell app :
  wf_grid (warehouse app) → positions_inside app →
  ∃ g, clear_path app = Some (with_grid app g) ∧
       wf_grid (warehouse (with_grid app g)) ∧
       ∀ q, in_bounds (warehouse app) q = true →
            cell (warehouse (with_grid app g)) q.1 q.2 = cleared app q.
Proof.
  intros Hwf Hin. destruct app as [w s g run alg dl st].
  unfold positions_inside, cleared, with_grid in *. simpl in *.
  set (w1 := MkWarehouse (rows w) (cols w) (clear_overlays (grid w))).
  assert (wf_grid w1) as Hwf1 by (apply wf_clear_overlays; by destruct w).
  assert (∃ g1, grid_restore (grid w1) s START = Some g1 ∧
            wf_grid (MkWarehouse (rows w) (cols w) g1) ∧
            ∀ q, in_bounds w q = true →
              cell (MkWarehouse (rows w) (cols w) g1) q.1 q.2 =
                if decide (s = Some q) then START
                else let c := cell w q.1 q.2 in if is_overlay c then EMPTY else c)
    as (g1 & Hg1 & Hwf2 & Hc1).
  { destruct s as [p|]; simpl.
    - destruct (grid_set_cell w1 p START Hwf1) as (g1 & ? & ? & Hp & Ho);
        [apply Hin; by left|].
      exists g1. split_and!; [done..|]. intros q Hq. case_decide as Hqp.
      + by injection Hqp as ->.
      + rewrite Ho; [|done|congruence]. apply (cell_clear_overlays _ _ (grid w)).
    - exists (clear_overlays (grid w)). split_and!; [done..|].
      intros q Hq. apply (cell_clear_overlays _ _ (grid w)). }
  set (w2 := MkWarehouse (rows w) (cols w) g1) in *.
  assert (∃ g2, grid_restore (grid w2) g GOAL = Some g2 ∧
            wf_grid (MkWarehouse (rows w) (cols w) g2) ∧
            ∀ q, in_bounds w q = true →
              cell (MkWarehouse (rows w) (cols w) g2) q.1 q.2 =
                if decide (g = Some q) then GOAL else cell w2 q.1 q.2)
    as (g2 & Hg2 & Hwf3 & Hc2).
  { destruct g as [p|]; simpl.
    - destruct (grid_set_cell w2 p GOAL Hwf2) as (g2 & ? & ? & Hp & Ho);
        [apply Hin; by right|].
      exists g2. split_and!; [done..|]. intros q Hq. case_decide as Hqp.
      + by injection Hqp as ->.
      + rewrite Ho; [done|done|congruence].
    - by exists g1. }
  exists g2. split_and!.
  - unfold clear_path. simpl. simpl in Hg1. rewrite Hg1. simpl.
    simpl in Hg2. rewrite Hg2. done.
  - done.
  - intros q Hq. rewrite Hc2 by done. case_decide; [done|]. by apply Hc1.
Qed.

Lemma ui_ok_inside app : ui_ok app → positions_inside app.
Proof.
  intros (_ & Hs & Hg) p [Hp|Hp]; [rewrite Hp in Hs|rewrite Hp in Hg]; simpl in *;
    tauto.
Qed.

(** ** The handlers keep the invariant *)

Lemma reset_grid_ok app : wf_grid (warehouse app) → ui_ok (reset_grid app).
Proof. intros Hwf. split_and!; simpl; [by apply wf_reset|done..]. Qed.

Lemma on_canvas_click_ok app x y :
  ui_ok app →
  ∃ app', on_canvas_click app x y = Some app' ∧ ui_ok app' ∧
          is_running app' = is_running app.
Proof.
  intros (Hwf & Hs & Hg). unfold on_canvas_click.
  destruct (is_running app) eqn:Hrun; [by exists app|].
  set (p := (y `div` cell_size, x `div` cell_size)).
  destruct (in_bounds (warehouse app) p) eqn:Hp; [|by exists app].
  destruct (start_pos app) as [s|] eqn:Hst; [destruct (goal_pos app) as [g|] eqn:Hgl|].
  - pose proof (grid_get_cell _ p Hwf Hp) as Hget.
    destruct (cell (warehouse app) p.1 p.2) eqn:Hc; rewrite Hget; simpl;
      try (exists app; split_and!; try done; split_and!;
           [done|by rewrite Hst|by rewrite Hgl]).
    + destruct (grid_set_keeps (warehouse app) p OBSTACLE Hwf Hp)
        as (g' & -> & Hwf' & _ & Hk); [right; rewrite Hc; by intros [|]|].
      eexists. split; [reflexivity|]. split; [|done]. split_and!; simpl; [done|..].
      * rewrite Hst. by apply (marked_keeps (warehouse app)).
      * rewrite Hgl. by apply (marked_keeps (warehouse app)).
    + destruct (grid_set_keeps (warehouse app) p EMPTY Hwf Hp)
        as (g' & -> & Hwf' & _ & Hk); [right; rewrite Hc; by intros [|]|].
      eexists. split; [reflexivity|]. split; [|done]. split_and!; simpl; [done|..].
      * rewrite Hst. by apply (marked_keeps (warehouse app)).
      * rewrite Hgl. by apply (marked_keeps (warehouse app)).
  - destruct (grid_set_keeps (warehouse app) p GOAL Hwf Hp)
      as (g' & -> & Hwf' & Hc & Hk); [left; by right|].
    eexists. split; [reflexivity|]. split; [|done]. split_and!; simpl; [done|..].
    + by apply (marked_keeps (warehouse app) _ (Some s)).
    + split; [done|]. right. exact Hc.
  - destruct (grid_set_keeps (warehouse app) p START Hwf Hp)
      as (g' & -> & Hwf' & Hc & Hk); [left; by left|].
    eexists. split; [reflexivity|]. split; [|done]. split_and!; simpl; [done|..].
    + split; [done|]. left. exact Hc.
    + by apply (marked_keeps (warehouse app)).
Qed.

Lemma on_canvas_drag_ok app x y :
  ui_ok app →
  ∃ app', on_canvas_drag app x y = Some app' ∧ ui_ok app' ∧
          is_running app' = is_running app.
Proof.
  intros (Hwf & Hs & Hg). unfold on_canvas_drag.
  destruct (is_running app) eqn:Hrun; [by exists app|].
  set (p := (y `div` cell_size, x `div` cell_size)).
  destruct (in_bounds (warehouse app) p) eqn:Hp; [|by exists app].
  rewrite grid_get_cell by done. cbn [mbind option_bind].
  case_decide as Hc; [|by exists app].
  destruct (grid_set_keeps (warehouse app) p OBSTACLE Hwf Hp)
    as (g' & -> & Hwf' & _ & Hk); [right; rewrite Hc; by intros [|]|].
  eexists. split; [reflexivity|]. split; [|done]. split_and!; simpl; [done|..].
  - by apply (marked_keeps (warehouse app)).
  - by apply (marked_keeps (warehouse app)).
Qed.

Lemma add_random_obstacles_ok draw app :
  ui_ok app →
  ∃ app', add_random_obstacles draw app = Some app' ∧ ui_ok app' ∧
          is_running app' = is_running app.
Proof.
  intros Hok. destruct (clear_path_ok app Hok)
    as (app1 & Hcp & (Hwf & Hs & Hg) & _ & _ & Hrun & _).
  unfold add_random_obstacles. rewrite Hcp. simpl. eexists. split; [done|].
  split; [|done]. pose proof (scatter_keeps draw _ Hwf) as Hk.
  split_and!; simpl.
  - apply wf_scatter. by destruct (warehouse app1).
  - by apply (marked_keeps (warehouse app1)).
  - by apply (marked_keeps (warehouse app1)).
Qed.

(** X13. Every command of the editor (a click, a drag, "Reset Grid",
    "Clear Path", "Random Obstacles") succeeds on a state that satisfies
    the invariant, without an [IndexError], keeps the invariant, and does
    not start a run. *)
Theorem ui_handle_ok (app : Picker) (e : ui_event) :
  ui_ok app →
  ∃ app', ui_handle app e = Some app' ∧ ui_ok app' ∧
          (is_running app = false → is_running app' = false).
Proof.
  intros Hok. destruct e as [x y|x y| | |draw]; simpl.
  - destruct (on_canvas_click_ok app x y Hok) as (app' & ? & ? & Hr).
    exists app'. split_and!; [done..|]. by rewrite Hr.
  - destruct (on_canvas_drag_ok app x y Hok) as (app' & ? & ? & Hr).
    exists app'. split_and!; [done..|]. by rewrite Hr.
  - exists (reset_grid app). split_and!; [done| |done].
    apply reset_grid_ok, Hok.
  - destruct (clear_path_ok app Hok) as (app' & ? & ? & _ & _ & Hr & _).
    exists app'. split_and!; [done..|]. by rewrite Hr.
  - destruct (add_random_obstacles_ok draw app Hok) as (app' & ? & ? & Hr).
    exists app'. split_and!; [done..|]. by rewrite Hr.
Qed.

(** A command issued while no run is in progress. *)
Lemma ui_handle_idle app e :
  ui_ok app → is_running app = false →
  ∃ app', ui_handle app e = Some app' ∧ ui_ok app' ∧ is_running app' = false.
Proof.
  intros Hok Hrun. destruct e as [x y|x y| | |draw]; simpl.
  - destruct (on_canvas_click_ok app x y Hok) as (app' & ? & ? & Hr).
    exists app'. by rewrite Hr.
  - destruct (on_canvas_drag_ok app x y Hok) as (app' & ? & ? & Hr).
    exists app'. by rewrite Hr.
  - exists (reset_grid app). split_and!; [done| |done]. apply reset_grid_ok, Hok.
  - destruct (clear_path_ok app Hok) as (app' & ? & ? & _ & _ & Hr & _).
    exists app'. by rewrite Hr.
  - destruct (add_random_obstacles_ok draw app Hok) as (app' & ? & ? & Hr).
    exists app'. by rewrite Hr.
Qed.

Lemma ui_run_ok app es :
  ui_ok app → is_running app = false →
  ∃ app', ui_run app es = Some app' ∧ ui_ok app' ∧ is_running app' = false.
Proof.
  unfold ui_run. revert app. induction es as [|e es IH]; intros app Hok Hrun; simpl.
  - by exists app.
  - destruct (ui_handle_idle app e Hok Hrun) as (app1 & -> & Hok1 & Hrun1). simpl.
    by apply IH.
Qed.

Lemma init_ok : ui_ok init.
Proof.
  apply reset_grid_ok. split; [reflexivity|].
  cbn [warehouse grid]. by apply Forall_replicate.
Qed.

(** X14. Whatever the user does in the editor after start-up, the state
    reached satisfies the invariant: the matrix has [rows] rows of [cols]
    cells, and the start and the goal, when set, lie inside the grid on
    cells marked [START] or [GOAL]. *)
Theorem ui_run_init_ok (es : list ui_event) :
  ∃ app, ui_run init es = Some app ∧ ui_ok app ∧ is_running app = false.
Proof. apply ui_run_ok; [apply init_ok|done]. Qed.

Lemma marked_free w p : marked w (Some p) → free_cell w p.
Proof.
  intros [Hp Hm]. split; [done|]. unfold is_obstacle.
  apply bool_decide_eq_false. by destruct Hm as [-> | ->].
Qed.

Lemma cleared_no_overlay app q : is_overlay (cleared app q) = false.
Proof.
  unfold cleared. repeat case_decide; try done.
  by destruct (cell (warehouse app) q.1 q.2).
Qed.

Lemma run_scheduled_returns a app s g :
  start_pos app = Some s → goal_pos app = Some g →
  ∃ r, returns (run_scheduled a app) r.
Proof.
  intros Hs Hg. unfold run_scheduled. rewrite Hs, Hg. destruct a.
  - destruct (run_astar_spec (warehouse app) s g) as (r & ? & _). by exists r.
  - destruct (run_bfs_spec (warehouse app) s g) as (r & ? & _). by exists r.
  - destruct (run_dfs_spec (warehouse app) s g) as (r & ? & _). by exists r.
  - destruct (run_ucs_spec (warehouse app) s g) as (r & ? & _). by exists r.
  - destruct (run_dls_spec (warehouse app) s g (depth_limit_var app))
      as (r & ? & _). by exists r.
Qed.

(** X15. On a state that satisfies the invariant, with both positions set
    and no run in progress, [find_path] raises no [IndexError]: it schedules
    the selected algorithm on a grid without overlay marks whose start and
    goal lie inside the grid on cells that are not obstacles, and the
    scheduled run returns. *)
Theorem find_path_ui_ok (app : Picker) (s g : pos) :
  ui_ok app → start_pos app = Some s → goal_pos app = Some g →
  is_running app = false →
  ∃ app', find_path app = Scheduled (algorithm_var app) app' ∧
    ui_ok app' ∧ is_running app' = true ∧
    start_pos app' = Some s ∧ goal_pos app' = Some g ∧
    free_cell (warehouse app') s ∧ free_cell (warehouse app') g ∧
    (∀ q, in_bounds (warehouse app') q = true →
          is_overlay (cell (warehouse app') q.1 q.2) = false) ∧
    ∃ r, returns (run_scheduled (algorithm_var app) app') r.
Proof.
  intros Hok Hs Hg Hrun.
  destruct (clear_path_cell app) as (g0 & Hcp & _ & Hcell);
    [apply Hok|by apply ui_ok_inside|].
  destruct (clear_path_ok app Hok) as (app1 & Hcp1 & Hok1 & _).
  rewrite Hcp in Hcp1. injection Hcp1 as <-.
  unfold find_path. rewrite Hs, Hg, Hrun, Hcp. eexists. split; [done|].
  destruct Hok1 as (Hwf1 & Hs1 & Hg1). simpl in *. rewrite Hs, Hg in *.
  split_and!; try done.
  - by apply marked_free.
  - by apply marked_free.
  - intros q Hq. rewrite (Hcell q Hq). apply cleared_no_overlay.
  - by apply (run_scheduled_returns _ _ s g).
Qed.

(** The cell under the pointer at [(x, y)]. *)
Definition pointed (x y : Z) : pos := (y `div` cell_size, x `div` cell_size).

Lemma click_idle app x y :
  is_running app = true ∨ in_bounds (warehouse app) (pointed x y) = false →
  on_canvas_click app x y = Some app.
Proof.
  unfold on_canvas_click. fold (pointed x y). intros [-> | ->]; [done|].
  by destruct (is_running app).
Qed.

Lemma click_toggle app x y :
  wf_grid (warehouse app) → is_Some (start_pos app) → is_Some (goal_pos app) →
  is_running app = false → in_bounds (warehouse app) (pointed x y) = true →
  on_canvas_click app x y =
    match cell (warehouse app) (pointed x y).1 (pointed x y).2 with
    | EMPTY =>
        with_grid app <$> grid_set (grid (warehouse app)) (pointed x y) OBSTACLE
    | OBSTACLE =>
        with_grid app <$> grid_set (grid (warehouse app)) (pointed x y) EMPTY
    | _ => Some app
    end.
Proof.
  intros Hwf [s Hs] [g Hg] Hrun Hp. unfold on_canvas_click.
  fold (pointed x y). rewrite Hrun, Hp, Hs, Hg.
  by rewrite (grid_get_cell _ _ Hwf Hp).
Qed.

(** Writing [v'] and then the old value [v] at [p] restores the grid. *)
Lemma grid_set_undo app p v v' :
  wf_grid (warehouse app) → in_bounds (warehouse app) p = true →
  cell (warehouse app) p.1 p.2 = v →
  ∃ g1, grid_set (grid (warehouse app)) p v' = Some g1 ∧
        wf_grid (warehouse (with_grid app g1)) ∧
        cell (warehouse (with_grid app g1)) p.1 p.2 = v' ∧
        grid_set g1 p v = Some (grid (warehouse app)).
Proof.
  intros Hwf Hp Hc.
  destruct (grid_set_cell _ p v' Hwf Hp) as (g1 & Hg1 & Hwf1 & Hc1 & Ho1).
  set (w1 := MkWarehouse (rows (warehouse app)) (cols (warehouse app)) g1) in *.
  destruct (grid_set_cell w1 p v Hwf1 Hp) as (g2 & Hg2 & Hwf2 & Hc2 & Ho2).
  exists g1. split_and!; [done..|]. simpl in Hg2. rewrite Hg2. f_equal.
  symmetry.
  apply (grid_ext (warehouse app) (MkWarehouse (rows w1) (cols w1) g2));
    [done..|].
  intros q Hq. destruct (decide (q = p)) as [->|Hne].
  - by rewrite Hc2.
  - rewrite Ho2, Ho1; done.
Qed.

(** X16. Once start and goal are set, a click toggles an obstacle: a
    second click at the same point undoes the first, so two clicks leave
    the state as it was. *)
Theorem click_twice (app : Picker) (x y : Z) :
  wf_grid (warehouse app) → is_Some (start_pos app) → is_Some (goal_pos app) →
  ∃ app1, on_canvas_click app x y = Some app1 ∧
          on_canvas_click app1 x y = Some app.
Proof.
  intros Hwf Hs Hg.
  destruct (is_running app) eqn:Hrun;
    [exists app; rewrite click_idle by (by left); done|].
  destruct (in_bounds (warehouse app) (pointed x y)) eqn:Hp;
    [|exists app; rewrite click_idle by (by right); done].
  rewrite click_toggle by done.
  destruct (cell (warehouse app) (pointed x y).1 (pointed x y).2) eqn:Hc;
    try (exists app; split; [done|]; rewrite click_toggle by done; by rewrite Hc).
  - destruct (grid_set_undo app _ EMPTY OBSTACLE Hwf Hp Hc)
      as (g1 & -> & Hwf1 & Hc1 & Hback).
    eexists. split; [reflexivity|]. rewrite click_toggle by done.
    rewrite Hc1. simpl. rewrite Hback. simpl. f_equal.
    by destruct app as [[] ? ? ? ? ? ?].
  - destruct (grid_set_undo app _ OBSTACLE EMPTY Hwf Hp Hc)
      as (g1 & -> & Hwf1 & Hc1 & Hback).
    eexists. split; [reflexivity|]. rewrite click_toggle by done.
    rewrite Hc1. simpl. rewrite Hback. simpl. f_equal.
    by destruct app as [[] ? ? ? ? ? ?].
Qed.

(** X17. Dragging only paints: the cell under the pointer becomes an
    obstacle when it is empty and nothing else changes, so no obstacle is
    ever removed and a second drag over the same point changes nothing. *)
Theorem drag_paints (app : Picker) (x y : Z) :
  wf_grid (warehouse app) →
  ∃ app1, on_canvas_drag app x y = Some app1 ∧
    on_canvas_drag app1 x y = Some app1 ∧
    start_pos app1 = start_pos app ∧ goal_pos app1 = goal_pos app ∧
    ∀ q, in_bounds (warehouse app) q = true →
      cell (warehouse app1) q.1 q.2 = cell (warehouse app) q.1 q.2 ∨
      q = pointed x y ∧ cell (warehouse app) q.1 q.2 = EMPTY ∧
      cell (warehouse app1) q.1 q.2 = OBSTACLE.
Proof.
  intros Hwf. unfold on_canvas_drag. fold (pointed x y).
  destruct (is_running app) eqn:Hrun.
  { exists app. rewrite Hrun. split_and!; try done. by left. }
  destruct (in_bounds (warehouse app) (pointed x y)) eqn:Hp.
  2:{ exists app. rewrite Hrun, Hp. split_and!; try done. by left. }
  rewrite grid_get_cell by done. cbn [mbind option_bind].
  case_decide as Hc.
  2:{ exists app. rewrite Hrun, Hp, grid_get_cell by done. cbn [mbind option_bind].
      rewrite decide_False by done. split_and!; try done. by left. }
  destruct (grid_set_cell _ (pointed x y) OBSTACLE Hwf Hp)
    as (g1 & -> & Hwf1 & Hc1 & Ho1).
  eexists. split; [reflexivity|]. cbn [with_grid is_running warehouse].
  rewrite Hrun. change (in_bounds _ (pointed x y)) with
    (in_bounds (warehouse app) (pointed x y)). rewrite Hp.
  rewrite (grid_get_cell (MkWarehouse _ _ g1)) by done. cbn [mbind option_bind].
  rewrite Hc1, decide_False by done. split_and!; try done.
  intros q Hq. destruct (decide (q = pointed x y)) as [->|Hne].
  - right. by rewrite Hc1.
  - left. by apply Ho1.
Qed.

(** X18. [clear_path] removes every overlay mark and is idempotent: on a
    well-formed grid with the positions inside, no cell is left [PATH],
    [VISITED], [FRONTIER] or [CURRENT], and clearing again changes
    nothing. *)
Theorem clear_path_idempotent (app : Picker) :
  wf_grid (warehouse app) → positions_inside app →
  ∃ app', clear_path app = Some app' ∧ clear_path app' = Some app' ∧
    ∀ q, in_bounds (warehouse app') q = true →
         is_overlay (cell (warehouse app') q.1 q.2) = false.
Proof.
  intros Hwf Hin. destruct (clear_path_cell app Hwf Hin) as (g0 & Hcp & Hwf0 & Hc0).
  exists (with_grid app g0). split; [done|].
  destruct (clear_path_cell (with_grid app g0) Hwf0 Hin) as (g1 & Hcp1 & Hwf1 & Hc1).
  split.
  - rewrite Hcp1. f_equal.
    assert (g1 = g0) as ->; [|done]. symmetry.
    apply (grid_ext (warehouse (with_grid app g0))
                    (warehouse (with_grid (with_grid app g0) g1))); [done..|].
    intros q Hq. rewrite (Hc1 q Hq), (Hc0 q Hq). unfold cleared at 2.
    change (goal_pos (with_grid app g0)) with (goal_pos app).
    change (start_pos (with_grid app g0)) with (start_pos app).
    rewrite (Hc0 q Hq). unfold cleared. repeat case_decide; try done.
    by destruct (cell (warehouse app) q.1 q.2).
  - intros q Hq. rewrite (Hc0 q Hq). apply cleared_no_overlay.
Qed.

(** X19. "Random Obstacles" only turns empty cells into obstacles: after
    the clearing that it starts with, a cell changes only from [EMPTY] to
    [OBSTACLE], and only where the draw says so; the start and the goal
    cell are never covered. *)
Theorem add_random_obstacles_spec (draw : nat → nat → bool) (app : Picker) :
  wf_grid (warehouse app) → positions_inside app →
  ∃ app', add_random_obstacles draw app = Some app' ∧
    wf_grid (warehouse app') ∧
    start_pos app' = start_pos app ∧ goal_pos app' = goal_pos app ∧
    ∀ q, in_bounds (warehouse app) q = true →
      cell (warehouse app') q.1 q.2 =
        if decide (cleared app q = EMPTY)
        then (if draw (Z.to_nat q.1) (Z.to_nat q.2) then OBSTACLE else EMPTY)
        else cleared app q.
Proof.
  intros Hwf Hin. destruct (clear_path_cell app Hwf Hin) as (g0 & Hcp & Hwf0 & Hc0).
  unfold add_random_obstacles. rewrite Hcp. simpl. eexists. split; [done|].
  split_and!; try done.
  - by apply (wf_scatter draw _ _ g0).
  - intros q Hq.
    pose proof (cell_scatter draw (warehouse (with_grid app g0)) q Hwf0 Hq) as Hsc.
    cbv zeta in Hsc. rewrite (Hc0 q Hq) in Hsc.
    etrans; [exact Hsc|]. case_decide as He; [|done]. by rewrite He.
Qed.

(** ** Random start and goal *)

Lemma NoDup_cprod_seqZ (n m : Z) : NoDup (cprod (seqZ 0 n) (seqZ 0 m)).
Proof.
  unfold cprod, list_cprod. apply NoDup_bind.
  - intros x1 x2 y _ _ (? & -> & _)%list_elem_of_fmap (? & [= <- _] & _)%list_elem_of_fmap.
    done.
  - intros x _. apply NoDup_fmap_2; [|apply NoDup_seqZ]. by intros ?? [= ->].
  - apply NoDup_seqZ.
Qed.

Lemma elem_of_empty_cells w p :
  p ∈ empty_cells w ↔ in_bounds w p = true ∧ cell w p.1 p.2 = EMPTY.
Proof.
  unfold empty_cells. rewrite list_elem_of_filter, list_elem_of_cprod,
    !elem_of_seqZ, in_bounds_spec. tauto.
Qed.

Lemma NoDup_empty_cells w : NoDup (empty_cells w).
Proof. apply NoDup_filter, NoDup_cprod_seqZ. Qed.

(** The two ways "Random Start/Goal" can go, cell by cell. *)
Lemma random_start_goal_cases (start_idx : nat) (goal_draws : list nat)
    (app app' : Picker) :
  ui_ok app → random_start_goal start_idx goal_draws app = Some app' →
  wf_grid (warehouse app') ∧
  ∃ app1, clear_path app = Some app1 ∧
    (∀ q, in_bounds (warehouse app') q = in_bounds (warehouse app1) q) ∧
    ((length (empty_cells (warehouse app1)) < 2)%nat ∧ app' = app1 ∨
     ∃ s g, start_pos app' = Some s ∧ goal_pos app' = Some g ∧ s ≠ g ∧
       s ∈ empty_cells (warehouse app1) ∧ g ∈ empty_cells (warehouse app1) ∧
       cell (warehouse app') s.1 s.2 = START ∧
       cell (warehouse app') g.1 g.2 = GOAL ∧
       ∀ q, in_bounds (warehouse app) q = true → q ≠ s → q ≠ g →
            cell (warehouse app') q.1 q.2 = cell (warehouse app1) q.1 q.2).
Proof.
  intros Hok. destruct (clear_path_ok app Hok)
    as (app1 & Hcp & Hok1 & Hs1 & Hg1 & Hrun1 & Hk1).
  unfold random_start_goal. rewrite Hcp. cbn [mbind option_bind].
  case_decide as Hlen.
  { intros [= <-]. split; [apply Hok1|]. exists app1. split_and!; [done..|by left]. }
  destruct (empty_cells (warehouse app1) !! start_idx) as [s|] eqn:Hs; [|done].
  cbn [mbind option_bind].
  destruct (head (filter (λ i, i ≠ start_idx) goal_draws)) as [goal_idx|] eqn:Hgi;
    [|done]. cbn [mbind option_bind].
  destruct (empty_cells (warehouse app1) !! goal_idx) as [g|] eqn:Hg; [|done].
  cbn [mbind option_bind].
  assert (goal_idx ≠ start_idx) as Hidx.
  { apply head_Some_elem_of in Hgi. by apply list_elem_of_filter in Hgi as [? _]. }
  assert (s ≠ g) as Hsg.
  { intros ->. apply Hidx. symmetry.
    by apply (NoDup_lookup _ _ _ g (NoDup_empty_cells (warehouse app1))). }
  pose proof (list_elem_of_lookup_2 _ _ _ Hs) as Hse.
  pose proof (list_elem_of_lookup_2 _ _ _ Hg) as Hge.
  pose proof Hse as [Hsb Hsc]%elem_of_empty_cells.
  pose proof Hge as [Hgb Hgc]%elem_of_empty_cells.
  destruct Hok1 as (Hwf1 & Hms & Hmg).
  destruct (grid_set_cell (warehouse app1) s START Hwf1 Hsb)
    as (g1 & Hset1 & Hwf2 & Hc2 & Ho2).
  set (w2 := MkWarehouse (rows (warehouse app1)) (cols (warehouse app1)) g1) in *.
  destruct (grid_set_cell w2 g GOAL Hwf2 Hgb) as (g2 & Hset2 & Hwf3 & Hc3 & Ho3).
  rewrite Hset1. cbn [mbind option_bind]. simpl in Hset2. rewrite Hset2.
  cbn [mbind option_bind]. intros [= <-]. split; [done|].
  exists app1. split_and!; [done..|]. right. exists s, g. simpl.
  split_and!; try done.
  - rewrite Ho3; done.
  - intros q Hq Hqs Hqg.
    assert (in_bounds (warehouse app1) q = true) as Hq1.
    { destruct Hk1 as (Hr & Hc & _). unfold in_bounds in *. by rewrite Hr, Hc. }
    rewrite Ho3, Ho2; done.
Qed.

(** X20. "Random Start/Goal", when it finds two empty cells, puts the
    start and the goal on two different cells that were empty after the
    clearing, marks them, and changes no other cell; with fewer than two
    empty cells it only clears.  The invariant of the editor is kept. *)
Theorem random_start_goal_spec (start_idx : nat) (goal_draws : list nat)
    (app app' : Picker) :
  ui_ok app → random_start_goal start_idx goal_draws app = Some app' →
  ui_ok app' ∧
  ∃ app1, clear_path app = Some app1 ∧
    ((length (empty_cells (warehouse app1)) < 2)%nat ∧ app' = app1 ∨
     ∃ s g, start_pos app' = Some s ∧ goal_pos app' = Some g ∧ s ≠ g ∧
       s ∈ empty_cells (warehouse app1) ∧ g ∈ empty_cells (warehouse app1) ∧
       cell (warehouse app') s.1 s.2 = START ∧
       cell (warehouse app') g.1 g.2 = GOAL ∧
       ∀ q, in_bounds (warehouse app) q = true → q ≠ s → q ≠ g →
            cell (warehouse app') q.1 q.2 = cell (warehouse app1) q.1 q.2).
Proof.
  intros Hok Hrsg.
  destruct (random_start_goal_cases _ _ _ _ Hok Hrsg)
    as (Hwf' & app1 & Hcp & Hb & Hcases).
  split; [|by exists app1].
  destruct Hcases as [[_ ->]|(s & g & Hs & Hg & _ & Hse & Hge & Hcs & Hcg & _)].
  - destruct (clear_path_ok app Hok) as (app2 & Hcp2 & Hok2 & _).
    rewrite Hcp in Hcp2. by injection Hcp2 as <-.
  - apply elem_of_empty_cells in Hse as [Hsb _].
    apply elem_of_empty_cells in Hge as [Hgb _].
    split_and!; [done|rewrite Hs|rewrite Hg]; (split; [by rewrite Hb|]).
    + by left.
    + by right.
Qed.

(** X21. "Random Start/Goal" never erases the mark of the previous start:
    when it draws new positions, the old start cell still reads [START]
    although the start is now elsewhere, so the grid shows a second
    [START] cell. *)
Theorem random_start_goal_stale_start (start_idx : nat) (goal_draws : list nat)
    (app app' : Picker) (p : pos) :
  ui_ok app → start_pos app = Some p → goal_pos app ≠ Some p →
  random_start_goal start_idx goal_draws app = Some app' →
  start_pos app' ≠ start_pos app →
  cell (warehouse app') p.1 p.2 = START ∧
  ∃ s, start_pos app' = Some s ∧ s ≠ p ∧ cell (warehouse app') s.1 s.2 = START.
Proof.
  intros Hok Hp Hgp Hrsg Hmoved.
  destruct (random_start_goal_cases _ _ _ _ Hok Hrsg)
    as (_ & app1 & Hcp & _ & Hcases).
  destruct (clear_path_cell app) as (g0 & Hcp0 & _ & Hcell);
    [apply Hok|by apply ui_ok_inside|].
  rewrite Hcp in Hcp0. injection Hcp0 as ->.
  assert (in_bounds (warehouse app) p = true) as Hpb
    by (apply (ui_ok_inside app Hok); by left).
  assert (cell (warehouse (with_grid app g0)) p.1 p.2 = START) as Hold.
  { rewrite (Hcell p Hpb). unfold cleared.
    rewrite decide_False by done. by rewrite decide_True. }
  destruct Hcases as [[_ ->]|(s & g & Hs & Hg & Hsg & Hse & Hge & Hcs & Hcg & Ho)].
  { by destruct Hmoved. }
  apply elem_of_empty_cells in Hse as [_ Hse]. apply elem_of_empty_cells in Hge as [_ Hge].
  assert (s ≠ p) as Hsp by (intros ->; congruence).
  assert (g ≠ p) as Hgp' by (intros ->; congruence).
  split; [|by exists s]. rewrite Ho; done.
Qed.

(** ** The robot's walk *)

(** X22. The walk along a path takes one callback per cell and one more:
    then the robot stands on the last cell of the path (or where it was, for
    an empty path), [is_running] is off, and the path list, which is the
    object kept in [self.path], is empty. *)
Theorem move_robot_along_path_ends (st : robot_state) (fuel : nat) :
  move_robot_along_path fuel st =
    if decide (length (path st) < fuel)%nat
    then Some (MkRobot (match last (path st) with
                        | Some p => Some p
                        | None => robot_pos st
                        end) [] false)
    else None.
Proof.
  unfold move_robot_along_path. revert st.
  induction fuel as [|fuel IH]; intros [rp p run].
  - cbn [while_loop path]. by rewrite decide_False by lia.
  - cbn [while_loop]. unfold move_robot_step at 1.
    cbn [path robot_pos robot_running]. destruct p as [|x p].
    + by rewrite decide_True by (cbn [length]; lia).
    + rewrite IH. cbn [path robot_pos length].
      destruct (decide (length p < fuel)%nat).
      * rewrite decide_True by lia. rewrite last_cons. by destruct (last p).
      * by rewrite decide_False by lia.
Qed.

(** ** Layout files *)

Lemma CellType_value_inv c : CellType_of_value (CellType_value c) = Some c.
Proof. by destruct c. Qed.

Lemma mapM_seq {B} (h : nat → option B) (k : list B) :
  (∀ j y, k !! j = Some y → h j = Some y) →
  mapM h (seq 0 (length k)) = Some k.
Proof.
  intros H. apply mapM_Some, Forall2_same_length_lookup_2.
  - by rewrite length_seq.
  - intros i x y [-> _]%lookup_seq Hy. by apply H.
Qed.

Lemma mapM_seq_inv {B} (h : nat → option B) n (k : list B) :
  mapM h (seq 0 n) = Some k → length k = n.
Proof. intros H%length_mapM. by rewrite length_seq in H. Qed.

Lemma load_rows_all l g a acc :
  (∀ i line, g !! i = Some line →
     mapM (λ j, (l_grid l !! (a + i)%nat ≫= λ line, line !! j) ≫= CellType_of_value)
          (seq 0 (Z.to_nat (l_cols l))) = Some line) →
  load_rows l (seq a (length g)) acc = (acc ++ g, true).
Proof.
  revert a acc. induction g as [|line g IH]; intros a acc H; simpl.
  - by rewrite app_nil_r.
  - pose proof (H 0%nat line eq_refl) as H0. rewrite Nat.add_0_r in H0.
    rewrite H0. rewrite IH; [by rewrite <- app_assoc|].
    intros i line' Hi. specialize (H (S i) line' Hi).
    by replace (S a + i)%nat with (a + S i)%nat by lia.
Qed.

Lemma load_rows_wf l range acc g :
  load_rows l range acc = (g, true) →
  length g = (length acc + length range)%nat ∧
  (Forall (λ r, length r = Z.to_nat (l_cols l)) acc →
   Forall (λ r, length r = Z.to_nat (l_cols l)) g).
Proof.
  revert acc. induction range as [|i range IH]; intros acc; simpl.
  - intros [= <-]. split; [lia|done].
  - destruct (mapM _ _) as [row|] eqn:Hrow; [|done].
    intros [Hlen Hf]%IH. rewrite length_app in Hlen. simpl in Hlen.
    split; [lia|]. intros Hacc. apply Hf, Forall_app. split; [done|].
    constructor; [|done]. by apply mapM_seq_inv in Hrow.
Qed.

Lemma load_rows_short l range acc g :
  load_rows l range acc = (g, false) →
  (length g < length acc + length range)%nat.
Proof.
  revert acc. induction range as [|i range IH]; intros acc; simpl; [done|].
  destruct (mapM _ _) as [row|] eqn:Hrow.
  - intros Hlen%IH. rewrite length_app in Hlen. simpl in Hlen. lia.
  - intros [= <-]. lia.
Qed.

(** X23. A layout written by [save_layout] is read back by [load_layout]
    as it was: the grid, its size and the two positions are those of the
    saved state. *)
Theorem save_load_round_trip (app other : Picker) :
  wf_grid (warehouse app) →
  ∃ l, save_layout app = Some l ∧
    load_layout l other =
      Loaded (MkPicker (warehouse app) (start_pos app) (goal_pos app)
                       (is_running other) (algorithm_var other)
                       (depth_limit_var other) (stats_algorithm other)).
Proof.
  intros Hwf. pose proof Hwf as [Hr Hf]. destruct app as [[r c g] s gl run alg dl st].
  simpl in *.
  assert (∀ i line, g !! i = Some line → length line = Z.to_nat c) as Hline.
  { intros i line Hl. pose proof (Forall_lookup_1 _ _ _ _ Hf Hl) as H. simpl in H. lia. }
  assert (Z.to_nat r = length g) as Hrows by lia.
  exists (MkLayout r c ((λ line : list CellType, CellType_value <$> line) <$> g) s gl). split.
  - unfold save_layout. simpl. rewrite Hrows.
    rewrite <- (length_fmap (λ line : list CellType, CellType_value <$> line) g).
    rewrite (mapM_seq _ ((λ line : list CellType, CellType_value <$> line) <$> g)); [done|].
    intros i vs Hi. rewrite list_lookup_fmap in Hi.
    destruct (g !! i) as [line|] eqn:Hl; [|done]. injection Hi as <-.
    simpl. rewrite <- (Hline i line Hl).
    rewrite <- (length_fmap CellType_value line). apply mapM_seq.
    intros j v Hj. rewrite list_lookup_fmap in Hj. by rewrite Hj.
  - unfold load_layout. simpl. rewrite Hrows.
    rewrite (load_rows_all _ g 0 []); [done|].
    intros i line Hl. simpl. rewrite list_lookup_fmap, Hl. simpl.
    rewrite <- (Hline i line Hl). apply mapM_seq.
    intros j y Hj. rewrite list_lookup_fmap, Hj. simpl.
    apply CellType_value_inv.
Qed.

(** X24. A layout that loads without error and declares a non-negative
    size gives a well-formed grid of that size. *)
Theorem load_layout_wf (l : Layout) (app app' : Picker) :
  0 ≤ l_rows l → 0 ≤ l_cols l → load_layout l app = Loaded app' →
  wf_grid (warehouse app') ∧
  rows (warehouse app') = l_rows l ∧ cols (warehouse app') = l_cols l ∧
  start_pos app' = l_start_pos l ∧ goal_pos app' = l_goal_pos l.
Proof.
  intros Hr Hc. unfold load_layout.
  destruct (load_rows l _ []) as [g ok] eqn:Hload. destruct ok; [|done].
  intros [= <-]. simpl. split_and!; try done.
  apply load_rows_wf in Hload as [Hlen Hf]. rewrite length_seq in Hlen.
  split; simpl.
  - simpl in Hlen. lia.
  - eapply Forall_impl; [by apply Hf|]. intros row Hrow. simpl in Hrow. lia.
Qed.

(** X25. A load that fails is not undone: the object keeps the new
    [rows] and [cols] and the rows read before the error, fewer than
    [rows], so its grid is ill formed; the positions are the old ones. *)
Theorem load_layout_error (l : Layout) (app app' : Picker) :
  load_layout l app = LoadError app' →
  ¬ wf_grid (warehouse app') ∧
  rows (warehouse app') = l_rows l ∧ cols (warehouse app') = l_cols l ∧
  Z.of_nat (length (grid (warehouse app'))) < l_rows l ∧
  start_pos app' = start_pos app ∧ goal_pos app' = goal_pos app.
Proof.
  unfold load_layout.
  destruct (load_rows l _ []) as [g ok] eqn:Hload. destruct ok; [done|].
  intros [= <-]. simpl. apply load_rows_short in Hload.
  rewrite length_seq in Hload. simpl in Hload.
  split_and!; try done; [|lia]. intros [Hlen _]. simpl in Hlen. lia.
Qed.

(** ** The further properties at concrete inputs *)

Lemma right_of_corner : (0, 1) ∈ get_neighbors (empty_grid 2 2) (0, 0).
Proof. vm_compute. apply list_elem_of_here. Qed.

Lemma heuristic_consistent_witness :
  (0, 1) ∈ get_neighbors (empty_grid 2 2) (0, 0) ∧
  Z.abs (heuristic (0, 0) (1, 1) - heuristic (0, 1) (1, 1)) = 1.
Proof.
  split; [apply right_of_corner|].
  apply (heuristic_consistent (empty_grid 2 2) (0, 0) (0, 1) (1, 1)).
  apply right_of_corner.
Defined.

Lemma heuristic_admissible_witness :
  grid_path (empty_grid 2 2) (0, 0) (1, 1) [(0, 0); (0, 1); (1, 1)] ∧
  heuristic (0, 0) (1, 1) + 1 ≤ Z.of_nat (length [(0, 0); (0, 1); (1, 1)]).
Proof.
  split; [apply square_path|].
  apply (heuristic_admissible (empty_grid 2 2) (0, 0) (1, 1)). apply square_path.
Defined.


Definition one_link : gmap pos pos := {[ (0, 1) := (0, 0) ]}.

Lemma reconstruct_path_sound_witness :
  reconstruct_path 5 one_link (0, 1) = Some [(0, 0); (0, 1)] ∧
  last [(0, 0); (0, 1)] = Some (0, 1) ∧
  (∃ root, head [(0, 0); (0, 1)] = Some root ∧ one_link !! root = None) ∧
  chained (λ a b, one_link !! b = Some a) [(0, 0); (0, 1)].
Proof.
  split; [vm_compute; reflexivity|].
  apply (reconstruct_path_sound 5 one_link (0, 1) [(0, 0); (0, 1)]).
  vm_compute; reflexivity.
Defined.

Definition two_cycle : gmap pos pos := {[ (0, 0) := (0, 1); (0, 1) := (0, 0) ]}.

Definition on_cycle (v : pos) : Prop := v = (0, 0) ∨ v = (0, 1).

Lemma two_cycle_closed v :
  on_cycle v → ∃ u, two_cycle !! v = Some u ∧ on_cycle u.
Proof.
  intros [-> | ->].
  - exists (0, 1). split; [vm_compute; reflexivity|by right].
  - exists (0, 0). split; [vm_compute; reflexivity|by left].
Qed.

Lemma reconstruct_path_cycle_witness :
  (∀ v, on_cycle v → ∃ u, two_cycle !! v = Some u ∧ on_cycle u) ∧
  on_cycle (0, 0) ∧
  ∀ fuel, reconstruct_path fuel two_cycle (0, 0) = None.
Proof.
  split; [apply two_cycle_closed|]. split; [by left|].
  apply (reconstruct_path_cycle on_cycle two_cycle (0, 0)).
  - apply two_cycle_closed.
  - by left.
Defined.

Lemma uninformed_search_complete_witness :
  wf_grid (empty_grid 2 2) ∧
  run_dfs (empty_grid 2 2) (0, 0) (1, 1) ∈
    [run_bfs (empty_grid 2 2) (0, 0) (1, 1); run_dfs (empty_grid 2 2) (0, 0) (1, 1);
     run_ucs (empty_grid 2 2) (0, 0) (1, 1)] ∧
  ∃ r, returns (run_dfs (empty_grid 2 2) (0, 0) (1, 1)) r ∧
       search_ok (empty_grid 2 2) (0, 0) (1, 1) r ∧
       (connected (empty_grid 2 2) (0, 0) (1, 1) ↔ ∃ p, result r = PathFound p).
Proof.
  split; [apply empty_grid_wf|].
  split; [apply list_elem_of_further, list_elem_of_here|].
  apply (uninformed_search_complete (empty_grid 2 2) (0, 0) (1, 1)).
  - apply empty_grid_wf.
  - apply list_elem_of_further, list_elem_of_here.
Defined.

Lemma run_ucs_shortest_witness :
  wf_grid (empty_grid 2 2) ∧
  (∃ p, grid_path (empty_grid 2 2) (0, 0) (1, 1) p) ∧
  ∃ r path,
    returns (run_ucs (empty_grid 2 2) (0, 0) (1, 1)) r ∧
    result r = PathFound path ∧
    grid_path (empty_grid 2 2) (0, 0) (1, 1) path ∧
    ∀ q, grid_path (empty_grid 2 2) (0, 0) (1, 1) q → (length path ≤ length q)%nat.
Proof.
  split; [apply empty_grid_wf|].
  split; [eexists; apply square_path|].
  apply (run_ucs_shortest (empty_grid 2 2) (0, 0) (1, 1)).
  - apply empty_grid_wf.
  - eexists. apply square_path.
Defined.

Lemma run_astar_complete_witness :
  wf_grid (empty_grid 2 2) ∧
  ∃ r, returns (run_astar (empty_grid 2 2) (0, 0) (1, 1)) r ∧
       search_ok (empty_grid 2 2) (0, 0) (1, 1) r ∧
       (connected (empty_grid 2 2) (0, 0) (1, 1) ↔ ∃ p, result r = PathFound p).
Proof.
  split; [apply empty_grid_wf|].
  apply (run_astar_complete (empty_grid 2 2) (0, 0) (1, 1)). apply empty_grid_wf.
Defined.

Lemma run_dls_large_limit_witness :
  wf_grid (empty_grid 2 3) ∧ in_bounds (empty_grid 2 3) (0, 2) = true ∧
  rows (empty_grid 2 3) * cols (empty_grid 2 3) ≤ 6 ∧
  ∃ r, returns (run_dls (empty_grid 2 3) (0, 2) (0, 0) 6) r ∧
       match result r with
       | PathFound p =>
           head p = Some (0, 2) ∧ last p = Some (0, 0) ∧ moves (empty_grid 2 3) p
       | NoPathFound => False
       | NoPathWithinLimit => ¬ connected (empty_grid 2 3) (0, 2) (0, 0)
       end.
Proof.
  split; [apply empty_grid_wf|]. split; [reflexivity|]. split; [simpl; lia|].
  apply (run_dls_large_limit (empty_grid 2 3) (0, 2) (0, 0) 6).
  - apply empty_grid_wf.
  - reflexivity.
  - simpl; lia.
Defined.

Lemma run_dls_path_within_limit_witness :
  wf_grid (empty_grid 2 3) ∧ 0 ≤ 3 ∧
  ∃ r, returns (run_dls (empty_grid 2 3) (0, 2) (0, 0) 3) r ∧
       result r ≠ NoPathFound ∧
       (∀ p, result r = PathFound p →
             head p = Some (0, 2) ∧ last p = Some (0, 0) ∧
             moves (empty_grid 2 3) p ∧ Z.of_nat (length p) ≤ 3 + 1) ∧
       ((∀ k, reach (empty_grid 2 3) (0, 2) k (0, 0) → 3 < Z.of_nat k) →
        result r = NoPathWithinLimit).
Proof.
  split; [apply empty_grid_wf|]. split; [lia|].
  apply (run_dls_path_within_limit (empty_grid 2 3) (0, 2) (0, 0) 3);
    [apply empty_grid_wf|lia].
Defined.

Lemma nodes_visited_bounded_witness :
  wf_grid (empty_grid 2 2) ∧ in_bounds (empty_grid 2 2) (0, 0) = true ∧
  run_astar (empty_grid 2 2) (0, 0) (1, 1) ∈
    [run_astar (empty_grid 2 2) (0, 0) (1, 1); run_bfs (empty_grid 2 2) (0, 0) (1, 1);
     run_dfs (empty_grid 2 2) (0, 0) (1, 1); run_ucs (empty_grid 2 2) (0, 0) (1, 1);
     run_dls (empty_grid 2 2) (0, 0) (1, 1) 15] ∧
  ∃ r, returns (run_astar (empty_grid 2 2) (0, 0) (1, 1)) r ∧
       Z.of_nat (nodes_visited r) ≤ rows (empty_grid 2 2) * cols (empty_grid 2 2).
Proof.
  split; [apply empty_grid_wf|]. split; [reflexivity|].
  split; [apply list_elem_of_here|].
  apply (nodes_visited_bounded (empty_grid 2 2) (0, 0) (1, 1) 15).
  - apply empty_grid_wf.
  - reflexivity.
  - apply list_elem_of_here.
Defined.

Lemma ui_handle_ok_witness :
  ui_ok init ∧
  ∃ app', ui_handle init (Click 30 50) = Some app' ∧ ui_ok app' ∧
          (is_running init = false → is_running app' = false).
Proof.
  split; [apply init_ok|]. apply (ui_handle_ok init (Click 30 50)). apply init_ok.
Defined.

(** A grid of two rows and two columns with the start in one corner and
    the goal in the opposite one. *)
Definition two_marks : Picker :=
  MkPicker (MkWarehouse 2 2 [[START; EMPTY]; [EMPTY; GOAL]])
           (Some (0, 0)) (Some (1, 1)) false BFS 15 None.

Lemma two_marks_wf : wf_grid (warehouse two_marks).
Proof. split; [reflexivity|repeat constructor]. Qed.

Lemma two_marks_inside : positions_inside two_marks.
Proof. intros p [[= <-]|[= <-]]; reflexivity. Qed.

Lemma two_marks_ok : ui_ok two_marks.
Proof.
  split_and!; [apply two_marks_wf|..].
  - split; [reflexivity|by left].
  - split; [reflexivity|by right].
Qed.

Lemma find_path_ui_ok_witness :
  ui_ok two_marks ∧ start_pos two_marks = Some (0, 0) ∧
  goal_pos two_marks = Some (1, 1) ∧ is_running two_marks = false ∧
  ∃ app', find_path two_marks = Scheduled (algorithm_var two_marks) app' ∧
    ui_ok app' ∧ is_running app' = true ∧
    start_pos app' = Some (0, 0) ∧ goal_pos app' = Some (1, 1) ∧
    free_cell (warehouse app') (0, 0) ∧ free_cell (warehouse app') (1, 1) ∧
    (∀ q, in_bounds (warehouse app') q = true →
          is_overlay (cell (warehouse app') q.1 q.2) = false) ∧
    ∃ r, returns (run_scheduled (algorithm_var two_marks) app') r.
Proof.
  split; [apply two_marks_ok|]. split; [reflexivity|]. split; [reflexivity|].
  split; [reflexivity|].
  apply (find_path_ui_ok two_marks (0, 0) (1, 1)); [apply two_marks_ok|reflexivity..].
Defined.

Lemma click_twice_witness :
  wf_grid (warehouse two_marks) ∧ is_Some (start_pos two_marks) ∧
  is_Some (goal_pos two_marks) ∧
  ∃ app1, on_canvas_click two_marks 25 5 = Some app1 ∧
          on_canvas_click app1 25 5 = Some two_marks.
Proof.
  split; [apply two_marks_wf|]. split; [by eexists|]. split; [by eexists|].
  apply (click_twice two_marks 25 5); [apply two_marks_wf|by eexists..].
Defined.

Lemma drag_paints_witness :
  wf_grid (warehouse two_marks) ∧
  ∃ app1, on_canvas_drag two_marks 25 5 = Some app1 ∧
    on_canvas_drag app1 25 5 = Some app1 ∧
    start_pos app1 = start_pos two_marks ∧ goal_pos app1 = goal_pos two_marks ∧
    ∀ q, in_bounds (warehouse two_marks) q = true →
      cell (warehouse app1) q.1 q.2 = cell (warehouse two_marks) q.1 q.2 ∨
      q = pointed 25 5 ∧ cell (warehouse two_marks) q.1 q.2 = EMPTY ∧
      cell (warehouse app1) q.1 q.2 = OBSTACLE.
Proof.
  split; [apply two_marks_wf|]. apply (drag_paints two_marks 25 5).
  apply two_marks_wf.
Defined.

Lemma clear_path_idempotent_witness :
  wf_grid (warehouse two_marks) ∧ positions_inside two_marks ∧
  ∃ app', clear_path two_marks = Some app' ∧ clear_path app' = Some app' ∧
    ∀ q, in_bounds (warehouse app') q = true →
         is_overlay (cell (warehouse app') q.1 q.2) = false.
Proof.
  split; [apply two_marks_wf|]. split; [apply two_marks_inside|].
  apply (clear_path_idempotent two_marks); [apply two_marks_wf|apply two_marks_inside].
Defined.

Lemma add_random_obstacles_spec_witness :
  wf_grid (warehouse two_marks) ∧ positions_inside two_marks ∧
  ∃ app', add_random_obstacles (λ _ _, true) two_marks = Some app' ∧
    wf_grid (warehouse app') ∧
    start_pos app' = start_pos two_marks ∧ goal_pos app' = goal_pos two_marks ∧
    ∀ q, in_bounds (warehouse two_marks) q = true →
      cell (warehouse app') q.1 q.2 =
        if decide (cleared two_marks q = EMPTY)
        then (if (λ _ _ : nat, true) (Z.to_nat q.1) (Z.to_nat q.2)
              then OBSTACLE else EMPTY)
        else cleared two_marks q.
Proof.
  split; [apply two_marks_wf|]. split; [apply two_marks_inside|].
  apply (add_random_obstacles_spec (λ _ _, true) two_marks);
    [apply two_marks_wf|apply two_marks_inside].
Defined.

(** The state after "Random Start/Goal" on [two_marks] with the draws 0
    for the start and 0, 1 for the goal. *)
Definition redrawn : Picker :=
  MkPicker (MkWarehouse 2 2 [[START; START]; [GOAL; GOAL]])
           (Some (0, 1)) (Some (1, 0)) false BFS 15 None.

Lemma redrawn_eq : random_start_goal 0 [0; 1]%nat two_marks = Some redrawn.
Proof. vm_compute. reflexivity. Qed.

Lemma random_start_goal_spec_witness :
  ui_ok two_marks ∧ random_start_goal 0 [0; 1]%nat two_marks = Some redrawn ∧
  ui_ok redrawn ∧
  ∃ app1, clear_path two_marks = Some app1 ∧
    ((length (empty_cells (warehouse app1)) < 2)%nat ∧ redrawn = app1 ∨
     ∃ s g, start_pos redrawn = Some s ∧ goal_pos redrawn = Some g ∧ s ≠ g ∧
       s ∈ empty_cells (warehouse app1) ∧ g ∈ empty_cells (warehouse app1) ∧
       cell (warehouse redrawn) s.1 s.2 = START ∧
       cell (warehouse redrawn) g.1 g.2 = GOAL ∧
       ∀ q, in_bounds (warehouse two_marks) q = true → q ≠ s → q ≠ g →
            cell (warehouse redrawn) q.1 q.2 = cell (warehouse app1) q.1 q.2).
Proof.
  split; [apply two_marks_ok|]. split; [apply redrawn_eq|].
  apply (random_start_goal_spec 0 [0; 1]%nat two_marks redrawn);
    [apply two_marks_ok|apply redrawn_eq].
Defined.

Lemma random_start_goal_stale_start_witness :
  ui_ok two_marks ∧ start_pos two_marks = Some (0, 0) ∧
  goal_pos two_marks ≠ Some (0, 0) ∧
  random_start_goal 0 [0; 1]%nat two_marks = Some redrawn ∧
  start_pos redrawn ≠ start_pos two_marks ∧
  cell (warehouse redrawn) (0, 0).1 (0, 0).2 = START ∧
  ∃ s, start_pos redrawn = Some s ∧ s ≠ (0, 0) ∧
       cell (warehouse redrawn) s.1 s.2 = START.
Proof.
  split; [apply two_marks_ok|]. split; [reflexivity|]. split; [done|].
  split; [apply redrawn_eq|]. split; [done|].
  apply (random_start_goal_stale_start 0 [0; 1]%nat two_marks redrawn (0, 0));
    [apply two_marks_ok|reflexivity|done|apply redrawn_eq|done].
Defined.

Lemma save_load_round_trip_witness :
  wf_grid (warehouse two_marks) ∧
  ∃ l, save_layout two_marks = Some l ∧
    load_layout l init =
      Loaded (MkPicker (warehouse two_marks) (start_pos two_marks)
                       (goal_pos two_marks) (is_running init)
                       (algorithm_var init) (depth_limit_var init)
                       (stats_algorithm init)).
Proof.
  split; [apply two_marks_wf|].
  apply (save_load_round_trip two_marks init). apply two_marks_wf.
Defined.

(** A layout of one row, and one whose second row holds a value that is
    no cell type. *)
Definition one_row : Layout := MkLayout 1 2 [[0; 1]] None (Some (0, 0)).

Definition bad_value : Layout := MkLayout 2 1 [[0]; [9]] None None.

Lemma load_layout_wf_witness :
  0 ≤ l_rows one_row ∧ 0 ≤ l_cols one_row ∧
  let app' := MkPicker (MkWarehouse 1 2 [[EMPTY; OBSTACLE]]) None (Some (0, 0))
                       false BFS 15 None in
  load_layout one_row two_marks = Loaded app' ∧
  wf_grid (warehouse app') ∧
  rows (warehouse app') = l_rows one_row ∧ cols (warehouse app') = l_cols one_row ∧
  start_pos app' = l_start_pos one_row ∧ goal_pos app' = l_goal_pos one_row.
Proof.
  split; [simpl; lia|]. split; [simpl; lia|]. split; [vm_compute; reflexivity|].
  apply (load_layout_wf one_row two_marks); [simpl; lia..|vm_compute; reflexivity].
Defined.

Lemma load_layout_error_witness :
  let app' := MkPicker (MkWarehouse 2 1 [[EMPTY]]) (Some (0, 0)) (Some (1, 1))
                       false BFS 15 None in
  load_layout bad_value two_marks = LoadError app' ∧
  ¬ wf_grid (warehouse app') ∧
  rows (warehouse app') = l_rows bad_value ∧
  cols (warehouse app') = l_cols bad_value ∧
  Z.of_nat (length (grid (warehouse app'))) < l_rows bad_value ∧
  start_pos app' = start_pos two_marks ∧ goal_pos app' = goal_pos two_marks.
Proof.
  split; [vm_compute; reflexivity|].
  apply (load_layout_error bad_value two_marks). vm_compute; reflexivity.
Defined.
